(** * Thread path planner of the image-stylization-threading demo

    Shallow embedding of [src/ts/thread-computer.ts]: the peg layout builder
    ([computePegs]), the sampling and scoring of the hidden canvas
    ([sampleCanvasData], [computeThreadPotential]) and the planner
    ([computeThread], [computeNextThreads], [reset]).

    JavaScript numbers are idealised as real numbers: rounding error of the
    IEEE doubles is not modelled.  The one non-real value the planner can
    meet, the [NaN] of a [0 / 0] score, is kept (see [number]).  Integer
    valued quantities (canvas sizes, pixel indices, counts) are in [Z].
    Where the rounding decides a property, the angles of the circle layout,
    the module [Double] evaluates the same arithmetic on binary64 floats.

    The module [Compositing] embeds [src/ts/plotter/compositing.ts]. *)

From Stdlib Require Import Reals Lra Lia ZArith List Bool Psatz.
From Stdlib Require String Floats Uint63.
Import ListNotations.
Open Scope R_scope.

(** ** Host functions *)

Definition Math_floor (v : R) : Z := Zfloor v.
Definition Math_ceil (v : R) : Z := Zceil v.
Definition Math_sqrt (v : R) : R := sqrt v.
Definition Math_abs (v : R) : R := Rabs v.
Definition Math_min (a b : R) : R := Rmin a b.
Definition Math_PI : R := PI.

(** Comparisons of numbers, as booleans. *)
Definition Rltb (a b : R) : bool := if Rlt_dec a b then true else false.
Definition Rleb (a b : R) : bool := if Rle_dec a b then true else false.
Definition Reqb (a b : R) : bool := if Req_dec_T a b then true else false.

(** [v % 1]: the remainder keeps the sign of the dividend, so the quotient is
    truncated towards zero. *)
Definition trunc (v : R) : Z := if Rle_dec 0 v then Zfloor v else Zceil v.
Definition rem1 (v : R) : R := v - IZR (trunc v).

(** The result of a division that may be [0 / 0]. *)
Inductive number : Type :=
| NaN : number
| Num : R -> number.

(** [for (let i = lo; i < lo + n; i++) acc = body(i, acc)]. *)
Fixpoint for_range {A : Type} (lo : Z) (n : nat) (body : Z -> A -> A) (acc : A) : A :=
  match n with
  | O => acc
  | S k => for_range (lo + 1)%Z k body (body lo acc)
  end.

(** [for (let i = lo; i < hi; i++) ...]. *)
Definition for_loop {A : Type} (lo hi : Z) (body : Z -> A -> A) (acc : A) : A :=
  for_range lo (Z.to_nat (hi - lo)) body acc.

(** ** Constants *)

Definition MIN_SAFE_NUMBER : R := -9007199254740991.
Definition HIDDEN_CANVAS_SIZE : Z := 256.
Definition TWO_PI : R := 2 * Math_PI.
Definition LINE_OPACITY : R := 0.512 / 8.

Definition clamp (v min max : Z) : Z :=
  if (v <? min)%Z then min
  else if (v >? max)%Z then max
  else v.

Definition mix (a b t : R) : R := a * (1 - t) + b * t.

(** ** Data *)

Inductive EShape : Type := RECTANGLE | CIRCLE.

Record IPoint : Type := { x : R; y : R }.

(** [IPeg] is a point; the pegs of a circle ([IPegCircle]) carry their angle
    too, the pegs of a rectangle have no such field. *)
Record IPeg : Type := { peg_point :> IPoint; angle : option R }.

Record IThread : Type := { peg1 : IPeg; peg2 : IPeg }.

Record ISize : Type := { width : Z; height : Z }.

(** The hidden canvas: its size and its bitmap, four bytes (r, g, b, a) per
    pixel, row by row. *)
Record HTMLCanvasElement : Type := { canvas_size :> ISize; bitmap : list Z }.

(** ** Sampling the CPU copy of the canvas *)

(** [data[i]] of a [Uint8ClampedArray].  Out of range JavaScript gives
    [undefined]; [sampleCanvasData_reads_in_range] below shows that the
    sampling never reads out of range, so the default is never taken. *)
Definition byte_at (data : list Z) (i : Z) : R := IZR (nth (Z.to_nat i) data 0%Z).

Definition euclidean_distance (p1 p2 : IPoint) : R :=
  sqrt ((x p2 - x p1) ^ 2 + (y p2 - y p1) ^ 2).

Definition Rsum (l : list R) : R := fold_right Rplus 0 l.

Section Sampling.
Variable canvas : ISize.
Variable cpuData : list Z.

Definition sampleCanvasPixel (pixelX pixelY : Z) : R :=
  let base := (4 * (pixelX + pixelY * width canvas))%Z in
  (byte_at cpuData base + byte_at cpuData (base + 1) + byte_at cpuData (base + 2)) / 3.

Definition sampleCanvasData (coords : IPoint) : R :=
  let w := width canvas in
  let h := height canvas in
  let minX := clamp (Math_floor (x coords)) 0 (w - 1) in
  let maxX := clamp (Math_ceil (x coords)) 0 (w - 1) in
  let minY := clamp (Math_floor (y coords)) 0 (h - 1) in
  let maxY := clamp (Math_ceil (y coords)) 0 (h - 1) in
  let topLeft := sampleCanvasPixel minX minY in
  let topRight := sampleCanvasPixel maxX minY in
  let bottomLeft := sampleCanvasPixel minX maxY in
  let bottomRight := sampleCanvasPixel maxX maxY in
  let fractX := rem1 (x coords) in
  let top := mix topLeft topRight fractX in
  let bottom := mix bottomLeft bottomRight fractX in
  let fractY := rem1 (y coords) in
  mix top bottom fractY.

(** The body of the sampling loop of [computeThreadPotential]. *)
Definition potential_step (p1 : IPeg) (dX dY : R) (nbSamples : Z)
           (iSample : Z) (squaredError : R) : R :=
  let r := (IZR iSample + 1) / (IZR nbSamples + 1) in
  let sample := {| x := x p1 + dX * r; y := y p1 + dY * r |} in
  let imageValue := sampleCanvasData sample in
  let finalValue := imageValue + (0.5 * LINE_OPACITY * 255) in
  let contribution := 127 - finalValue in
  squaredError + contribution.

(** [computeThreadPotential] after its first line (the upload of the canvas
    to the CPU copy [cpuData]).  With [nbSamples = 0] the loop does not run
    and the result is [0 / 0]. *)
Definition threadPotential (p1 p2 : IPeg) : number :=
  let dX := x p2 - x p1 in
  let dY := y p2 - y p1 in
  let distance := Math_sqrt (dX * dX + dY * dY) in
  let nbSamples := Math_ceil distance in
  let squaredError := for_loop 0 nbSamples (potential_step p1 dX dY nbSamples) 0 in
  if (nbSamples =? 0)%Z then NaN else Num (squaredError / IZR nbSamples).

(** *** The score in the words of the specification *)

(** [p1 + (p2 - p1) * (i + 1) / (N + 1)] *)
Definition interior_point (p1 p2 : IPoint) (N i : nat) : IPoint :=
  {| x := x p1 + (x p2 - x p1) * (INR i + 1) / (INR N + 1);
     y := y p1 + (y p2 - y p1) * (INR i + 1) / (INR N + 1) |}.

Definition contribution_spec (v : R) : R := 127 - (v + 0.5 * (0.512 / 8) * 255).

Definition mean_contribution (p1 p2 : IPoint) : R :=
  let N := Z.to_nat (Zceil (euclidean_distance p1 p2)) in
  Rsum (map (fun i => contribution_spec (sampleCanvasData (interior_point p1 p2 N i)))
            (seq 0 N)) / INR N.
End Sampling.

(** ** Peg layout builder *)

(** The proximity predicate installed for a rectangle. *)
Definition arePegsTooClose_rectangle (p1 p2 : IPeg) : bool :=
  Reqb (x p1) (x p2) || Reqb (y p1) (y p2).

(** The proximity predicate installed for a circle.  A peg without [angle]
    makes the difference [NaN], and [NaN <= TWO_PI / 16] is false. *)
Definition arePegsTooClose_circle (p1 p2 : IPeg) : bool :=
  match angle p1, angle p2 with
  | Some a1, Some a2 =>
      let absDeltaAngle := Math_abs (a1 - a2) in
      let minAngle := Math_min absDeltaAngle (TWO_PI - absDeltaAngle) in
      Rleb minAngle (TWO_PI / 16)
  | _, _ => false
  end.

Definition rectangle_peg (px py : R) : IPeg :=
  {| peg_point := {| x := px; y := py |}; angle := None |}.

Definition rectangle_pegs (domainSize : ISize) (pegsSpacing : R) : list IPeg :=
  let maxX := IZR (width domainSize - 1) in
  let maxY := IZR (height domainSize - 1) in
  let pegs := [rectangle_peg 0 0; rectangle_peg maxX 0;
               rectangle_peg maxX maxY; rectangle_peg 0 maxY] in
  let nbPegsPerWidth := Math_ceil (IZR (width domainSize) / pegsSpacing) in
  let pegs :=
    for_loop 1 nbPegsPerWidth
      (fun iW pegs =>
         let px := maxX * (IZR iW / IZR nbPegsPerWidth) in
         (pegs ++ [rectangle_peg px 0]) ++ [rectangle_peg px maxY]) pegs in
  let nbPegsPerHeight := Math_ceil (IZR (height domainSize) / pegsSpacing) in
  for_loop 1 nbPegsPerHeight
    (fun iH pegs =>
       let py := maxY * (IZR iH / IZR nbPegsPerHeight) in
       (pegs ++ [rectangle_peg 0 py]) ++ [rectangle_peg maxX py]) pegs.

Definition circle_peg (domainSize : ISize) (a : R) : IPeg :=
  {| peg_point := {| x := 0.5 * IZR (width domainSize) * (1 + cos a);
                     y := 0.5 * IZR (height domainSize) * (1 + sin a) |};
     angle := Some a |}.

Definition circle_nbPegs (domainSize : ISize) (pegsSpacing : R) : Z :=
  let maxSize := Z.max (width domainSize) (height domainSize) in
  Math_ceil (0.5 * TWO_PI * IZR maxSize / pegsSpacing).

Definition circle_pegs (domainSize : ISize) (pegsSpacing : R) : list IPeg :=
  let nbPegs := circle_nbPegs domainSize pegsSpacing in
  let baseDeltaAngle := TWO_PI / IZR nbPegs in
  for_loop 0 nbPegs
    (fun iPeg pegs =>
       let a := IZR iPeg * baseDeltaAngle in
       pegs ++ [circle_peg domainSize a]) [].

(** [computePegs]: the predicate it stores in [this.arePegsTooClose] and the
    pegs it returns. *)
Definition computePegs (domainSize : ISize) (pegsShape : EShape) (pegsSpacing : R)
  : (IPeg -> IPeg -> bool) * list IPeg :=
  match pegsShape with
  | RECTANGLE => (arePegsTooClose_rectangle, rectangle_pegs domainSize pegsSpacing)
  | CIRCLE => (arePegsTooClose_circle, circle_pegs domainSize pegsSpacing)
  end.

(** ** The planner *)

Record HTMLImageElement : Type := { image_size :> ISize; image_id : nat }.

(** The global [Parameters] the planner reads; the page changes them between
    two calls. *)
Record ParametersT : Type := {
  Parameters_nbLines : Z;
  Parameters_shape : EShape;
  Parameters_pegsSpacing : R;
  Parameters_invertColors : bool }.

Record ThreadComputer : Type := {
  targetNbSegments : Z;
  sourceImage : HTMLImageElement;
  hiddenCanvas : HTMLCanvasElement;
  hiddenCanvasData : option (list Z);
  pegsShape : EShape;
  pegsSpacing : R;
  pegs : list IPeg;
  threadPegs : list (option IPeg);
  arePegsTooClose : IPeg -> IPeg -> bool }.

(** The planner object together with how many times the clock and the random
    generator of the host were read. *)
Record World : Type := {
  this : ThreadComputer;
  clock_reads : nat;
  random_reads : nat }.

(** How a call ends: it returns, or it throws the [TypeError] of reading a
    property of [null]. *)
Inductive completion (A : Type) : Type :=
| Normal : A -> World -> completion A
| TypeError : World -> completion A.
Arguments Normal {A} _ _.
Arguments TypeError {A} _.

Definition M (A : Type) : Type := World -> completion A.

Definition ret {A : Type} (a : A) : M A := fun w => Normal a w.
Definition throw {A : Type} : M A := fun w => TypeError w.
Definition bind {A B : Type} (m : M A) (k : A -> M B) : M B :=
  fun w => match m w with
           | Normal a w' => k a w'
           | TypeError w' => TypeError w'
           end.
Definition get : M ThreadComputer := fun w => Normal (this w) w.
Definition modify (f : ThreadComputer -> ThreadComputer) : M unit :=
  fun w => Normal tt {| this := f (this w);
                        clock_reads := clock_reads w;
                        random_reads := random_reads w |}.

Notation "v <- m ;; k" := (bind m (fun v => k))
  (at level 61, m at next level, right associativity).
Notation "m ;;; k" := (bind m (fun _ => k))
  (at level 61, right associativity).

Fixpoint forEach {A B : Type} (l : list A) (body : A -> B -> M B) (acc : B) : M B :=
  match l with
  | [] => ret acc
  | a :: rest => acc' <- body a acc ;; forEach rest body acc'
  end.

Definition set_targetNbSegments (v : Z) (t : ThreadComputer) : ThreadComputer :=
  {| targetNbSegments := v; sourceImage := sourceImage t;
     hiddenCanvas := hiddenCanvas t; hiddenCanvasData := hiddenCanvasData t;
     pegsShape := pegsShape t; pegsSpacing := pegsSpacing t; pegs := pegs t;
     threadPegs := threadPegs t; arePegsTooClose := arePegsTooClose t |}.

Definition set_hiddenCanvas (v : HTMLCanvasElement) (t : ThreadComputer) : ThreadComputer :=
  {| targetNbSegments := targetNbSegments t; sourceImage := sourceImage t;
     hiddenCanvas := v; hiddenCanvasData := hiddenCanvasData t;
     pegsShape := pegsShape t; pegsSpacing := pegsSpacing t; pegs := pegs t;
     threadPegs := threadPegs t; arePegsTooClose := arePegsTooClose t |}.

Definition set_hiddenCanvasData (v : option (list Z)) (t : ThreadComputer) : ThreadComputer :=
  {| targetNbSegments := targetNbSegments t; sourceImage := sourceImage t;
     hiddenCanvas := hiddenCanvas t; hiddenCanvasData := v;
     pegsShape := pegsShape t; pegsSpacing := pegsSpacing t; pegs := pegs t;
     threadPegs := threadPegs t; arePegsTooClose := arePegsTooClose t |}.

Definition set_pegsShape (v : EShape) (t : ThreadComputer) : ThreadComputer :=
  {| targetNbSegments := targetNbSegments t; sourceImage := sourceImage t;
     hiddenCanvas := hiddenCanvas t; hiddenCanvasData := hiddenCanvasData t;
     pegsShape := v; pegsSpacing := pegsSpacing t; pegs := pegs t;
     threadPegs := threadPegs t; arePegsTooClose := arePegsTooClose t |}.

Definition set_pegsSpacing (v : R) (t : ThreadComputer) : ThreadComputer :=
  {| targetNbSegments := targetNbSegments t; sourceImage := sourceImage t;
     hiddenCanvas := hiddenCanvas t; hiddenCanvasData := hiddenCanvasData t;
     pegsShape := pegsShape t; pegsSpacing := v; pegs := pegs t;
     threadPegs := threadPegs t; arePegsTooClose := arePegsTooClose t |}.

(** [this.pegs = this.computePegs()]: [computePegs] stores the predicate,
    then the assignment stores the pegs. *)
Definition set_pegs (v : (IPeg -> IPeg -> bool) * list IPeg) (t : ThreadComputer)
  : ThreadComputer :=
  {| targetNbSegments := targetNbSegments t; sourceImage := sourceImage t;
     hiddenCanvas := hiddenCanvas t; hiddenCanvasData := hiddenCanvasData t;
     pegsShape := pegsShape t; pegsSpacing := pegsSpacing t; pegs := snd v;
     threadPegs := threadPegs t; arePegsTooClose := fst v |}.

Definition set_threadPegs (v : list (option IPeg)) (t : ThreadComputer) : ThreadComputer :=
  {| targetNbSegments := targetNbSegments t; sourceImage := sourceImage t;
     hiddenCanvas := hiddenCanvas t; hiddenCanvasData := hiddenCanvasData t;
     pegsShape := pegsShape t; pegsSpacing := pegsSpacing t; pegs := pegs t;
     threadPegs := v; arePegsTooClose := arePegsTooClose t |}.

Definition nbSegments (t : ThreadComputer) : Z :=
  let len := Z.of_nat (length (threadPegs t)) in
  if (len >? 1)%Z then (len - 1)%Z else 0%Z.

(** For an image of size 0 by 0 the factor is [256 / 0]; JavaScript then sets
    a canvas of 0 by 0 pixels, and so does the division of the reals, whose
    [x / 0] is 0. *)
Definition computeBestSize (sourceImageSize : ISize) (maxSize : Z) : ISize :=
  let maxSourceSide := Z.max (width sourceImageSize) (height sourceImageSize) in
  let sizingFactor := IZR maxSize / IZR maxSourceSide in
  {| width := Math_ceil (IZR (width sourceImageSize) * sizingFactor);
     height := Math_ceil (IZR (height sourceImageSize) * sizingFactor) |}.

(** Storing a number in a [Uint8ClampedArray]: rounded to the nearest
    integer, a tie to the even one, and clamped to [[0, 255]]. *)
Definition toUint8Clamped (v : R) : Z :=
  let f := Zfloor v in
  let rounded :=
    if Rlt_dec (v - IZR f) 0.5 then f
    else if Rlt_dec 0.5 (v - IZR f) then (f + 1)%Z
    else if Z.even f then f else (f + 1)%Z in
  clamp rounded 0 255.

(** [data[i] = v] on a typed array: a write out of range is ignored. *)
Fixpoint write_at (data : list Z) (i : nat) (v : Z) : list Z :=
  match data, i with
  | [], _ => []
  | _ :: rest, O => v :: rest
  | d :: rest, S k => d :: write_at rest k v
  end.

Definition computeAdjustedValue (invertColors : bool) (r g b : R) : R :=
  if invertColors then 128 - (r + g + b) / 3 / 2 else (r + g + b) / 3 / 2.

Definition adjust_pixel (invertColors : bool) (i : Z) (canvasData : list Z) : list Z :=
  let adjustedValue :=
    toUint8Clamped (computeAdjustedValue invertColors
                      (byte_at canvasData (4 * i + 0))
                      (byte_at canvasData (4 * i + 1))
                      (byte_at canvasData (4 * i + 2))) in
  let canvasData := write_at canvasData (Z.to_nat (4 * i + 0)) adjustedValue in
  let canvasData := write_at canvasData (Z.to_nat (4 * i + 1)) adjustedValue in
  write_at canvasData (Z.to_nat (4 * i + 2)) adjustedValue.

(** One candidate of a search for the best score: [candidateScore > bestScore]
    starts a new list of candidates, [candidateScore === bestScore] extends
    it; both comparisons are false on [NaN]. *)
Definition consider {T : Type} (candidateScore : number) (item : T)
           (acc : list T * R) : list T * R :=
  let (candidates, bestScore) := acc in
  match candidateScore with
  | NaN => acc
  | Num score =>
      if Rltb bestScore score then ([item], score)
      else if Reqb score bestScore then (candidates ++ [item], bestScore)
      else acc
  end.

(** [list[i]]: [undefined] out of range. *)
Definition item_at {T : Type} (l : list T) (i : Z) : option T :=
  if (i <? 0)%Z then None else nth_error l (Z.to_nat i).

Section Planner.
(** What the browser does, taken as given: the bitmap of the canvas after the
    source image is drawn on it at a size, the bitmap after a line of width 1
    and colour [rgba(255,255,255, alpha)] is stroked between two points, the
    successive readings of [performance.now()] and of [Math.random()]. *)
Variable drawImage : HTMLImageElement -> ISize -> list Z.
Variable strokeLine : HTMLCanvasElement -> R -> IPoint -> IPoint -> list Z.
Variable performance_now : nat -> R.
Variable Math_random : nat -> R.

Definition now : M R :=
  fun w => Normal (performance_now (clock_reads w))
                  {| this := this w;
                     clock_reads := S (clock_reads w);
                     random_reads := random_reads w |}.

Definition randomItem {T : Type} (l : list T) : M (option T) :=
  if (length l =? 0)%nat then ret None
  else fun w =>
         let randomIndex :=
           Math_floor (Math_random (random_reads w) * INR (length l)) in
         Normal (item_at l randomIndex)
                {| this := this w;
                   clock_reads := clock_reads w;
                   random_reads := S (random_reads w) |}.

(** The canvas after [resetHiddenCanvas]. *)
Definition freshCanvas (invertColors : bool) (image : HTMLImageElement)
  : HTMLCanvasElement :=
  let wantedSize := computeBestSize image HIDDEN_CANVAS_SIZE in
  let canvasData := drawImage image wantedSize in
  let nbPixels := (width wantedSize * height wantedSize)%Z in
  {| canvas_size := wantedSize;
     bitmap := for_loop 0 nbPixels (adjust_pixel invertColors) canvasData |}.

Definition resetHiddenCanvas (P : ParametersT) : M unit :=
  modify (fun t =>
            set_hiddenCanvas (freshCanvas (Parameters_invertColors P) (sourceImage t)) t).

(** The planner once the thread between two pegs is stroked on the canvas:
    the CPU copy is discarded. *)
Definition strokeThread (a b : IPeg) (t : ThreadComputer) : ThreadComputer :=
  set_hiddenCanvasData None
    (set_hiddenCanvas
       {| canvas_size := hiddenCanvas t;
          bitmap := strokeLine (hiddenCanvas t) (0.5 * LINE_OPACITY) a b |} t).

(** [peg1.x] and [peg2.x] are read before anything is drawn. *)
Definition drawThreadOnHiddenCanvas (p1 p2 : option IPeg) : M unit :=
  match p1, p2 with
  | Some a, Some b => modify (strokeThread a b)
  | _, _ => throw
  end.

Definition upload (t : ThreadComputer) : ThreadComputer :=
  match hiddenCanvasData t with
  | None => set_hiddenCanvasData (Some (bitmap (hiddenCanvas t))) t
  | Some _ => t
  end.

Definition uploadCanvasDataToCPU : M unit := modify upload.

(** The CPU copy the sampling reads once [uploadCanvasDataToCPU] has run. *)
Definition uploaded (t : ThreadComputer) : list Z :=
  match hiddenCanvasData t with
  | None => bitmap (hiddenCanvas t)
  | Some data => data
  end.

Definition computeThreadPotential (p1 p2 : IPeg) : M number :=
  uploadCanvasDataToCPU ;;;
  t <- get ;;
  match hiddenCanvasData t with
  | Some data => ret (threadPotential (hiddenCanvas t) data p1 p2)
  | None => throw
  end.

(** The body shared by the two searches: one candidate thread. *)
Definition tryCandidate {T : Type} (p1 p2 : IPeg) (item : T) (acc : list T * R)
  : M (list T * R) :=
  t <- get ;;
  if negb (arePegsTooClose t p1 p2) then
    candidateScore <- computeThreadPotential p1 p2 ;;
    ret (consider candidateScore item acc)
  else ret acc.

(** The two nested loops of [computeBestStartingThread], over the pegs from
    index [iPegId1] on: the inner loop runs over the pegs after it. *)
Fixpoint startingLoop (l : list IPeg) (acc : list IThread * R) : M (list IThread * R) :=
  match l with
  | [] => ret acc
  | p1 :: rest =>
      acc' <- forEach rest
                (fun p2 acc => tryCandidate p1 p2 {| peg1 := p1; peg2 := p2 |} acc) acc ;;
      startingLoop rest acc'
  end.

Definition computeBestStartingThread : M (option IThread) :=
  t <- get ;;
  acc <- startingLoop (pegs t) ([], MIN_SAFE_NUMBER) ;;
  randomItem (fst acc).

(** [currentPeg] may be [null]: the predicate then throws at the first peg. *)
Definition computeBestNextPeg (currentPeg : option IPeg) : M (option IPeg) :=
  t <- get ;;
  acc <- forEach (pegs t)
           (fun peg acc =>
              match currentPeg with
              | None => throw
              | Some current => tryCandidate current peg peg acc
              end) ([], MIN_SAFE_NUMBER) ;;
  randomItem (fst acc).

Definition push (p : option IPeg) : M unit :=
  modify (fun t => set_threadPegs (threadPegs t ++ [p]) t).

(** [lastPeg] and [nextPeg] of [computeThread], chosen by its two branches. *)
Definition chooseThread : M (option IPeg * option IPeg) :=
  t <- get ;;
  if (length (threadPegs t) =? 0)%nat then
    startingThread <- computeBestStartingThread ;;
    match startingThread with
    | None => throw
    | Some st =>
        push (Some (peg1 st)) ;;;
        ret (Some (peg1 st), Some (peg2 st))
    end
  else
    let lastPeg := last (threadPegs t) None in
    nextPeg <- computeBestNextPeg lastPeg ;;
    ret (lastPeg, nextPeg).

Definition computeThread : M unit :=
  chosen <- chooseThread ;;
  let (lastPeg, nextPeg) := chosen in
  push nextPeg ;;;
  drawThreadOnHiddenCanvas lastPeg nextPeg.

Definition reset (P : ParametersT) : M unit :=
  modify (set_targetNbSegments (Parameters_nbLines P)) ;;;
  modify (set_pegsShape (Parameters_shape P)) ;;;
  modify (set_pegsSpacing (Parameters_pegsSpacing P)) ;;;
  modify (fun t => set_pegs (computePegs (hiddenCanvas t) (pegsShape t) (pegsSpacing t)) t) ;;;
  modify (set_threadPegs []) ;;;
  resetHiddenCanvas P.

(** The [while] loop of [computeNextThreads].  Every turn that returns adds a
    segment, so [targetNbSegments - nbSegments] turns are enough
    ([growLoop_fuel]); the clock is read only when the first test passes. *)
Fixpoint growLoop (fuel : nat) (start maxMillisecondsTaken : R) : M unit :=
  match fuel with
  | O => ret tt
  | S fuel' =>
      t <- get ;;
      if (nbSegments t <? targetNbSegments t)%Z then
        time <- now ;;
        if Rltb (time - start) maxMillisecondsTaken then
          computeThread ;;; growLoop fuel' start maxMillisecondsTaken
        else ret tt
      else ret tt
  end.

Definition computeNextThreads (P : ParametersT) (maxMillisecondsTaken : R) : M bool :=
  start <- now ;;
  t <- get ;;
  (if (nbSegments t >? Parameters_nbLines P)%Z then reset P else ret tt) ;;;
  modify (set_targetNbSegments (Parameters_nbLines P)) ;;;
  t <- get ;;
  growLoop (Z.to_nat (targetNbSegments t - nbSegments t)) start maxMillisecondsTaken ;;;
  t <- get ;;
  ret (nbSegments t >=? targetNbSegments t)%Z.

(** [new ThreadComputer(image, pegsShape, pegsSpacing)] *)
Definition constructor (P : ParametersT) (image : HTMLImageElement)
           (shape : EShape) (spacing : R) : ThreadComputer :=
  let canvas := freshCanvas (Parameters_invertColors P) image in
  set_pegs (computePegs canvas shape spacing)
    {| targetNbSegments := 0;
       sourceImage := image;
       hiddenCanvas := canvas;
       hiddenCanvasData := None;
       pegsShape := shape;
       pegsSpacing := spacing;
       pegs := [];
       threadPegs := [];
       arePegsTooClose := fun _ _ => false |}.

(** The states the planner is in between two calls of its public methods.
    [drawThreads], [drawPegs], [drawDebugView], [threadLength] and the getters
    only read; [reset] and [computeNextThreads] change the state, the latter
    also when it throws.  The page may write the public field
    [targetNbSegments], and read the clock and the random generator, at any
    time. *)
Inductive reachable : World -> Prop :=
| reachable_new : forall P image shape spacing clock rnd,
    reachable {| this := constructor P image shape spacing;
                 clock_reads := clock; random_reads := rnd |}
| reachable_reset : forall P w w',
    reachable w -> reset P w = Normal tt w' -> reachable w'
| reachable_next : forall P maxMs w done w',
    reachable w -> computeNextThreads P maxMs w = Normal done w' -> reachable w'
| reachable_next_throws : forall P maxMs w w',
    reachable w -> computeNextThreads P maxMs w = TypeError w' -> reachable w'
| reachable_target : forall v w,
    reachable w ->
    reachable {| this := set_targetNbSegments v (this w);
                 clock_reads := clock_reads w; random_reads := random_reads w |}
| reachable_host : forall w clock rnd,
    reachable w ->
    reachable {| this := this w; clock_reads := clock; random_reads := rnd |}.

End Planner.

(** Two states of the planner that differ at most in the CPU copy of the
    canvas: what a search for the best thread may change. *)
Definition same_but_cache (t t' : ThreadComputer) : Prop :=
  t' = set_hiddenCanvasData (hiddenCanvasData t') t.

Definition searched (w w' : World) : Prop := same_but_cache (this w) (this w').

Definition path_length (w : World) : nat := length (threadPegs (this w)).

(** The world once [performance.now()] has been read. *)
Definition tick (w : World) : World :=
  {| this := this w; clock_reads := S (clock_reads w); random_reads := random_reads w |}.

Definition with_this (t : ThreadComputer) (w : World) : World :=
  {| this := t; clock_reads := clock_reads w; random_reads := random_reads w |}.

(** What is left of [computeNextThreads] once the target is set: the loop and
    the returned test. *)
Definition grow (strokeLine : HTMLCanvasElement -> R -> IPoint -> IPoint -> list Z)
           (performance_now Math_random : nat -> R)
           (start maxMillisecondsTaken : R) : M bool :=
  t <- get ;;
  growLoop strokeLine performance_now Math_random
    (Z.to_nat (targetNbSegments t - nbSegments t)) start maxMillisecondsTaken ;;;
  t <- get ;;
  ret (nbSegments t >=? targetNbSegments t)%Z.

(** The values [lo], [lo + 1], ... a [for] loop of [n] turns goes through. *)
Definition Zseq (lo : Z) (n : nat) : list Z :=
  map (fun k => (lo + Z.of_nat k)%Z) (seq 0 n).

(** ** Examples *)

(** A browser that draws every source image black and transparent, whose
    strokes are too faint to change a byte, whose clock shows 0 at the first
    two readings and 2 afterwards, and whose random generator always
    answers 0. *)
Definition blackImage (image : HTMLImageElement) (size : ISize) : list Z :=
  repeat 0%Z (Z.to_nat (4 * (width size * height size))).
Definition faintStroke (canvas : HTMLCanvasElement) (alpha : R) (a b : IPoint) : list Z :=
  bitmap canvas.
Definition exampleClock (n : nat) : R := if (n <=? 1)%nat then 0 else 2.
Definition zeroRandom (n : nat) : R := 0.

Definition squareImage : HTMLImageElement :=
  {| image_size := {| width := 256; height := 256 |}; image_id := 0 |}.

(** An image of 1 by 1000 pixels: the hidden canvas is 1 by 256. *)
Definition thinImage : HTMLImageElement :=
  {| image_size := {| width := 1; height := 1000 |}; image_id := 1 |}.

Definition rectangleParameters (n : Z) : ParametersT :=
  {| Parameters_nbLines := n;
     Parameters_shape := RECTANGLE;
     Parameters_pegsSpacing := 256;
     Parameters_invertColors := false |}.

(** The planner built for the square image with the four corners as pegs,
    and the one built for the thin image. *)
Definition squareWorld : World :=
  {| this := constructor blackImage (rectangleParameters 5) squareImage RECTANGLE 256;
     clock_reads := 0; random_reads := 0 |}.

Definition thinWorld (drawImage : HTMLImageElement -> ISize -> list Z) : World :=
  {| this := constructor drawImage (rectangleParameters 1) thinImage RECTANGLE 256;
     clock_reads := 0; random_reads := 0 |}.

Definition corner00 : IPeg := rectangle_peg 0 0.
Definition corner10 : IPeg := rectangle_peg 255 0.
Definition corner11 : IPeg := rectangle_peg 255 255.
Definition corner01 : IPeg := rectangle_peg 0 255.

(** The square example after its first planning step: the diagonal from
    [(0,0)] to [(255,255)] is on the path and drawn. *)
Definition after_first_step (w : World) : World :=
  {| this := strokeThread faintStroke corner00 corner11
               (set_threadPegs [Some corner00; Some corner11] (upload (upload (this w))));
     clock_reads := clock_reads w;
     random_reads := S (random_reads w) |}.

(** The square example after [computeNextThreads(1)] with 5 lines asked for:
    the clock stops the loop after one step. *)
Definition squareWorld1 : World :=
  tick (after_first_step
          (tick (with_this (set_targetNbSegments 5 (this squareWorld)) (tick squareWorld)))).

(** The score of any thread on a black canvas. *)
Definition blackScore : R := 127 - (0 + 0.5 * (0.512 / 8) * 255).

(** A planner with the rectangle predicate on an all-zero CPU copy. *)
Definition black_rectangle (t : ThreadComputer) : Prop :=
  arePegsTooClose t = arePegsTooClose_rectangle /\
  Forall (fun v => v = 0%Z) (uploaded t).

(** ** More of the planner *)

(** The bytes of a [Uint8ClampedArray]. *)
Definition bytes_ok (data : list Z) : Prop :=
  Forall (fun v => (0 <= v <= 255)%Z) data.

(** The least and the greatest score a thread can get on such bytes. *)
Definition lowestScore : R := 127 - (255 + 0.5 * LINE_OPACITY * 255).
Definition highestScore : R := 127 - (0 + 0.5 * LINE_OPACITY * 255).

(** The score of the thread from [p] to [q] in a state of the planner: what
    [computeThreadPotential] returns there. *)
Definition score (t : ThreadComputer) (p q : IPeg) : number :=
  threadPotential (hiddenCanvas t) (uploaded t) p q.

Definition accepted (t : ThreadComputer) (p q : IPeg) : bool :=
  negb (arePegsTooClose t p q).

(** The pairs [(pegs[i], pegs[j])], [i < j], in the order the two loops of
    [computeBestStartingThread] meet them. *)
Fixpoint pairs (l : list IPeg) : list IThread :=
  match l with
  | [] => []
  | p :: rest => map (fun q => {| peg1 := p; peg2 := q |}) rest ++ pairs rest
  end.

Definition is_nil {A : Type} (l : list A) : bool :=
  match l with [] => true | _ :: _ => false end.

(** The world after a search: the canvas is uploaded as soon as one candidate
    is scored. *)
Definition after_scoring (scored : bool) (w : World) : World :=
  if scored then with_this (upload (this w)) w else w.

(** What a search knows after the candidates [seen]: its candidates are
    among them and have the best score, no score seen is above the best
    score, and the list of candidates is empty only when no score seen
    reaches [MIN_SAFE_NUMBER]. *)
Record best_so_far {T : Type} (f : T -> number) (seen : list T) (acc : list T * R) : Prop := {
  best_candidates : forall c, In c (fst acc) -> In c seen /\ f c = Num (snd acc);
  best_is_max : forall v c, In c seen -> f c = Num v -> v <= snd acc;
  best_above_min : MIN_SAFE_NUMBER <= snd acc;
  best_empty : fst acc = [] ->
               snd acc = MIN_SAFE_NUMBER /\
               forall v c, In c seen -> f c = Num v -> v < MIN_SAFE_NUMBER }.

(** A path as the planner grows it: empty, or a starting thread between two
    pegs of the layout that are not too close, extended peg by peg, each one
    a peg of the layout not too close to the one before. *)
Inductive valid_path (tooClose : IPeg -> IPeg -> bool) (layout : list IPeg)
  : list (option IPeg) -> Prop :=
| valid_empty : valid_path tooClose layout []
| valid_start : forall a b,
    In a layout -> In b layout -> tooClose a b = false ->
    valid_path tooClose layout [Some a; Some b]
| valid_next : forall l a b,
    valid_path tooClose layout (l ++ [Some a]) ->
    In b layout -> tooClose a b = false ->
    valid_path tooClose layout ((l ++ [Some a]) ++ [Some b]).

(** A planner in working order: the source image is not empty, the canvas
    has the size [computeBestSize] gives for it, the pegs and the predicate
    are those of the canvas, the stored shape and the stored spacing, the
    canvas and its CPU copy hold bytes, and the path is valid. *)
Record planned (t : ThreadComputer) : Prop := {
  planned_image : (1 <= width (sourceImage t))%Z /\ (1 <= height (sourceImage t))%Z;
  planned_size : canvas_size (hiddenCanvas t)
                 = computeBestSize (sourceImage t) HIDDEN_CANVAS_SIZE;
  planned_layout : (arePegsTooClose t, pegs t)
                   = computePegs (hiddenCanvas t) (pegsShape t) (pegsSpacing t);
  planned_bitmap : bytes_ok (bitmap (hiddenCanvas t));
  planned_cache : bytes_ok (uploaded t);
  planned_path : valid_path (arePegsTooClose t) (pegs t) (threadPegs t) }.

(** No thread to start from: every pair of pegs is too close. *)
Definition no_starting_thread (t : ThreadComputer) : Prop :=
  forall i j a b, (i < j)%nat -> nth_error (pegs t) i = Some a ->
                  nth_error (pegs t) j = Some b -> arePegsTooClose t a b = true.

Definition image_not_empty (t : ThreadComputer) : Prop :=
  (1 <= width (sourceImage t))%Z /\ (1 <= height (sourceImage t))%Z.

(** The grey level the loop of [resetHiddenCanvas] stores for pixel [i] of
    [canvasData]. *)
Definition adjustedLevel (invertColors : bool) (canvasData : list Z) (i : Z) : Z :=
  toUint8Clamped (computeAdjustedValue invertColors
                    (byte_at canvasData (4 * i + 0))
                    (byte_at canvasData (4 * i + 1))
                    (byte_at canvasData (4 * i + 2))).

(** [canvasData[4 * i + c]]. *)
Definition channel (canvasData : list Z) (i c : Z) : Z :=
  nth (Z.to_nat (4 * i + c)) canvasData 0%Z.

(** * [plotter/compositing.ts] *)

(** The stroke colour and blending of a plotter's canvas.  The module keeps
    one flag for the whole page, [supportsAdvancedCompositing]; the browser is
    the set [implemented] of compositing operations it knows: assigning
    another one to [context.globalCompositeOperation] leaves the property as
    it was.  A [strokeStyle] stands for the template string the code builds,
    [rgb(r, g, b)] or [rgba(r, g, b, a)], with the numbers it interpolates.
    [Page.Demopage.setErrorMessage] is recorded as the list of the ids it was
    called with. *)
Module Compositing.
Import String.

Inductive ECompositingOperation : Type :=
| DARKEN
| LIGHTEN.

Inductive EColor : Type :=
| MONOCHROME
| RED
| GREEN
| BLUE.

Record IColor : Type := { r : Z; g : Z; b : Z }.

Inductive style : Type :=
| rgb : Z -> Z -> Z -> style
| rgba : Z -> Z -> Z -> R -> style.

Record CanvasRenderingContext2D : Type := {
  globalCompositeOperation : String.string;
  strokeStyle : style
}.

Record Globals : Type := {
  supportsAdvancedCompositing : bool;
  errorMessages : list String.string
}.

Definition EColor_eqb (c1 c2 : EColor) : bool :=
  match c1, c2 with
  | MONOCHROME, MONOCHROME | RED, RED | GREEN, GREEN | BLUE, BLUE => true
  | _, _ => false
  end.

Definition useAdvancedCompositing (page : Globals) : bool :=
  supportsAdvancedCompositing page.

Definition computeRawColor (color : EColor) : IColor :=
  if EColor_eqb color MONOCHROME then {| r := 1; g := 1; b := 1 |}
  else {| r := if EColor_eqb color RED then 1 else 0;
          g := if EColor_eqb color GREEN then 1 else 0;
          b := if EColor_eqb color BLUE then 1 else 0 |}.

Definition set_strokeStyle (s : style) (context : CanvasRenderingContext2D)
  : CanvasRenderingContext2D :=
  {| globalCompositeOperation := globalCompositeOperation context; strokeStyle := s |}.

Definition setErrorMessage (id : String.string) (page : Globals) : Globals :=
  {| supportsAdvancedCompositing := supportsAdvancedCompositing page;
     errorMessages := errorMessages page ++ [id] |}.

Definition set_supportsAdvancedCompositing (v : bool) (page : Globals) : Globals :=
  {| supportsAdvancedCompositing := v; errorMessages := errorMessages page |}.

Section Browser.
Variable implemented : String.string -> bool.

(** [context.globalCompositeOperation = operation]. *)
Definition set_globalCompositeOperation (operation : String.string)
           (context : CanvasRenderingContext2D) : CanvasRenderingContext2D :=
  if implemented operation
  then {| globalCompositeOperation := operation; strokeStyle := strokeStyle context |}
  else context.

Definition resetCanvasCompositing (context : CanvasRenderingContext2D)
  : CanvasRenderingContext2D :=
  set_globalCompositeOperation "source-over"%string context.

(** The block under [// basic compositing]. *)
Definition basicCompositing (context : CanvasRenderingContext2D) (color : EColor)
           (opacity : R) (operation : ECompositingOperation) : CanvasRenderingContext2D :=
  let context := resetCanvasCompositing context in
  let value := match operation with LIGHTEN => 255%Z | DARKEN => 0%Z end in
  let rawRGB := computeRawColor color in
  set_strokeStyle (rgba (r rawRGB * value) (g rawRGB * value) (b rawRGB * value) opacity)
                  context.

Definition applyCanvasCompositing (context : CanvasRenderingContext2D) (color : EColor)
           (opacity : R) (operation : ECompositingOperation) (page : Globals)
  : CanvasRenderingContext2D * Globals :=
  if supportsAdvancedCompositing page then
    let targetOperation :=
      match operation with LIGHTEN => "lighter"%string | DARKEN => "difference"%string end in
    let context := set_globalCompositeOperation targetOperation context in
    if String.eqb (globalCompositeOperation context) targetOperation then
      let value := Math_ceil (255 * opacity) in
      let rawRGB := computeRawColor color in
      (set_strokeStyle (rgb (r rawRGB * value) (g rawRGB * value) (b rawRGB * value))
                       context,
       page)
    else
      let page := set_supportsAdvancedCompositing false page in
      let page := setErrorMessage "advanced-compositing-not-supported"%string page in
      (basicCompositing context color opacity operation, page)
  else (basicCompositing context color opacity operation, page).

(** A sequence of calls, each on the context and the page the one before
    left. *)
Fixpoint applyCalls (calls : list (EColor * R * ECompositingOperation))
         (context : CanvasRenderingContext2D) (page : Globals)
  : CanvasRenderingContext2D * Globals :=
  match calls with
  | [] => (context, page)
  | (color, opacity, operation) :: rest =>
      let (context, page) := applyCanvasCompositing context color opacity operation page in
      applyCalls rest context page
  end.
End Browser.

(** The operation [applyCanvasCompositing] asks for. *)
Definition targetOperation (operation : ECompositingOperation) : String.string :=
  match operation with LIGHTEN => "lighter"%string | DARKEN => "difference"%string end.

(** A browser that knows [source-over] only, and a context as a new canvas
    has it. *)
Definition basicBrowser (operation : String.string) : bool :=
  String.eqb operation "source-over"%string.

Definition fullBrowser (operation : String.string) : bool := true.

Definition newContext : CanvasRenderingContext2D :=
  {| globalCompositeOperation := "source-over"%string; strokeStyle := rgb 0 0 0 |}.

Definition newPage : Globals :=
  {| supportsAdvancedCompositing := true; errorMessages := [] |}.

End Compositing.

(** * The circle angles in double precision *)

(** The numbers of the program are IEEE 754 doubles.  [Double] evaluates the
    angles of the circle branch of [computePegs], and its predicate, on the
    kernel's binary64 floats, operation by operation as the source writes
    them: [Math.PI] is the double nearest to pi, the sizes of the canvas and
    the loop counter are integers, exact as doubles.  The loop
    [for (iPeg = 0; iPeg < nbPegs; iPeg++)] makes [to_Z nbPegs] turns for the
    finite counts a spacing other than 0 gives. *)
Module Double.
Import Floats.

Definition Math_PI : float := 0x1.921fb54442d18p+1%float.
Definition TWO_PI : float := (2 * Math_PI)%float.

(** An integer as a double: exact below [2^53]. *)
Definition of_Z (z : Z) : float :=
  if (z <? 0)%Z then (- of_uint63 (Uint63.of_Z (- z)))%float
  else of_uint63 (Uint63.of_Z z).

(** The integer part of a finite double, rounded down. *)
Definition to_Z (v : float) : Z :=
  match Prim2SF v with
  | S754_finite s m e =>
      let n := if s then Z.neg m else Z.pos m in
      if (0 <=? e)%Z then (n * 2 ^ e)%Z else (n / 2 ^ (- e))%Z
  | _ => 0%Z
  end.


(** [Math.ceil]: a double of exponent 0 or more is an integer already; zeros,
    infinities and [NaN] are returned as they are; a value in [(-1, 0)] gives
    [-0]. *)
Definition Math_ceil (v : float) : float :=
  match Prim2SF v with
  | S754_finite s m e =>
      if (0 <=? e)%Z then v
      else
        let k := (2 ^ (- e))%Z in
        if s then
          let q := (Z.pos m / k)%Z in
          if (q =? 0)%Z then (- 0)%float else (- of_Z q)%float
        else of_Z ((Z.pos m + k - 1) / k)
  | _ => v
  end.

Definition Math_abs (v : float) : float := abs v.

(** [Math.min]: [NaN] when an argument is, [-0] before [+0]. *)
Definition Math_min (a b : float) : float :=
  if is_nan a then a
  else if is_nan b then b
  else if (a <? b)%float then a
  else if (b <? a)%float then b
  else if get_sign a then a else b.

Definition circle_nbPegs (domainSize : ISize) (pegsSpacing : float) : float :=
  let maxSize := of_Z (Z.max (width domainSize) (height domainSize)) in
  Math_ceil (0.5 * TWO_PI * maxSize / pegsSpacing)%float.

(** The [angle] fields of the pegs, in the order they are pushed. *)
Definition circle_angles (domainSize : ISize) (pegsSpacing : float) : list float :=
  let nbPegs := circle_nbPegs domainSize pegsSpacing in
  let baseDeltaAngle := (TWO_PI / nbPegs)%float in
  for_loop 0 (to_Z nbPegs)
    (fun iPeg angles =>
       let angle := (of_Z iPeg * baseDeltaAngle)%float in
       angles ++ [angle]) [].

(** The predicate of the circle on two stored angles. *)
Definition arePegsTooClose_circle (angle1 angle2 : float) : bool :=
  let absDeltaAngle := Math_abs (angle1 - angle2)%float in
  let minAngle := Math_min absDeltaAngle (TWO_PI - absDeltaAngle)%float in
  (minAngle <=? TWO_PI / 16)%float.

End Double.

(** * Properties *)

(** ** Loops and sums *)

Lemma for_range_sum (g : Z -> R) (n : nat) :
  forall (k : nat) (acc : R),
    for_range (Z.of_nat k) n (fun i a => a + g i) acc
    = acc + Rsum (map (fun j => g (Z.of_nat j)) (seq k n)).
Proof.
  induction n as [|n IH]; intros k acc; simpl.
  - lra.
  - replace (Z.of_nat k + 1)%Z with (Z.of_nat (S k)) by lia.
    rewrite IH. lra.
Qed.

Lemma for_range_ext {A : Type} (f g : Z -> A -> A) (n : nat) :
  forall (lo : Z) (acc : A),
    (forall i a, (lo <= i < lo + Z.of_nat n)%Z -> f i a = g i a) ->
    for_range lo n f acc = for_range lo n g acc.
Proof.
  induction n as [|n IH]; intros lo acc H; simpl; [reflexivity|].
  rewrite H by lia. apply IH. intros i a Hi. apply H. lia.
Qed.

Lemma Rsum_const (c : R) (l : list R) :
  (forall v, In v l -> v = c) -> Rsum l = INR (length l) * c.
Proof.
  induction l as [|a l IH]; intros H.
  - simpl. lra.
  - change (Rsum (a :: l)) with (a + Rsum l).
    rewrite IH by (intros v Hv; apply H; now right).
    rewrite (H a) by now left.
    cbn [length]. rewrite S_INR. lra.
Qed.

(** ** The score *)

Lemma distance_sqrt (p1 p2 : IPoint) :
  Math_sqrt ((x p2 - x p1) * (x p2 - x p1) + (y p2 - y p1) * (y p2 - y p1))
  = euclidean_distance p1 p2.
Proof. unfold Math_sqrt, euclidean_distance. f_equal. ring. Qed.

Lemma ceil_pos (d : R) : 0 < d -> (1 <= Zceil d)%Z.
Proof.
  intros Hd. destruct (Zceil_bound d) as [_ Hu].
  assert (0 < IZR (Zceil d)) by lra.
  apply lt_0_IZR in H. lia.
Qed.

Lemma threadPotential_mean (canvas : ISize) (data : list Z) (p1 p2 : IPeg) :
  0 < euclidean_distance p1 p2 ->
  threadPotential canvas data p1 p2 = Num (mean_contribution canvas data p1 p2).
Proof.
  intros Hd. unfold threadPotential, mean_contribution.
  rewrite distance_sqrt. unfold Math_ceil.
  set (N := Zceil (euclidean_distance p1 p2)).
  assert (HN : (1 <= N)%Z) by (apply ceil_pos; exact Hd).
  replace (N =? 0)%Z with false by (symmetry; apply Z.eqb_neq; lia).
  f_equal.
  assert (HNR : IZR N = INR (Z.to_nat N)) by (rewrite INR_IZR_INZ, Z2Nat.id; [reflexivity|lia]).
  rewrite <- HNR. f_equal.
  unfold for_loop. rewrite Z.sub_0_r.
  rewrite (for_range_ext _
             (fun i a => a + contribution_spec
                               (sampleCanvasData canvas data
                                  (interior_point p1 p2 (Z.to_nat N) (Z.to_nat i))))).
  - change 0%Z with (Z.of_nat 0). rewrite for_range_sum. rewrite Rplus_0_l.
    f_equal. apply map_ext. intros j. now rewrite Nat2Z.id.
  - intros i a Hi. unfold potential_step, contribution_spec, LINE_OPACITY.
    do 4 f_equal. unfold interior_point. rewrite <- HNR.
    replace (INR (Z.to_nat i)) with (IZR i)
      by (rewrite INR_IZR_INZ, Z2Nat.id; [reflexivity|lia]).
    f_equal; unfold Rdiv; ring.
Qed.

(** C1. For two pegs at a distance [d > 0], [computeThreadPotential] returns
    the mean, over the [N = ceil d] points [p1 + (p2 - p1) * (i + 1) / (N + 1)],
    [0 <= i < N], of [127 - (v + 0.5 * LINE_OPACITY * 255)], where [v] is the
    value [sampleCanvasData] interpolates there on the CPU copy of the canvas
    and [LINE_OPACITY = 0.512 / 8]; its only effect is the upload of that
    copy. *)
Theorem computeThreadPotential_is_mean_contribution (w : World) (p1 p2 : IPeg) :
  0 < euclidean_distance p1 p2 ->
  LINE_OPACITY = 0.512 / 8 /\
  exists w',
    uploadCanvasDataToCPU w = Normal tt w' /\
    hiddenCanvasData (this w') = Some (uploaded (this w)) /\
    computeThreadPotential p1 p2 w
    = Normal (Num (mean_contribution (hiddenCanvas (this w)) (uploaded (this w)) p1 p2)) w'.
Proof.
  intros Hd. split; [reflexivity|].
  eexists. split; [reflexivity|].
  unfold computeThreadPotential, uploadCanvasDataToCPU, upload, bind, modify, get, uploaded.
  destruct w as [t c r]; simpl.
  destruct (hiddenCanvasData t) as [data|] eqn:E; simpl; rewrite ?E.
  - split; [reflexivity|]. unfold ret. now rewrite threadPotential_mean.
  - split; [reflexivity|]. unfold ret. now rewrite threadPotential_mean.
Qed.

(** ** The monad *)

Lemma bind_Normal {A B : Type} (m : M A) (k : A -> M B) (w w1 : World) (a : A) :
  m w = Normal a w1 -> bind m k w = k a w1.
Proof. intros H. unfold bind. now rewrite H. Qed.

Lemma bind_TypeError {A B : Type} (m : M A) (k : A -> M B) (w w1 : World) :
  m w = TypeError w1 -> bind m k w = TypeError w1.
Proof. intros H. unfold bind. now rewrite H. Qed.

Lemma same_but_cache_refl (t : ThreadComputer) : same_but_cache t t.
Proof. now destruct t. Qed.

Lemma same_but_cache_trans (t1 t2 t3 : ThreadComputer) :
  same_but_cache t1 t2 -> same_but_cache t2 t3 -> same_but_cache t1 t3.
Proof.
  unfold same_but_cache. intros H12 H23. rewrite H23 at 1. rewrite H12 at 1.
  reflexivity.
Qed.

Lemma same_but_cache_fields (t t' : ThreadComputer) :
  same_but_cache t t' ->
  threadPegs t' = threadPegs t /\ pegs t' = pegs t /\
  targetNbSegments t' = targetNbSegments t /\ hiddenCanvas t' = hiddenCanvas t /\
  arePegsTooClose t' = arePegsTooClose t /\ nbSegments t' = nbSegments t.
Proof.
  intros H. unfold nbSegments. rewrite H. simpl. repeat split; reflexivity.
Qed.

(** A loop whose body always returns and keeps a preorder on the worlds does
    so too. *)
Lemma forEach_returns {A B : Type} (Rw : World -> World -> Prop)
      (body : A -> B -> M B) (l : list A) :
  (forall w, Rw w w) ->
  (forall w1 w2 w3, Rw w1 w2 -> Rw w2 w3 -> Rw w1 w3) ->
  (forall a acc w, exists acc' w', body a acc w = Normal acc' w' /\ Rw w w') ->
  forall acc w, exists acc' w', forEach l body acc w = Normal acc' w' /\ Rw w w'.
Proof.
  intros Hrefl Htrans Hbody. induction l as [|a l IH]; intros acc w; simpl.
  - exists acc, w. split; [reflexivity|apply Hrefl].
  - destruct (Hbody a acc w) as (acc1 & w1 & E1 & R1).
    destruct (IH acc1 w1) as (acc2 & w2 & E2 & R2).
    exists acc2, w2. split; [|eapply Htrans; eassumption].
    rewrite (bind_Normal _ _ _ _ _ E1). exact E2.
Qed.

(** ** The searches only touch the CPU copy *)

Lemma searched_refl (w : World) : searched w w.
Proof. apply same_but_cache_refl. Qed.

Lemma searched_trans (w1 w2 w3 : World) :
  searched w1 w2 -> searched w2 w3 -> searched w1 w3.
Proof. apply same_but_cache_trans. Qed.

Lemma computeThreadPotential_returns (p1 p2 : IPeg) (w : World) :
  exists v w', computeThreadPotential p1 p2 w = Normal v w' /\ searched w w'.
Proof.
  unfold computeThreadPotential, uploadCanvasDataToCPU, upload, bind, modify, get, searched.
  destruct w as [t c r]; simpl.
  destruct (hiddenCanvasData t) as [data|] eqn:E; simpl; rewrite ?E.
  - eexists _, _. split; [reflexivity|]. apply same_but_cache_refl.
  - eexists _, _. split; [reflexivity|]. reflexivity.
Qed.

Lemma tryCandidate_returns {T : Type} (p1 p2 : IPeg) (item : T) (acc : list T * R)
      (w : World) :
  exists acc' w', tryCandidate p1 p2 item acc w = Normal acc' w' /\ searched w w'.
Proof.
  unfold tryCandidate. unfold get at 1. unfold bind at 1.
  destruct (negb (arePegsTooClose (this w) p1 p2)).
  - destruct (computeThreadPotential_returns p1 p2 w) as (v & w' & E & Hs).
    exists (consider v item acc), w'. split; [|exact Hs].
    now rewrite (bind_Normal _ _ _ _ _ E).
  - exists acc, w. split; [reflexivity|apply searched_refl].
Qed.

Lemma startingLoop_returns (l : list IPeg) :
  forall acc w, exists acc' w', startingLoop l acc w = Normal acc' w' /\ searched w w'.
Proof.
  induction l as [|p1 rest IH]; intros acc w; simpl.
  - exists acc, w. split; [reflexivity|apply searched_refl].
  - destruct (forEach_returns searched
                (fun p2 acc => tryCandidate p1 p2 {| peg1 := p1; peg2 := p2 |} acc) rest
                searched_refl searched_trans
                (fun a acc w => tryCandidate_returns p1 a _ acc w) acc w)
      as (acc1 & w1 & E1 & R1).
    destruct (IH acc1 w1) as (acc2 & w2 & E2 & R2).
    exists acc2, w2. split; [|eapply searched_trans; eassumption].
    rewrite (bind_Normal _ _ _ _ _ E1). exact E2.
Qed.

Section PlannerFacts.
Variable drawImage : HTMLImageElement -> ISize -> list Z.
Variable strokeLine : HTMLCanvasElement -> R -> IPoint -> IPoint -> list Z.
Variable performance_now : nat -> R.
Variable Math_random : nat -> R.

Local Abbreviation randomItem' := (randomItem Math_random).
Local Abbreviation computeBestStartingThread' := (computeBestStartingThread Math_random).
Local Abbreviation computeBestNextPeg' := (computeBestNextPeg Math_random).
Local Abbreviation chooseThread' := (chooseThread Math_random).
Local Abbreviation drawThreadOnHiddenCanvas' := (drawThreadOnHiddenCanvas strokeLine).
Local Abbreviation computeThread' := (computeThread strokeLine Math_random).
Local Abbreviation reset' := (reset drawImage).
Local Abbreviation growLoop' := (growLoop strokeLine performance_now Math_random).
Local Abbreviation computeNextThreads' :=
  (computeNextThreads drawImage strokeLine performance_now Math_random).
Local Abbreviation reachable' := (reachable drawImage strokeLine performance_now Math_random).

Lemma randomItem_returns {T : Type} (l : list T) (w : World) :
  exists r w', randomItem' l w = Normal r w' /\ this w' = this w /\
               (l = [] -> r = None).
Proof.
  unfold randomItem. destruct l as [|a l]; simpl.
  - exists None, w. repeat split; reflexivity.
  - eexists _, _. split; [reflexivity|]. split; [reflexivity|discriminate].
Qed.

Lemma computeBestStartingThread_returns (w : World) :
  exists r w', computeBestStartingThread' w = Normal r w' /\ searched w w'.
Proof.
  unfold computeBestStartingThread. unfold get at 1. unfold bind at 1.
  destruct (startingLoop_returns (pegs (this w)) ([], MIN_SAFE_NUMBER) w)
    as (acc & w1 & E1 & R1).
  rewrite (bind_Normal _ _ _ _ _ E1).
  destruct (randomItem_returns (fst acc) w1) as (r & w2 & E2 & Ht & _).
  exists r, w2. split; [exact E2|]. unfold searched in *. now rewrite Ht.
Qed.

(** From a peg, [computeBestNextPeg] returns; from [null] it returns [null]
    when there is no peg and throws at the first peg otherwise. *)
Lemma computeBestNextPeg_ends (current : option IPeg) (w : World) :
  exists w', searched w w' /\
    ((exists r, computeBestNextPeg' current w = Normal r w')
     \/ (current = None /\ computeBestNextPeg' current w = TypeError w')).
Proof.
  unfold computeBestNextPeg. unfold get at 1. unfold bind at 1.
  destruct current as [c|].
  - destruct (forEach_returns searched
                (fun peg acc => tryCandidate c peg peg acc) (pegs (this w))
                searched_refl searched_trans
                (fun a acc w => tryCandidate_returns c a a acc w) ([], MIN_SAFE_NUMBER) w)
      as (acc & w1 & E1 & R1).
    destruct (randomItem_returns (fst acc) w1) as (r & w2 & E2 & Ht & _).
    exists w2. split; [unfold searched in *; now rewrite Ht|].
    left. exists r. rewrite (bind_Normal _ _ _ _ _ E1). exact E2.
  - exists w. split; [apply searched_refl|].
    unfold bind, get. cbn beta iota.
    destruct (pegs (this w)) as [|p l]; [left; exists None|right; split]; reflexivity.
Qed.

(** What a planning step that returns has done to the path: from the empty
    path it appends the two pegs of the best starting thread, otherwise one
    peg after the last one; the target and the pegs are untouched and the CPU
    copy is discarded. *)
Lemma computeThread_Normal (w w' : World) :
  computeThread' w = Normal tt w' ->
  targetNbSegments (this w') = targetNbSegments (this w) /\
  pegs (this w') = pegs (this w) /\
  hiddenCanvasData (this w') = None /\
  ((threadPegs (this w) = [] /\
    exists st w1, computeBestStartingThread' w = Normal (Some st) w1 /\
                  threadPegs (this w') = [Some (peg1 st); Some (peg2 st)])
   \/ (threadPegs (this w) <> [] /\
       exists p, threadPegs (this w') = threadPegs (this w) ++ [Some p])).
Proof.
  unfold computeThread, chooseThread. unfold get at 1. unfold bind at 1 2.
  cbn beta iota.
  destruct (threadPegs (this w)) as [|q l] eqn:Epath.
  - cbn [length Nat.eqb].
    destruct (computeBestStartingThread_returns w) as (r & w1 & E1 & R1).
    destruct (same_but_cache_fields _ _ R1) as (Hp & Hg & Ht & _).
    rewrite (bind_Normal _ _ _ _ _ E1).
    destruct r as [st|]; [|discriminate].
    unfold push, drawThreadOnHiddenCanvas, bind, modify, ret. cbn.
    intros H. injection H as <-. cbn. rewrite Hp, Hg, Ht, Epath.
    repeat split; try reflexivity.
    left. split; [reflexivity|]. exists st, w1. split; [exact E1|reflexivity].
  - cbn [length Nat.eqb].
    destruct (computeBestNextPeg_ends (last (q :: l) None) w)
      as (w1 & R1 & [[r E1]|[Hnone E1]]).
    + destruct (same_but_cache_fields _ _ R1) as (Hp & Hg & Ht & _).
      rewrite (bind_Normal _ _ _ _ _ E1).
      unfold push, drawThreadOnHiddenCanvas, bind, modify, ret. cbn beta iota.
      destruct (last (q :: l) None) as [a|]; [|discriminate].
      destruct r as [b|]; [|discriminate].
      intros H. injection H as <-. cbn. rewrite Hp, Hg, Ht, Epath.
      repeat split; try reflexivity.
      right. split; [discriminate|]. exists b. reflexivity.
    + rewrite (bind_TypeError _ _ _ _ E1). discriminate.
Qed.

(** What a planning step that throws has done to the path: nothing, or, after
    a non-empty path, it has appended the [null] or the peg it then failed to
    draw to. *)
Lemma computeThread_TypeError (w w' : World) :
  computeThread' w = TypeError w' ->
  targetNbSegments (this w') = targetNbSegments (this w) /\
  (threadPegs (this w') = threadPegs (this w)
   \/ (threadPegs (this w) <> [] /\
       exists q, threadPegs (this w') = threadPegs (this w) ++ [q])).
Proof.
  unfold computeThread, chooseThread. unfold get at 1. unfold bind at 1 2.
  cbn beta iota.
  destruct (threadPegs (this w)) as [|q l] eqn:Epath.
  - cbn [length Nat.eqb].
    destruct (computeBestStartingThread_returns w) as (r & w1 & E1 & R1).
    destruct (same_but_cache_fields _ _ R1) as (Hp & Hg & Ht & _).
    rewrite (bind_Normal _ _ _ _ _ E1).
    destruct r as [st|].
    + unfold push, drawThreadOnHiddenCanvas, bind, modify, ret. cbn. discriminate.
    + unfold throw. intros H. injection H as <-. rewrite Ht, Hp, Epath. now split; [|left].
  - cbn [length Nat.eqb].
    destruct (computeBestNextPeg_ends (last (q :: l) None) w)
      as (w1 & R1 & [[r E1]|[Hnone E1]]);
      destruct (same_but_cache_fields _ _ R1) as (Hp & Hg & Ht & _).
    + rewrite (bind_Normal _ _ _ _ _ E1).
      unfold push, drawThreadOnHiddenCanvas, bind, modify, ret, throw. cbn beta iota.
      destruct (last (q :: l) None) as [a|]; [destruct r as [b|]; [discriminate|]|];
        intros H; injection H as <-; cbn; rewrite Hp, Ht, Epath;
        (split; [reflexivity|]); right; (split; [discriminate|]); eexists; reflexivity.
    + rewrite (bind_TypeError _ _ _ _ E1). intros H. injection H as <-.
      rewrite Ht, Hp, Epath. now split; [|left].
Qed.

Lemma nbSegments_length (t : ThreadComputer) :
  nbSegments t = Z.max 0 (Z.of_nat (length (threadPegs t)) - 1).
Proof. unfold nbSegments. destruct (Z.gtb_spec (Z.of_nat (length (threadPegs t))) 1); lia. Qed.

Lemma computeThread_nbSegments (w w' : World) :
  computeThread' w = Normal tt w' ->
  nbSegments (this w') = (nbSegments (this w) + 1)%Z /\
  path_length w' = (if (path_length w =? 0)%nat then 2%nat else S (path_length w)).
Proof.
  intros H. destruct (computeThread_Normal _ _ H) as (_ & _ & _ & Hpath).
  rewrite !nbSegments_length. unfold path_length.
  destruct Hpath as [[E0 (st & w1 & _ & E1)]|[Hne (p & E1)]]; rewrite E1.
  - rewrite E0. cbn. split; [lia|reflexivity].
  - rewrite length_app. cbn [length].
    destruct (threadPegs (this w)) as [|q l]; [contradiction|]. cbn [length Nat.eqb].
    split; lia.
Qed.

Lemma growLoop_S (fuel : nat) (start maxMs : R) (w : World) :
  growLoop' (S fuel) start maxMs w =
  if (nbSegments (this w) <? targetNbSegments (this w))%Z then
    if Rltb (performance_now (clock_reads w) - start) maxMs then
      (computeThread' ;;; growLoop' fuel start maxMs) (tick w)
    else Normal tt (tick w)
  else Normal tt w.
Proof.
  cbn [growLoop]. unfold get at 1. unfold bind at 1.
  destruct (nbSegments (this w) <? targetNbSegments (this w))%Z; [|reflexivity].
  unfold now at 1. unfold bind at 1. fold (tick w).
  destruct (Rltb _ _); reflexivity.
Qed.

(** [targetNbSegments - nbSegments] turns of the loop are enough: more fuel
    does not change what the loop does. *)
Lemma growLoop_fuel (start maxMs : R) (fuel : nat) :
  forall w, (targetNbSegments (this w) - nbSegments (this w) <= Z.of_nat fuel)%Z ->
            growLoop' (S fuel) start maxMs w = growLoop' fuel start maxMs w.
Proof.
  induction fuel as [|fuel IH]; intros w Hw.
  - rewrite growLoop_S.
    replace (nbSegments (this w) <? targetNbSegments (this w))%Z with false
      by (symmetry; apply Z.ltb_ge; lia).
    reflexivity.
  - rewrite (growLoop_S (S fuel)), (growLoop_S fuel).
    destruct (Z.ltb_spec (nbSegments (this w)) (targetNbSegments (this w))); [|reflexivity].
    destruct (Rltb _ _); [|reflexivity].
    unfold bind. destruct (computeThread' (tick w)) as [[] w1|w1] eqn:E; [|reflexivity].
    apply IH. destruct (computeThread_nbSegments _ _ E) as [Hn _].
    destruct (computeThread_Normal _ _ E) as (Ht & _).
    rewrite Hn, Ht. cbn [tick this]. lia.
Qed.

Lemma growLoop_enough (start maxMs : R) (fuel extra : nat) (w : World) :
  (targetNbSegments (this w) - nbSegments (this w) <= Z.of_nat fuel)%Z ->
  growLoop' (fuel + extra) start maxMs w = growLoop' fuel start maxMs w.
Proof.
  intros H. induction extra as [|extra IH]; [now rewrite Nat.add_0_r|].
  rewrite Nat.add_succ_r, growLoop_fuel by lia. exact IH.
Qed.

(** A path that is not of length one stays so through the loop, whether the
    loop returns or throws. *)
Lemma growLoop_path (start maxMs : R) (fuel : nat) :
  forall w w', (growLoop' fuel start maxMs w = Normal tt w'
                \/ growLoop' fuel start maxMs w = TypeError w') ->
               path_length w <> 1%nat -> path_length w' <> 1%nat.
Proof.
  induction fuel as [|fuel IH]; intros w w' H Hw.
  - cbn in H. unfold ret in H. destruct H as [H|H]; [|discriminate].
    injection H as <-. exact Hw.
  - rewrite growLoop_S in H.
    destruct (nbSegments (this w) <? targetNbSegments (this w))%Z.
    + destruct (Rltb _ _).
      * unfold bind in H.
        destruct (computeThread' (tick w)) as [[] w1|w1] eqn:E.
        -- apply (IH w1 w' H).
           destruct (computeThread_nbSegments _ _ E) as [_ Hl]. rewrite Hl.
           destruct (path_length (tick w) =? 0)%nat eqn:E0; [discriminate|].
           apply Nat.eqb_neq in E0. lia.
        -- destruct H as [H|H]; [discriminate|]. injection H as <-.
           destruct (computeThread_TypeError _ _ E) as (_ & [Hp|[Hne (q & Hp)]]);
             unfold path_length in *; rewrite Hp; [exact Hw|].
           rewrite length_app. cbn [length tick this] in *.
           destruct (threadPegs (this w)); [contradiction|cbn [length] in *; lia].
      * destruct H as [H|H]; [|discriminate]. injection H as <-. exact Hw.
    + destruct H as [H|H]; [|discriminate]. injection H as <-. exact Hw.
Qed.

Lemma reset_Normal (P : ParametersT) (w : World) :
  exists w', reset' P w = Normal tt w' /\
    threadPegs (this w') = [] /\
    nbSegments (this w') = 0%Z /\
    targetNbSegments (this w') = Parameters_nbLines P /\
    pegsShape (this w') = Parameters_shape P /\
    pegsSpacing (this w') = Parameters_pegsSpacing P /\
    pegs (this w') = snd (computePegs (hiddenCanvas (this w)) (Parameters_shape P)
                            (Parameters_pegsSpacing P)) /\
    arePegsTooClose (this w') = fst (computePegs (hiddenCanvas (this w)) (Parameters_shape P)
                                       (Parameters_pegsSpacing P)) /\
    hiddenCanvas (this w') = freshCanvas drawImage (Parameters_invertColors P)
                               (sourceImage (this w)) /\
    clock_reads w' = clock_reads w /\ random_reads w' = random_reads w.
Proof.
  eexists. split; [reflexivity|]. cbn. repeat split; reflexivity.
Qed.

(** [computeNextThreads], its first lines run. *)
Lemma computeNextThreads_unfold (P : ParametersT) (maxMs : R) (w : World) :
  computeNextThreads' P maxMs w =
  grow strokeLine performance_now Math_random (performance_now (clock_reads w)) maxMs
    (with_this
       (set_targetNbSegments (Parameters_nbLines P)
          (this (if (nbSegments (this w) >? Parameters_nbLines P)%Z
                 then match reset' P (tick w) with
                      | Normal _ w' => w'
                      | TypeError w' => w'
                      end
                 else tick w)))
       (tick w)).
Proof.
  unfold computeNextThreads. unfold now at 1. unfold bind at 1. fold (tick w).
  unfold get at 1. unfold bind at 1. cbn [tick this].
  destruct (nbSegments (this w) >? Parameters_nbLines P)%Z; reflexivity.
Qed.

Lemma computeNextThreads_path (P : ParametersT) (maxMs : R) (w w' : World) :
  ((exists done, computeNextThreads' P maxMs w = Normal done w')
   \/ computeNextThreads' P maxMs w = TypeError w') ->
  path_length w <> 1%nat -> path_length w' <> 1%nat.
Proof.
  rewrite computeNextThreads_unfold. set (v := with_this _ _). intros H Hw.
  assert (Hv : path_length v <> 1%nat).
  { unfold v, path_length. cbn [with_this this set_targetNbSegments threadPegs].
    destruct (nbSegments (this w) >? Parameters_nbLines P)%Z; [cbn; lia|exact Hw]. }
  unfold grow, bind, get, ret in H.
  match type of H with
  | context [growLoop' ?f ?s ?m v] =>
      pose proof (growLoop_path s m f v) as Hloop;
      destruct (growLoop' f s m v) as [[] w1|w1]
  end.
  - destruct H as [[done H]|H]; [|discriminate].
    injection H as _ <-. apply Hloop; [now left|exact Hv].
  - destruct H as [[done H]|H]; [discriminate|].
    injection H as <-. apply Hloop; [now right|exact Hv].
Qed.

(** C3, as the code has it.  A planning step that returns adds exactly one
    segment; it adds one peg to a path that is not empty, and the two pegs of
    the starting thread to the empty path. *)
Theorem computeThread_adds_one_segment (w w' : World) :
  computeThread' w = Normal tt w' ->
  nbSegments (this w') = (nbSegments (this w) + 1)%Z /\
  (path_length w <> 0%nat -> path_length w' = S (path_length w)) /\
  (path_length w = 0%nat -> path_length w' = 2%nat).
Proof.
  intros H. destruct (computeThread_nbSegments _ _ H) as [Hn Hl].
  split; [exact Hn|]. rewrite Hl.
  split; intros H0.
  - apply Nat.eqb_neq in H0. now rewrite H0.
  - now rewrite H0.
Qed.

Lemma set_targetNbSegments_same (t : ThreadComputer) :
  set_targetNbSegments (targetNbSegments t) t = t.
Proof. now destruct t. Qed.

(** At the configured target the call reads the clock, stores the target and
    returns [true]. *)
Lemma computeNextThreads_at_target_result (P : ParametersT) (maxMs : R) (w : World) :
  nbSegments (this w) = Parameters_nbLines P ->
  computeNextThreads' P maxMs w
  = Normal true (with_this (set_targetNbSegments (Parameters_nbLines P) (this w)) (tick w)).
Proof.
  intros H. rewrite computeNextThreads_unfold.
  replace (nbSegments (this w) >? Parameters_nbLines P)%Z with false
    by (symmetry; rewrite Z.gtb_ltb; apply Z.ltb_ge; lia).
  unfold grow, get, bind, ret.
  cbn [with_this this tick set_targetNbSegments targetNbSegments].
  change (nbSegments (set_targetNbSegments (Parameters_nbLines P) (this w)))
    with (nbSegments (this w)).
  rewrite H, Z.sub_diag. cbn [Z.to_nat growLoop]. unfold ret.
  cbn [this with_this].
  change (nbSegments (set_targetNbSegments (Parameters_nbLines P) (this w)))
    with (nbSegments (this w)).
  cbn [set_targetNbSegments targetNbSegments]. rewrite H.
  replace (Parameters_nbLines P >=? Parameters_nbLines P)%Z with true
    by (symmetry; apply Z.geb_le; lia).
  reflexivity.
Qed.

(** C7, as the code has it.  Called with the segment count equal to the
    configured target, [computeNextThreads] returns [true] after one reading
    of the clock, whatever the budget: no planning step, no random draw, the
    path, the pegs, the canvas and its CPU copy as they were.  The one field
    it writes is [targetNbSegments], set to the configured target; when it
    already had that value the planner is unchanged. *)
Theorem computeNextThreads_at_target (P : ParametersT) (maxMs : R) (w : World) :
  nbSegments (this w) = Parameters_nbLines P ->
  exists w',
    computeNextThreads' P maxMs w = Normal true w' /\
    this w' = set_targetNbSegments (Parameters_nbLines P) (this w) /\
    threadPegs (this w') = threadPegs (this w) /\
    pegs (this w') = pegs (this w) /\
    hiddenCanvas (this w') = hiddenCanvas (this w) /\
    hiddenCanvasData (this w') = hiddenCanvasData (this w) /\
    clock_reads w' = S (clock_reads w) /\
    random_reads w' = random_reads w /\
    (targetNbSegments (this w) = Parameters_nbLines P -> this w' = this w).
Proof.
  intros H. eexists. split; [now apply computeNextThreads_at_target_result|].
  cbn. repeat split; try reflexivity.
  intros <-. apply set_targetNbSegments_same.
Qed.

(** C8.  Called with more segments than the configured target,
    [computeNextThreads] first runs [reset]: the path is emptied (no segment
    left), the pegs are rebuilt for the configured shape and spacing, the
    canvas is drawn afresh from the source image; the loop then grows the
    path from that state towards the configured target. *)
Theorem computeNextThreads_resets_when_over_target (P : ParametersT) (maxMs : R) (w : World) :
  (nbSegments (this w) > Parameters_nbLines P)%Z ->
  exists w0,
    reset' P (tick w) = Normal tt w0 /\
    threadPegs (this w0) = [] /\
    nbSegments (this w0) = 0%Z /\
    (arePegsTooClose (this w0), pegs (this w0))
    = computePegs (hiddenCanvas (this w)) (Parameters_shape P) (Parameters_pegsSpacing P) /\
    hiddenCanvas (this w0)
    = freshCanvas drawImage (Parameters_invertColors P) (sourceImage (this w)) /\
    targetNbSegments (this w0) = Parameters_nbLines P /\
    computeNextThreads' P maxMs w
    = grow strokeLine performance_now Math_random (performance_now (clock_reads w)) maxMs w0.
Proof.
  intros H.
  destruct (reset_Normal P (tick w))
    as (w0 & E & Hpath & Hn & Ht & _ & _ & Hpegs & Hclose & Hcanvas & Hc & Hr).
  exists w0. repeat split; try assumption.
  - rewrite Hpegs, Hclose. cbn [tick this]. now destruct (computePegs _ _ _).
  - rewrite computeNextThreads_unfold.
    replace (nbSegments (this w) >? Parameters_nbLines P)%Z with true
      by (symmetry; rewrite Z.gtb_ltb; apply Z.ltb_lt; lia).
    rewrite E. f_equal. destruct w0 as [t0 c0 r0]. unfold with_this.
    cbn [this clock_reads random_reads tick] in *. subst c0 r0. f_equal.
    rewrite <- Ht. now destruct t0.
Qed.

(** C10.  Between two calls of the public methods the path never has exactly
    one peg.  It is empty after the constructor and after [reset]; a planning
    step that returns appends the two pegs of the best starting thread to the
    empty path, and one peg to a path of two pegs or more. *)
Theorem path_length_never_one (w : World) :
  reachable' w ->
  path_length w <> 1%nat /\
  (forall P image shape spacing,
      threadPegs (constructor drawImage P image shape spacing) = []) /\
  (forall P w', reset' P w = Normal tt w' -> path_length w' = 0%nat) /\
  (forall w', computeThread' w = Normal tt w' ->
              (path_length w = 0%nat /\
               exists st w1, computeBestStartingThread' w = Normal (Some st) w1 /\
                             threadPegs (this w') = [Some (peg1 st); Some (peg2 st)])
              \/ ((2 <= path_length w)%nat /\
                  exists p, threadPegs (this w') = threadPegs (this w) ++ [Some p])).
Proof.
  intros Hreach.
  assert (Hinv : path_length w <> 1%nat).
  { induction Hreach as [P image shape spacing clock rnd
                        |P w w' _ _ E|P maxMs w done w' _ IH E|P maxMs w w' _ IH E
                        |v w _ IH|w clock rnd _ IH].
    - cbn. lia.
    - destruct (reset_Normal P w) as (w0 & E0 & Hp & _). rewrite E0 in E.
      injection E as <-. unfold path_length. rewrite Hp. cbn. lia.
    - apply (computeNextThreads_path P maxMs w w'); [left; now exists done|exact IH].
    - apply (computeNextThreads_path P maxMs w w'); [now right|exact IH].
    - exact IH.
    - exact IH. }
  split; [exact Hinv|]. split; [reflexivity|]. split.
  - intros P w' E. destruct (reset_Normal P w) as (w0 & E0 & Hp & _). rewrite E0 in E.
    injection E as <-. unfold path_length. now rewrite Hp.
  - intros w' E. destruct (computeThread_Normal _ _ E) as (_ & _ & _ & [[E0 Hst]|[Hne Hp]]).
    + left. split; [unfold path_length; now rewrite E0|exact Hst].
    + right. split; [|exact Hp]. unfold path_length in *.
      destruct (threadPegs (this w)) as [|a [|b l]]; cbn in *; [contradiction|lia|lia].
Qed.

End PlannerFacts.

(** ** Comparisons *)

Lemma Reqb_true_iff (a b : R) : Reqb a b = true <-> a = b.
Proof. unfold Reqb. destruct (Req_dec_T a b); split; congruence. Qed.

Lemma Rleb_true_iff (a b : R) : Rleb a b = true <-> a <= b.
Proof. unfold Rleb. destruct (Rle_dec a b); split; congruence. Qed.

Lemma Rltb_true_iff (a b : R) : Rltb a b = true <-> a < b.
Proof. unfold Rltb. destruct (Rlt_dec a b); split; congruence. Qed.

Lemma Reqb_sym (a b : R) : Reqb a b = Reqb b a.
Proof. unfold Reqb. destruct (Req_dec_T a b), (Req_dec_T b a); congruence. Qed.

(** ** Loops that push *)

Lemma Zseq_S (lo : Z) (n : nat) : Zseq lo (S n) = lo :: Zseq (lo + 1) n.
Proof.
  unfold Zseq. cbn [seq map]. f_equal; [lia|].
  rewrite <- seq_shift, map_map. apply map_ext. intros k. lia.
Qed.

Lemma In_Zseq (lo : Z) (n : nat) (i : Z) :
  In i (Zseq lo n) <-> (lo <= i < lo + Z.of_nat n)%Z.
Proof.
  unfold Zseq. rewrite in_map_iff. split.
  - intros (k & <- & Hk). apply in_seq in Hk. lia.
  - intros Hi. exists (Z.to_nat (i - lo)). split; [lia|]. apply in_seq. lia.
Qed.

Lemma length_Zseq (lo : Z) (n : nat) : length (Zseq lo n) = n.
Proof. unfold Zseq. now rewrite length_map, length_seq. Qed.

Lemma for_range_push {A : Type} (f : Z -> list A) (n : nat) :
  forall (lo : Z) (acc : list A),
    for_range lo n (fun i acc => acc ++ f i) acc = acc ++ flat_map f (Zseq lo n).
Proof.
  induction n as [|n IH]; intros lo acc.
  - cbn. now rewrite app_nil_r.
  - cbn [for_range]. rewrite IH, Zseq_S. cbn [flat_map]. now rewrite app_assoc.
Qed.

Lemma for_range_push2 {A : Type} (f g : Z -> A) (n : nat) (lo : Z) (acc : list A) :
  for_range lo n (fun i acc => (acc ++ [f i]) ++ [g i]) acc
  = acc ++ flat_map (fun i => [f i; g i]) (Zseq lo n).
Proof.
  rewrite <- for_range_push. apply for_range_ext. intros i a _.
  now rewrite <- app_assoc.
Qed.

Lemma length_flat_map_const {A B : Type} (f : A -> list B) (k : nat) (l : list A) :
  (forall a, length (f a) = k) -> length (flat_map f l) = (k * length l)%nat.
Proof.
  intros H. induction l as [|a l IH]; cbn; [lia|].
  rewrite length_app, H, IH. lia.
Qed.

(** ** The layouts as lists *)

Lemma rectangle_pegs_eq (domainSize : ISize) (spacing : R) :
  let maxX := IZR (width domainSize - 1) in
  let maxY := IZR (height domainSize - 1) in
  let nW := Math_ceil (IZR (width domainSize) / spacing) in
  let nH := Math_ceil (IZR (height domainSize) / spacing) in
  rectangle_pegs domainSize spacing =
  [rectangle_peg 0 0; rectangle_peg maxX 0; rectangle_peg maxX maxY; rectangle_peg 0 maxY]
  ++ flat_map (fun iW => [rectangle_peg (maxX * (IZR iW / IZR nW)) 0;
                          rectangle_peg (maxX * (IZR iW / IZR nW)) maxY])
              (Zseq 1 (Z.to_nat (nW - 1)))
  ++ flat_map (fun iH => [rectangle_peg 0 (maxY * (IZR iH / IZR nH));
                          rectangle_peg maxX (maxY * (IZR iH / IZR nH))])
              (Zseq 1 (Z.to_nat (nH - 1))).
Proof.
  intros maxX maxY nW nH. unfold rectangle_pegs, for_loop.
  fold maxX maxY nW nH.
  rewrite !for_range_push2. now rewrite <- app_assoc.
Qed.

Lemma circle_pegs_eq (domainSize : ISize) (spacing : R) :
  let nbPegs := circle_nbPegs domainSize spacing in
  circle_pegs domainSize spacing =
  map (fun iPeg => circle_peg domainSize (IZR iPeg * (TWO_PI / IZR nbPegs)))
      (Zseq 0 (Z.to_nat nbPegs)).
Proof.
  intros nbPegs. unfold circle_pegs, for_loop. fold nbPegs.
  rewrite for_range_push, Z.sub_0_r. cbn [app].
  induction (Zseq 0 (Z.to_nat nbPegs)) as [|i l IH]; cbn; [reflexivity|now rewrite IH].
Qed.

Lemma In_circle_pegs (domainSize : ISize) (spacing : R) (p : IPeg) :
  In p (circle_pegs domainSize spacing) <->
  exists i, (0 <= i < circle_nbPegs domainSize spacing)%Z /\
            p = circle_peg domainSize
                  (IZR i * (TWO_PI / IZR (circle_nbPegs domainSize spacing))).
Proof.
  rewrite circle_pegs_eq, in_map_iff. split.
  - intros (i & <- & Hi). apply In_Zseq in Hi. exists i. split; [lia|reflexivity].
  - intros (i & Hi & ->). exists i. split; [reflexivity|]. apply In_Zseq. lia.
Qed.

(** ** Proximity predicates *)

Lemma rectangle_tooClose_iff (a b : IPeg) :
  arePegsTooClose_rectangle a b = true <-> (x a = x b \/ y a = y b).
Proof.
  unfold arePegsTooClose_rectangle. now rewrite orb_true_iff, !Reqb_true_iff.
Qed.

Lemma circle_tooClose_iff (a b : IPeg) (ta tb : R) :
  angle a = Some ta -> angle b = Some tb ->
  arePegsTooClose_circle a b = true
  <-> Rmin (Rabs (ta - tb)) (2 * PI - Rabs (ta - tb)) <= PI / 8.
Proof.
  intros Ha Hb. unfold arePegsTooClose_circle. rewrite Ha, Hb, Rleb_true_iff.
  unfold Math_min, Math_abs, TWO_PI, Math_PI.
  replace (2 * PI / 16) with (PI / 8) by lra. reflexivity.
Qed.

(** C9.  On the pegs of a layout the proximity predicate of either shape is
    symmetric and holds of a peg with itself.  For a rectangle it holds
    exactly when the two pegs have the same [x] or the same [y]; for a circle
    exactly when the angular distance [min(|d|, 2 pi - |d|)] of their angles
    is at most [pi / 8]. *)
Theorem arePegsTooClose_symmetric_reflexive
        (domainSize : ISize) (shape : EShape) (spacing : R) (a b : IPeg) :
  In a (snd (computePegs domainSize shape spacing)) ->
  In b (snd (computePegs domainSize shape spacing)) ->
  let tooClose := fst (computePegs domainSize shape spacing) in
  tooClose a b = tooClose b a /\
  tooClose a a = true /\
  match shape with
  | RECTANGLE => tooClose a b = true <-> (x a = x b \/ y a = y b)
  | CIRCLE =>
      exists ta tb, angle a = Some ta /\ angle b = Some tb /\
        (tooClose a b = true
         <-> Rmin (Rabs (ta - tb)) (2 * PI - Rabs (ta - tb)) <= PI / 8)
  end.
Proof.
  destruct shape; cbn [computePegs fst snd]; intros Ha Hb.
  - split; [|split].
    + unfold arePegsTooClose_rectangle.
      now rewrite (Reqb_sym (x a)), (Reqb_sym (y a)).
    + apply rectangle_tooClose_iff. now left.
    + apply rectangle_tooClose_iff.
  - apply In_circle_pegs in Ha, Hb.
    destruct Ha as (i & _ & ->), Hb as (j & _ & ->).
    set (ta := IZR i * _). set (tb := IZR j * _).
    split; [|split].
    + unfold arePegsTooClose_circle. cbn [circle_peg angle].
      unfold Math_abs. now rewrite (Rabs_minus_sym ta tb).
    + apply (circle_tooClose_iff _ _ ta ta); [reflexivity|reflexivity|].
      rewrite Rminus_diag, Rabs_R0. pose proof PI_RGT_0.
      apply Rle_trans with 0; [apply Rmin_l|lra].
    + exists ta, tb. split; [reflexivity|]. split; [reflexivity|].
      now apply circle_tooClose_iff.
Qed.

(** ** Accepted pairs are apart *)

Lemma cos_eq_1_small (d : R) : cos d = 1 -> Rabs d < 2 * PI -> d = 0.
Proof.
  intros Hc Hd.
  assert (Hs : sin (d / 2) = 0).
  { replace d with (2 * (d / 2)) in Hc by lra. rewrite cos_2a_sin in Hc. nra. }
  destruct (Rtotal_order (d / 2) 0) as [Hneg|[H0|Hpos]]; [|lra|].
  - assert (0 < sin (- (d / 2))).
    { apply sin_gt_0; [lra|]. apply Rabs_def2 in Hd. lra. }
    rewrite sin_neg in H. lra.
  - assert (0 < sin (d / 2)).
    { apply sin_gt_0; [lra|]. apply Rabs_def2 in Hd. lra. }
    lra.
Qed.

Lemma distance_pos (a b : IPoint) :
  x a <> x b \/ y a <> y b -> 0 < euclidean_distance a b.
Proof.
  intros H. unfold euclidean_distance. apply sqrt_lt_R0.
  set (u := x b - x a). set (v := y b - y a).
  assert (Hu : 0 <= u * u) by nra. assert (Hv : 0 <= v * v) by nra.
  destruct H as [H|H].
  - assert (u <> 0) by (unfold u; lra). assert (0 < u * u) by nra. nra.
  - assert (v <> 0) by (unfold v; lra). assert (0 < v * v) by nra. nra.
Qed.

Lemma circle_pegs_apart (domainSize : ISize) (ta tb : R) :
  (1 <= width domainSize)%Z -> (1 <= height domainSize)%Z ->
  arePegsTooClose_circle (circle_peg domainSize ta) (circle_peg domainSize tb) = false ->
  0 < euclidean_distance (circle_peg domainSize ta) (circle_peg domainSize tb).
Proof.
  intros HW HH Hfar.
  assert (Hmin : ~ Rmin (Rabs (ta - tb)) (2 * PI - Rabs (ta - tb)) <= PI / 8).
  { intros Hle.
    apply (circle_tooClose_iff (circle_peg domainSize ta) (circle_peg domainSize tb)
             ta tb eq_refl eq_refl) in Hle. congruence. }
  pose proof PI_RGT_0 as Hpi.
  assert (H1 : PI / 8 < Rabs (ta - tb)).
  { apply Rnot_le_lt in Hmin. eapply Rlt_le_trans; [exact Hmin|apply Rmin_l]. }
  assert (H2 : PI / 8 < 2 * PI - Rabs (ta - tb)).
  { apply Rnot_le_lt in Hmin. eapply Rlt_le_trans; [exact Hmin|apply Rmin_r]. }
  apply IZR_le in HW, HH.
  destruct (Req_dec_T (cos ta) (cos tb)) as [Hcos|Hcos];
    [destruct (Req_dec_T (sin ta) (sin tb)) as [Hsin|Hsin]|].
  - exfalso.
    assert (Hc : cos (ta - tb) = 1).
    { rewrite cos_minus, Hcos, Hsin. pose proof (sin2_cos2 tb) as Hsc.
      unfold Rsqr in Hsc. lra. }
    apply cos_eq_1_small in Hc; [|lra].
    rewrite Hc, Rabs_R0 in H1. lra.
  - apply distance_pos. right. cbn [circle_peg peg_point y]. nra.
  - apply distance_pos. left. cbn [circle_peg peg_point x]. nra.
Qed.

(** C6.  Two pegs of a layout that the proximity predicate of the layout
    accepts are at a distance [d > 0]: [ceil d >= 1] samples are taken and
    the score is a number, the mean of their contributions, not the [NaN] of
    [0 / 0]. *)
Theorem accepted_pegs_are_apart
        (domainSize : ISize) (shape : EShape) (spacing : R) (a b : IPeg) :
  (1 <= width domainSize)%Z -> (1 <= height domainSize)%Z ->
  In a (snd (computePegs domainSize shape spacing)) ->
  In b (snd (computePegs domainSize shape spacing)) ->
  fst (computePegs domainSize shape spacing) a b = false ->
  0 < euclidean_distance a b /\
  (1 <= Math_ceil (euclidean_distance a b))%Z /\
  forall (canvas : ISize) (data : list Z),
    threadPotential canvas data a b = Num (mean_contribution canvas data a b).
Proof.
  intros HW HH Ha Hb Hfar.
  assert (Hd : 0 < euclidean_distance a b).
  { destruct shape; cbn [computePegs fst snd] in *.
    - apply distance_pos.
      destruct (Req_dec_T (x a) (x b)) as [Hx|Hx]; [|now left]. exfalso.
      assert (arePegsTooClose_rectangle a b = true)
        by (apply rectangle_tooClose_iff; now left).
      congruence.
    - apply In_circle_pegs in Ha, Hb.
      destruct Ha as (i & _ & ->), Hb as (j & _ & ->).
      now apply circle_pegs_apart. }
  split; [exact Hd|]. split; [now apply ceil_pos|].
  intros canvas data. now apply threadPotential_mean.
Qed.

(** ** The rectangle layout *)

(** The hidden canvas of an image that is not empty is not empty. *)
Lemma computeBestSize_positive (image : ISize) :
  (1 <= width image)%Z -> (1 <= height image)%Z ->
  (1 <= width (computeBestSize image HIDDEN_CANVAS_SIZE))%Z /\
  (1 <= height (computeBestSize image HIDDEN_CANVAS_SIZE))%Z.
Proof.
  intros HW HH. unfold computeBestSize, HIDDEN_CANVAS_SIZE, Math_ceil. cbn [width height].
  assert (Hm : 0 < IZR (Z.max (width image) (height image))) by (apply IZR_lt; lia).
  assert (Hf : 0 < 256 / IZR (Z.max (width image) (height image)))
    by (apply Rdiv_lt_0_compat; lra).
  split; apply ceil_pos; apply Rmult_lt_0_compat; try exact Hf; apply IZR_lt; lia.
Qed.


Lemma fraction_bounds (i n : Z) :
  (1 <= i <= n - 1)%Z -> 0 < IZR i / IZR n < 1.
Proof.
  intros Hi.
  assert (Hi1 : 0 < IZR i) by (apply IZR_lt; lia).
  assert (Hin : IZR i < IZR n) by (apply IZR_lt; lia).
  split.
  - apply Rdiv_lt_0_compat; lra.
  - apply Rmult_lt_reg_r with (IZR n); [lra|].
    unfold Rdiv. rewrite Rmult_assoc, Rinv_l by lra. lra.
Qed.

(** C4.  On a domain of [W] by [H] pixels, [W, H >= 1], with a spacing
    [s > 0], the rectangle layout is the four corners [(0,0)], [(W-1,0)],
    [(W-1,H-1)], [(0,H-1)] followed by [2 * (ceil (W/s) - 1)
    + 2 * (ceil (H/s) - 1)] pegs on the sides, those at the fractions
    [i / ceil (W/s)], [1 <= i <= ceil (W/s) - 1], of the top and bottom sides
    and at the fractions [j / ceil (H/s)] of the left and right sides; every
    peg lies in [[0, W-1] x [0, H-1]]. *)
Theorem rectangle_layout (W H : Z) (s : R) :
  (1 <= W)%Z -> (1 <= H)%Z -> 0 < s ->
  let pegs := snd (computePegs {| width := W; height := H |} RECTANGLE s) in
  let maxX := IZR (W - 1) in
  let maxY := IZR (H - 1) in
  let nW := Zceil (IZR W / s) in
  let nH := Zceil (IZR H / s) in
  firstn 4 pegs = [rectangle_peg 0 0; rectangle_peg maxX 0;
                   rectangle_peg maxX maxY; rectangle_peg 0 maxY] /\
  Z.of_nat (length pegs) = (4 + (2 * (nW - 1) + 2 * (nH - 1)))%Z /\
  (forall p, In p (skipn 4 pegs) <->
             (exists i, (1 <= i <= nW - 1)%Z /\
                        (p = rectangle_peg (maxX * (IZR i / IZR nW)) 0 \/
                         p = rectangle_peg (maxX * (IZR i / IZR nW)) maxY))
             \/ (exists j, (1 <= j <= nH - 1)%Z /\
                           (p = rectangle_peg 0 (maxY * (IZR j / IZR nH)) \/
                            p = rectangle_peg maxX (maxY * (IZR j / IZR nH))))) /\
  (forall p, In p pegs -> 0 <= x p <= maxX /\ 0 <= y p <= maxY).
Proof.
  intros HW HH Hs pegs maxX maxY nW nH.
  assert (HnW : (1 <= nW)%Z).
  { apply ceil_pos. apply Rdiv_lt_0_compat; [apply IZR_lt; lia|exact Hs]. }
  assert (HnH : (1 <= nH)%Z).
  { apply ceil_pos. apply Rdiv_lt_0_compat; [apply IZR_lt; lia|exact Hs]. }
  assert (HmaxX : 0 <= maxX) by (apply IZR_le; lia).
  assert (HmaxY : 0 <= maxY) by (apply IZR_le; lia).
  assert (Hside : forall p, In p (skipn 4 pegs) <->
             (exists i, (1 <= i <= nW - 1)%Z /\
                        (p = rectangle_peg (maxX * (IZR i / IZR nW)) 0 \/
                         p = rectangle_peg (maxX * (IZR i / IZR nW)) maxY))
             \/ (exists j, (1 <= j <= nH - 1)%Z /\
                           (p = rectangle_peg 0 (maxY * (IZR j / IZR nH)) \/
                            p = rectangle_peg maxX (maxY * (IZR j / IZR nH))))).
  { intros p. unfold pegs. cbn [computePegs snd]. rewrite rectangle_pegs_eq.
    cbn [width height app skipn]. fold maxX maxY. unfold Math_ceil. fold nW nH.
    rewrite in_app_iff, !in_flat_map.
    split.
    - intros [(i & Hi & Hp)|(j & Hj & Hp)]; apply In_Zseq in Hi || apply In_Zseq in Hj.
      + left. exists i. split; [lia|]. cbn in Hp. intuition congruence.
      + right. exists j. split; [lia|]. cbn in Hp. intuition congruence.
    - intros [(i & Hi & Hp)|(j & Hj & Hp)].
      + left. exists i. split; [apply In_Zseq; lia|]. cbn. intuition congruence.
      + right. exists j. split; [apply In_Zseq; lia|]. cbn. intuition congruence. }
  split; [|split; [|split; [exact Hside|]]].
  - unfold pegs. cbn [computePegs snd]. rewrite rectangle_pegs_eq. reflexivity.
  - unfold pegs. cbn [computePegs snd]. rewrite rectangle_pegs_eq.
    cbn [width height]. unfold Math_ceil. fold nW nH.
    rewrite !length_app, !(length_flat_map_const _ 2) by reflexivity.
    rewrite !length_Zseq. cbn [length]. lia.
  - intros p Hp.
    assert (Hsplit : In p (firstn 4 pegs) \/ In p (skipn 4 pegs)).
    { apply in_app_or. now rewrite firstn_skipn. }
    destruct Hsplit as [Hc|Hi].
    + unfold pegs in Hc. cbn [computePegs snd] in Hc. rewrite rectangle_pegs_eq in Hc.
      cbn [width height app firstn] in Hc. fold maxX maxY in Hc.
      destruct Hc as [<-|[<-|[<-|[<-|[]]]]]; cbn; lra.
    + apply Hside in Hi.
      destruct Hi as [(i & Hi & Hp')|(j & Hj & Hp')].
      * pose proof (fraction_bounds i nW Hi) as Hf.
        destruct Hp' as [-> | ->]; cbn; nra.
      * pose proof (fraction_bounds j nH Hj) as Hf.
        destruct Hp' as [-> | ->]; cbn; nra.
Qed.

(** ** The circle layout *)

Lemma nth_error_Zseq (n : nat) :
  forall (lo : Z) (i : nat),
    (i < n)%nat -> nth_error (Zseq lo n) i = Some (lo + Z.of_nat i)%Z.
Proof.
  induction n as [|n IH]; intros lo i Hi; [lia|].
  rewrite Zseq_S. destruct i as [|i]; cbn [nth_error].
  - f_equal. lia.
  - rewrite IH by lia. f_equal. lia.
Qed.




(** ** Sampling stays inside the CPU copy *)

Lemma clamp_range (v lo hi : Z) : (lo <= hi)%Z -> (lo <= clamp v lo hi <= hi)%Z.
Proof.
  intros H. unfold clamp.
  destruct (Z.ltb_spec v lo); [lia|]. destruct (Z.gtb_spec v hi); lia.
Qed.

(** The three bytes [sampleCanvasPixel] reads at clamped coordinates are
    among the [4 * width * height] bytes of the canvas. *)
Lemma sampleCanvasData_reads_in_range (canvas : ISize) (vx vy k : Z) :
  (1 <= width canvas)%Z -> (1 <= height canvas)%Z -> (0 <= k <= 2)%Z ->
  let pixelX := clamp vx 0 (width canvas - 1) in
  let pixelY := clamp vy 0 (height canvas - 1) in
  (0 <= 4 * (pixelX + pixelY * width canvas) + k < 4 * (width canvas * height canvas))%Z.
Proof.
  intros HW HH Hk pixelX pixelY.
  pose proof (clamp_range vx 0 (width canvas - 1)) as Hx.
  pose proof (clamp_range vy 0 (height canvas - 1)) as Hy.
  fold pixelX in Hx. fold pixelY in Hy. nia.
Qed.



(** ** A black canvas *)

Lemma for_range_invariant {A : Type} (Inv : A -> Prop) (body : Z -> A -> A) :
  (forall i a, Inv a -> Inv (body i a)) ->
  forall (n : nat) (lo : Z) (acc : A), Inv acc -> Inv (for_range lo n body acc).
Proof.
  intros Hbody. induction n as [|n IH]; intros lo acc Hacc; cbn; [exact Hacc|].
  apply IH, Hbody, Hacc.
Qed.

Lemma write_at_zero (data : list Z) :
  Forall (fun v => v = 0%Z) data ->
  forall i, Forall (fun v => v = 0%Z) (write_at data i 0).
Proof.
  induction 1 as [|d data Hd Hdata IH]; intros i; destruct i; cbn [write_at].
  - constructor.
  - constructor.
  - constructor; [reflexivity|exact Hdata].
  - constructor; [exact Hd|apply IH].
Qed.

Lemma byte_at_zero (data : list Z) (i : Z) :
  Forall (fun v => v = 0%Z) data -> byte_at data i = 0.
Proof.
  intros H. unfold byte_at.
  destruct (nth_in_or_default (Z.to_nat i) data 0%Z) as [Hin | ->]; [|reflexivity].
  rewrite Forall_forall in H. now rewrite (H _ Hin).
Qed.

Lemma toUint8Clamped_0 : toUint8Clamped 0 = 0%Z.
Proof.
  unfold toUint8Clamped. rewrite (ZfloorZ 0).
  destruct (Rlt_dec (0 - 0) 0.5) as [_|Hn]; [reflexivity|]. exfalso. apply Hn. lra.
Qed.

Lemma adjust_pixel_zero (i : Z) (data : list Z) :
  Forall (fun v => v = 0%Z) data ->
  Forall (fun v => v = 0%Z) (adjust_pixel false i data).
Proof.
  intros H. unfold adjust_pixel, computeAdjustedValue.
  rewrite !(byte_at_zero data) by exact H.
  replace ((0 + 0 + 0) / 3 / 2) with 0 by lra. rewrite toUint8Clamped_0.
  now repeat apply write_at_zero.
Qed.

Lemma freshCanvas_black (image : HTMLImageElement) :
  Forall (fun v => v = 0%Z) (bitmap (freshCanvas blackImage false image)).
Proof.
  unfold freshCanvas. cbn [bitmap]. unfold for_loop.
  apply for_range_invariant; [intros i a; apply adjust_pixel_zero|].
  unfold blackImage. apply Forall_forall. intros v Hv. now apply repeat_spec in Hv.
Qed.

Lemma sampleCanvasData_zero (canvas : ISize) (data : list Z) (coords : IPoint) :
  Forall (fun v => v = 0%Z) data -> sampleCanvasData canvas data coords = 0.
Proof.
  intros H. unfold sampleCanvasData, sampleCanvasPixel.
  rewrite !(byte_at_zero data) by exact H. unfold mix. lra.
Qed.

Lemma threadPotential_black (canvas : ISize) (data : list Z) (a b : IPeg) :
  Forall (fun v => v = 0%Z) data -> 0 < euclidean_distance a b ->
  threadPotential canvas data a b = Num blackScore.
Proof.
  intros H Hd. rewrite threadPotential_mean by exact Hd. f_equal.
  unfold mean_contribution.
  set (N := Z.to_nat (Zceil (euclidean_distance a b))).
  assert (HN : (1 <= N)%nat) by (pose proof (ceil_pos _ Hd); unfold N; lia).
  rewrite (Rsum_const blackScore).
  - rewrite length_map, length_seq. field. apply not_0_INR. lia.
  - intros v Hv. apply in_map_iff in Hv. destruct Hv as (i & <- & _).
    now rewrite sampleCanvasData_zero.
Qed.

(** ** Candidates, one at a time *)

Lemma consider_better {T : Type} (score best : R) (item : T) (candidates : list T) :
  best < score -> consider (Num score) item (candidates, best) = ([item], score).
Proof.
  intros H. unfold consider.
  now replace (Rltb best score) with true by (symmetry; now apply Rltb_true_iff).
Qed.

Lemma consider_tie {T : Type} (score : R) (item : T) (candidates : list T) :
  consider (Num score) item (candidates, score) = (candidates ++ [item], score).
Proof.
  unfold consider.
  replace (Rltb score score) with false
    by (symmetry; apply not_true_is_false; rewrite Rltb_true_iff; lra).
  now replace (Reqb score score) with true by (symmetry; now apply Reqb_true_iff).
Qed.

Lemma tryCandidate_close {T : Type} (p1 p2 : IPeg) (item : T) (acc : list T * R)
      (w : World) :
  arePegsTooClose (this w) p1 p2 = true ->
  tryCandidate p1 p2 item acc w = Normal acc w.
Proof. intros H. unfold tryCandidate, bind, get. now rewrite H. Qed.

Lemma tryCandidate_far {T : Type} (p1 p2 : IPeg) (item : T) (acc : list T * R)
      (w : World) :
  arePegsTooClose (this w) p1 p2 = false ->
  tryCandidate p1 p2 item acc w
  = Normal (consider (threadPotential (hiddenCanvas (this w)) (uploaded (this w)) p1 p2)
                     item acc)
           (with_this (upload (this w)) w).
Proof.
  intros H. unfold tryCandidate, bind, get. rewrite H. cbn [negb].
  unfold computeThreadPotential, uploadCanvasDataToCPU, upload, bind, modify, get, ret,
    uploaded, with_this.
  cbn [this]. destruct (hiddenCanvasData (this w)) as [data|] eqn:E.
  - rewrite E. now destruct w.
  - reflexivity.
Qed.

Lemma forEach_cons_Normal {A B : Type} (body : A -> B -> M B) (a : A) (l : list A)
      (acc acc1 : B) (w w1 : World) :
  body a acc w = Normal acc1 w1 ->
  forEach (a :: l) body acc w = forEach l body acc1 w1.
Proof. intros H. cbn [forEach]. now rewrite (bind_Normal _ _ _ _ _ H). Qed.

Lemma startingLoop_cons_Normal (p1 : IPeg) (rest : list IPeg)
      (acc acc1 : list IThread * R) (w w1 : World) :
  forEach rest (fun p2 acc => tryCandidate p1 p2 {| peg1 := p1; peg2 := p2 |} acc) acc w
  = Normal acc1 w1 ->
  startingLoop (p1 :: rest) acc w = startingLoop rest acc1 w1.
Proof. intros H. cbn [startingLoop]. now rewrite (bind_Normal _ _ _ _ _ H). Qed.

(** When every pair of pegs is too close the search for a starting thread
    leaves its candidates as they were. *)
Lemma startingLoop_all_close (l : list IPeg) :
  forall (acc : list IThread * R) (w : World),
    (forall p q, In p l -> In q l -> arePegsTooClose (this w) p q = true) ->
    startingLoop l acc w = Normal acc w.
Proof.
  induction l as [|p1 rest IH]; intros acc w H; [reflexivity|].
  apply eq_trans with (startingLoop rest acc w).
  - apply startingLoop_cons_Normal.
    assert (Hrest : forall q, In q rest -> arePegsTooClose (this w) p1 q = true)
      by (intros q Hq; apply H; [now left|now right]).
    clear IH H. induction rest as [|p2 rest IH]; [reflexivity|].
    rewrite (forEach_cons_Normal _ _ _ _ acc w w).
    + apply IH. intros q Hq. apply Hrest. now right.
    + apply tryCandidate_close, Hrest. now left.
  - apply IH. intros p q Hp Hq. apply H; now right.
Qed.

(** ** The square example *)

Lemma rectangle_close_x (a b : IPeg) : x a = x b -> arePegsTooClose_rectangle a b = true.
Proof. intros H. apply rectangle_tooClose_iff. now left. Qed.

Lemma rectangle_close_y (a b : IPeg) : y a = y b -> arePegsTooClose_rectangle a b = true.
Proof. intros H. apply rectangle_tooClose_iff. now right. Qed.

Lemma rectangle_far (a b : IPeg) :
  x a <> x b -> y a <> y b -> arePegsTooClose_rectangle a b = false.
Proof.
  intros Hx Hy. apply not_true_is_false. rewrite rectangle_tooClose_iff. tauto.
Qed.

Lemma computeBestSize_square :
  computeBestSize squareImage HIDDEN_CANVAS_SIZE = {| width := 256; height := 256 |}.
Proof.
  unfold computeBestSize, HIDDEN_CANVAS_SIZE, Math_ceil.
  cbn [squareImage image_size width height]. change (Z.max 256 256) with 256%Z.
  f_equal; apply Zceil_eq; lra.
Qed.

Lemma rectangle_pegs_square :
  rectangle_pegs {| width := 256; height := 256 |} 256
  = [corner00; corner10; corner11; corner01].
Proof.
  rewrite rectangle_pegs_eq. cbn [width height]. unfold Math_ceil.
  rewrite (Zceil_eq 1 (256 / 256)) by lra. reflexivity.
Qed.

Lemma squareWorld_pegs : pegs (this squareWorld) = [corner00; corner10; corner11; corner01].
Proof.
  unfold squareWorld, constructor. cbn [this set_pegs pegs computePegs snd].
  unfold freshCanvas. cbn [canvas_size]. rewrite computeBestSize_square.
  apply rectangle_pegs_square.
Qed.

Lemma squareWorld_black : black_rectangle (this squareWorld).
Proof.
  split; [reflexivity|]. unfold uploaded, squareWorld, constructor.
  cbn [this set_pegs hiddenCanvasData hiddenCanvas Parameters_invertColors
       rectangleParameters].
  apply freshCanvas_black.
Qed.

Lemma black_rectangle_upload (t : ThreadComputer) :
  black_rectangle t -> black_rectangle (upload t).
Proof.
  unfold black_rectangle, upload, uploaded.
  destruct (hiddenCanvasData t) as [data|] eqn:E; [now rewrite E|]. cbn. tauto.
Qed.

Lemma upload_fields (t : ThreadComputer) :
  threadPegs (upload t) = threadPegs t /\ targetNbSegments (upload t) = targetNbSegments t.
Proof. unfold upload. now destruct (hiddenCanvasData t). Qed.

Ltac corner_cmp :=
  cbn [x y peg_point corner00 corner10 corner11 corner01 rectangle_peg]; lra.

Lemma blackScore_safe : MIN_SAFE_NUMBER < blackScore.
Proof. unfold MIN_SAFE_NUMBER, blackScore. lra. Qed.

(** On the four corners and a black canvas the two diagonals tie; with
    [Math.random() = 0] the first one is chosen. *)
Lemma square_search (w : World) :
  black_rectangle (this w) ->
  pegs (this w) = [corner00; corner10; corner11; corner01] ->
  computeBestStartingThread zeroRandom w
  = Normal (Some {| peg1 := corner00; peg2 := corner11 |})
           {| this := upload (upload (this w));
              clock_reads := clock_reads w;
              random_reads := S (random_reads w) |}.
Proof.
  intros Hblack Hpegs.
  pose proof (black_rectangle_upload _ Hblack) as Hblack1.
  set (w1 := with_this (upload (this w)) w).
  set (w2 := with_this (upload (this w1)) w1).
  set (t02 := {| peg1 := corner00; peg2 := corner11 |}).
  set (t13 := {| peg1 := corner10; peg2 := corner01 |}).
  assert (Hclose : forall v (a b : IPeg), black_rectangle (this v) ->
                     x a = x b \/ y a = y b ->
                     forall (T : Type) (item : T) acc,
                       tryCandidate a b item acc v = Normal acc v).
  { intros v a b [Hr _] Hab T item acc. apply tryCandidate_close. rewrite Hr.
    destruct Hab; [now apply rectangle_close_x|now apply rectangle_close_y]. }
  assert (Hfar : forall v (a b : IPeg), black_rectangle (this v) ->
                   x a <> x b -> y a <> y b ->
                   forall (T : Type) (item : T) acc,
                     tryCandidate a b item acc v
                     = Normal (consider (Num blackScore) item acc)
                              (with_this (upload (this v)) v)).
  { intros v a b [Hr Hz] Hx Hy T item acc. rewrite tryCandidate_far.
    - rewrite threadPotential_black; [reflexivity|exact Hz|].
      apply distance_pos. now left.
    - rewrite Hr. now apply rectangle_far. }
  assert (Eloop : startingLoop [corner00; corner10; corner11; corner01]
                    ([], MIN_SAFE_NUMBER) w
                  = Normal ([t02; t13], blackScore) w2).
  { rewrite (startingLoop_cons_Normal _ _ _ ([t02], blackScore) w w1).
    2:{ rewrite (forEach_cons_Normal _ _ _ _ ([], MIN_SAFE_NUMBER) w w)
          by (apply Hclose; [exact Hblack|right; corner_cmp]).
        rewrite (forEach_cons_Normal _ _ _ _ ([t02], blackScore) w w1)
          by (rewrite Hfar; [now rewrite consider_better by apply blackScore_safe
                            |exact Hblack|corner_cmp|corner_cmp]).
        rewrite (forEach_cons_Normal _ _ _ _ ([t02], blackScore) w1 w1)
          by (apply Hclose; [exact Hblack1|left; corner_cmp]).
        reflexivity. }
    rewrite (startingLoop_cons_Normal _ _ _ ([t02; t13], blackScore) w1 w2).
    2:{ rewrite (forEach_cons_Normal _ _ _ _ ([t02], blackScore) w1 w1)
          by (apply Hclose; [exact Hblack1|left; corner_cmp]).
        rewrite (forEach_cons_Normal _ _ _ _ ([t02; t13], blackScore) w1 w2)
          by (rewrite Hfar; [now rewrite consider_tie
                            |exact Hblack1|corner_cmp|corner_cmp]).
        reflexivity. }
    rewrite (startingLoop_cons_Normal _ _ _ ([t02; t13], blackScore) w2 w2).
    2:{ rewrite (forEach_cons_Normal _ _ _ _ ([t02; t13], blackScore) w2 w2)
          by (apply Hclose; [apply black_rectangle_upload, Hblack1|right; corner_cmp]).
        reflexivity. }
    reflexivity. }
  unfold computeBestStartingThread. unfold get at 1. unfold bind at 1. rewrite Hpegs.
  rewrite (bind_Normal _ _ _ _ _ Eloop).
  unfold randomItem, zeroRandom. cbn [fst length Nat.eqb].
  rewrite Rmult_0_l. unfold Math_floor. rewrite (ZfloorZ 0). reflexivity.
Qed.

(** The first planning step of the square example. *)
Lemma square_first_step (w : World) :
  black_rectangle (this w) ->
  pegs (this w) = [corner00; corner10; corner11; corner01] ->
  threadPegs (this w) = [] ->
  computeThread faintStroke zeroRandom w = Normal tt (after_first_step w).
Proof.
  intros Hblack Hpegs Hpath.
  pose proof (square_search w Hblack Hpegs) as Esearch.
  unfold computeThread, chooseThread. unfold get at 1. unfold bind at 1 2.
  rewrite Hpath. cbn [length Nat.eqb].
  rewrite (bind_Normal _ _ _ _ _ Esearch).
  unfold push, drawThreadOnHiddenCanvas, bind, modify, ret, after_first_step.
  cbn [this clock_reads random_reads peg1 peg2 set_threadPegs threadPegs].
  destruct (upload_fields (upload (this w))) as [-> _].
  destruct (upload_fields (this w)) as [-> _].
  rewrite Hpath. reflexivity.
Qed.

Lemma square_timed_out :
  computeNextThreads blackImage faintStroke exampleClock zeroRandom
    (rectangleParameters 5) 1 squareWorld
  = Normal false squareWorld1.
Proof.
  rewrite computeNextThreads_unfold.
  change (nbSegments (this squareWorld) >? Parameters_nbLines (rectangleParameters 5))%Z
    with false.
  set (v := with_this _ _).
  assert (Hv : black_rectangle (this (tick v))) by apply squareWorld_black.
  assert (Hpegs : pegs (this (tick v)) = [corner00; corner10; corner11; corner01])
    by apply squareWorld_pegs.
  pose proof (square_first_step (tick v) Hv Hpegs eq_refl) as Estep.
  unfold grow. unfold get at 1. unfold bind at 1 2.
  change (Z.to_nat (targetNbSegments (this v) - nbSegments (this v))) with 5%nat.
  rewrite growLoop_S.
  change (nbSegments (this v) <? targetNbSegments (this v))%Z with true.
  change (exampleClock (clock_reads v)) with 0.
  change (exampleClock (clock_reads squareWorld)) with 0.
  replace (Rltb (0 - 0) 1) with true by (symmetry; apply Rltb_true_iff; lra).
  rewrite (bind_Normal _ _ _ _ _ Estep).
  rewrite growLoop_S.
  change (nbSegments (this (after_first_step (tick v)))
          <? targetNbSegments (this (after_first_step (tick v))))%Z with true.
  change (exampleClock (clock_reads (after_first_step (tick v)))) with 2.
  replace (Rltb (2 - 0) 1) with false
    by (symmetry; apply not_true_is_false; rewrite Rltb_true_iff; lra).
  reflexivity.
Qed.

(** ** The claims on the examples *)

(** C1 at the diagonal of the square example. *)
Lemma computeThreadPotential_is_mean_contribution_witness :
  0 < euclidean_distance corner00 corner11 /\
  exists w',
    computeThreadPotential corner00 corner11 squareWorld
    = Normal (Num (mean_contribution (hiddenCanvas (this squareWorld))
                     (uploaded (this squareWorld)) corner00 corner11)) w'.
Proof.
  assert (Hd : 0 < euclidean_distance corner00 corner11)
    by (apply distance_pos; left; corner_cmp).
  split; [exact Hd|].
  destruct (computeThreadPotential_is_mean_contribution squareWorld corner00 corner11 Hd)
    as (_ & w' & _ & _ & E).
  exists w'. exact E.
Defined.

(** C3 fails on the first step: from the empty path of the square example
    the step returns with two pegs on the path, not one. *)
Lemma first_step_appends_two_pegs :
  path_length squareWorld = 0%nat /\
  computeThread faintStroke zeroRandom squareWorld
  = Normal tt (after_first_step squareWorld) /\
  path_length (after_first_step squareWorld) = 2%nat /\
  path_length (after_first_step squareWorld) <> S (path_length squareWorld).
Proof.
  split; [reflexivity|]. split.
  - apply square_first_step; [apply squareWorld_black|apply squareWorld_pegs|reflexivity].
  - split; [reflexivity|]. cbn. discriminate.
Qed.

Lemma computeThread_adds_one_segment_witness :
  computeThread faintStroke zeroRandom squareWorld
  = Normal tt (after_first_step squareWorld) /\
  nbSegments (this (after_first_step squareWorld))
  = (nbSegments (this squareWorld) + 1)%Z /\
  (path_length squareWorld = 0%nat -> path_length (after_first_step squareWorld) = 2%nat).
Proof.
  assert (E : computeThread faintStroke zeroRandom squareWorld
              = Normal tt (after_first_step squareWorld))
    by (apply square_first_step;
        [apply squareWorld_black|apply squareWorld_pegs|reflexivity]).
  split; [exact E|].
  destruct (computeThread_adds_one_segment faintStroke zeroRandom
              squareWorld (after_first_step squareWorld) E) as (Hn & _ & H2).
  split; [exact Hn|exact H2].
Defined.

(** C7 fails on the stored target: the square example, stopped by the clock
    at one segment of the five asked for, is called again once the page asks
    for one line.  The call returns [true] and the planner is not as it was:
    [targetNbSegments] was 5 and is 1. *)
Lemma stale_target_is_overwritten :
  computeNextThreads blackImage faintStroke exampleClock zeroRandom
    (rectangleParameters 5) 1 squareWorld = Normal false squareWorld1 /\
  nbSegments (this squareWorld1) = Parameters_nbLines (rectangleParameters 1) /\
  exists w',
    computeNextThreads blackImage faintStroke exampleClock zeroRandom
      (rectangleParameters 1) 1 squareWorld1 = Normal true w' /\
    targetNbSegments (this squareWorld1) = 5%Z /\
    targetNbSegments (this w') = 1%Z /\
    this w' <> this squareWorld1.
Proof.
  split; [apply square_timed_out|]. split; [reflexivity|].
  pose proof (computeNextThreads_at_target_result blackImage faintStroke exampleClock
                zeroRandom (rectangleParameters 1) 1 squareWorld1 eq_refl) as E.
  eexists. split; [exact E|]. split; [reflexivity|]. split; [reflexivity|].
  intros H. apply (f_equal targetNbSegments) in H. discriminate H.
Qed.

Lemma computeNextThreads_at_target_witness :
  nbSegments (this squareWorld1) = Parameters_nbLines (rectangleParameters 1) /\
  exists w',
    computeNextThreads blackImage faintStroke exampleClock zeroRandom
      (rectangleParameters 1) 1 squareWorld1 = Normal true w' /\
    threadPegs (this w') = threadPegs (this squareWorld1) /\
    hiddenCanvas (this w') = hiddenCanvas (this squareWorld1).
Proof.
  split; [reflexivity|].
  destruct (computeNextThreads_at_target blackImage faintStroke exampleClock zeroRandom
              (rectangleParameters 1) 1 squareWorld1 eq_refl)
    as (w' & E & _ & Hpath & _ & Hcanvas & _).
  exists w'. split; [exact E|]. split; [exact Hpath|exact Hcanvas].
Defined.

(** C8 on the square example with one segment, once the page asks for no
    line. *)
Lemma computeNextThreads_resets_when_over_target_witness :
  (nbSegments (this squareWorld1) > Parameters_nbLines (rectangleParameters 0))%Z /\
  exists w0,
    reset blackImage (rectangleParameters 0) (tick squareWorld1) = Normal tt w0 /\
    threadPegs (this w0) = [] /\
    computeNextThreads blackImage faintStroke exampleClock zeroRandom
      (rectangleParameters 0) 1 squareWorld1
    = grow faintStroke exampleClock zeroRandom
        (exampleClock (clock_reads squareWorld1)) 1 w0.
Proof.
  assert (H : (nbSegments (this squareWorld1) > Parameters_nbLines (rectangleParameters 0))%Z)
    by reflexivity.
  split; [exact H|].
  destruct (computeNextThreads_resets_when_over_target blackImage faintStroke exampleClock
              zeroRandom (rectangleParameters 0) 1 squareWorld1 H)
    as (w0 & E & Hpath & _ & _ & _ & _ & Hnext).
  exists w0. split; [exact E|]. split; [exact Hpath|exact Hnext].
Defined.

Lemma squareWorld1_reachable :
  reachable blackImage faintStroke exampleClock zeroRandom squareWorld1.
Proof.
  apply (reachable_next _ _ _ _ (rectangleParameters 5) 1 squareWorld false).
  - apply reachable_new.
  - apply square_timed_out.
Qed.

(** C10 on the square example after its first call. *)
Lemma path_length_never_one_witness :
  reachable blackImage faintStroke exampleClock zeroRandom squareWorld1 /\
  path_length squareWorld1 <> 1%nat.
Proof.
  split; [apply squareWorld1_reachable|].
  apply (path_length_never_one blackImage faintStroke exampleClock zeroRandom squareWorld1).
  apply squareWorld1_reachable.
Defined.

(** C4 on the scenario of the specification: 256 by 256 pixels, a spacing of
    32, hence 32 pegs. *)
Lemma rectangle_layout_witness :
  (1 <= 256)%Z /\ 0 < 32 /\
  Z.of_nat (length (snd (computePegs {| width := 256; height := 256 |} RECTANGLE 32)))
  = 32%Z.
Proof.
  assert (H1 : (1 <= 256)%Z) by lia. assert (Hs : 0 < 32) by lra.
  split; [exact H1|]. split; [exact Hs|].
  destruct (rectangle_layout 256 256 32 H1 H1 Hs) as (_ & Hlen & _).
  rewrite Hlen. rewrite (Zceil_eq 8 (256 / 32)) by lra. reflexivity.
Defined.


Lemma square_layout_corners :
  In corner00 (snd (computePegs {| width := 256; height := 256 |} RECTANGLE 256)) /\
  In corner11 (snd (computePegs {| width := 256; height := 256 |} RECTANGLE 256)).
Proof.
  cbn [computePegs snd]. rewrite rectangle_pegs_square. split; cbn; tauto.
Qed.

Lemma square_diagonal_accepted :
  fst (computePegs {| width := 256; height := 256 |} RECTANGLE 256) corner00 corner11
  = false.
Proof. cbn [computePegs fst]. apply rectangle_far; corner_cmp. Qed.

(** C6 at the diagonal of the square layout. *)
Lemma accepted_pegs_are_apart_witness :
  fst (computePegs {| width := 256; height := 256 |} RECTANGLE 256) corner00 corner11
  = false /\
  0 < euclidean_distance corner00 corner11 /\
  (1 <= Math_ceil (euclidean_distance corner00 corner11))%Z.
Proof.
  split; [apply square_diagonal_accepted|].
  destruct (accepted_pegs_are_apart {| width := 256; height := 256 |} RECTANGLE 256
              corner00 corner11) as (Hd & Hc & _).
  - cbn. lia.
  - cbn. lia.
  - apply square_layout_corners.
  - apply square_layout_corners.
  - apply square_diagonal_accepted.
  - split; [exact Hd|exact Hc].
Defined.

(** C9 at two corners of the square layout. *)
Lemma arePegsTooClose_symmetric_reflexive_witness :
  arePegsTooClose_rectangle corner00 corner11 = arePegsTooClose_rectangle corner11 corner00 /\
  arePegsTooClose_rectangle corner00 corner00 = true.
Proof.
  destruct (arePegsTooClose_symmetric_reflexive {| width := 256; height := 256 |}
              RECTANGLE 256 corner00 corner11) as (Hsym & Hrefl & _).
  - apply square_layout_corners.
  - apply square_layout_corners.
  - split; [exact Hsym|exact Hrefl].
Defined.

(** ** A step without candidate *)

Section NoCandidate.
Variable strokeLine : HTMLCanvasElement -> R -> IPoint -> IPoint -> list Z.
Variable Math_random : nat -> R.

(** From the empty path, when every pair of pegs is too close, the search
    returns [null] and [startingThread.peg1] throws: nothing is appended. *)
Lemma computeThread_without_starting_thread (w : World) :
  threadPegs (this w) = [] ->
  (forall p q, In p (pegs (this w)) -> In q (pegs (this w)) ->
               arePegsTooClose (this w) p q = true) ->
  computeBestStartingThread Math_random w = Normal None w /\
  computeThread strokeLine Math_random w = TypeError w.
Proof.
  intros Hpath Hclose.
  assert (E : computeBestStartingThread Math_random w = Normal None w).
  { unfold computeBestStartingThread. unfold get at 1. unfold bind at 1.
    rewrite (bind_Normal _ _ _ _ _ (startingLoop_all_close _ _ w Hclose)).
    reflexivity. }
  split; [exact E|].
  unfold computeThread, chooseThread. unfold get at 1. unfold bind at 1 2.
  rewrite Hpath. cbn [length Nat.eqb]. now rewrite (bind_Normal _ _ _ _ _ E).
Qed.

(** After a peg that is too close to every peg, the search returns [null],
    the [null] is pushed on the path, and drawing to it throws. *)
Lemma computeThread_pushes_null (w : World) (current : IPeg) :
  threadPegs (this w) <> [] ->
  last (threadPegs (this w)) None = Some current ->
  (forall p, In p (pegs (this w)) -> arePegsTooClose (this w) current p = true) ->
  computeThread strokeLine Math_random w
  = TypeError (with_this (set_threadPegs (threadPegs (this w) ++ [None]) (this w)) w).
Proof.
  intros Hpath Hlast Hclose.
  assert (Eloop : forall l acc,
             (forall p, In p l -> arePegsTooClose (this w) current p = true) ->
             forEach l (fun peg acc => tryCandidate current peg peg acc) acc w
             = Normal acc w).
  { induction l as [|p l IH]; intros acc Hl; [reflexivity|].
    rewrite (forEach_cons_Normal _ _ _ _ acc w w).
    - apply IH. intros q Hq. apply Hl. now right.
    - apply tryCandidate_close, Hl. now left. }
  unfold computeThread, chooseThread. unfold get at 1. unfold bind at 1 2.
  destruct (threadPegs (this w)) as [|q l] eqn:E; [contradiction|].
  cbn [length Nat.eqb]. rewrite Hlast.
  unfold computeBestNextPeg. unfold get at 1. unfold bind at 1 2.
  rewrite (bind_Normal _ _ _ _ _ (Eloop _ _ Hclose)).
  unfold randomItem, push, drawThreadOnHiddenCanvas, bind, modify, ret, throw, with_this.
  cbn [fst length Nat.eqb this clock_reads random_reads]. now rewrite E.
Qed.
End NoCandidate.

Lemma computeBestSize_thin :
  computeBestSize thinImage HIDDEN_CANVAS_SIZE = {| width := 1; height := 256 |}.
Proof.
  unfold computeBestSize, HIDDEN_CANVAS_SIZE, Math_ceil.
  cbn [thinImage image_size width height]. change (Z.max 1 1000) with 1000%Z.
  f_equal; apply Zceil_eq; lra.
Qed.

Lemma rectangle_pegs_thin :
  rectangle_pegs {| width := 1; height := 256 |} 256
  = [rectangle_peg 0 0; rectangle_peg 0 0; rectangle_peg 0 255; rectangle_peg 0 255].
Proof.
  rewrite rectangle_pegs_eq. cbn [width height]. unfold Math_ceil.
  rewrite (Zceil_eq 1 (1 / 256)), (Zceil_eq 1 (256 / 256)) by lra. reflexivity.
Qed.

Lemma thinWorld_pegs (drawImage : HTMLImageElement -> ISize -> list Z) :
  pegs (this (thinWorld drawImage))
  = [rectangle_peg 0 0; rectangle_peg 0 0; rectangle_peg 0 255; rectangle_peg 0 255].
Proof.
  unfold thinWorld, constructor. cbn [this set_pegs pegs computePegs snd].
  unfold freshCanvas. cbn [canvas_size]. rewrite computeBestSize_thin.
  apply rectangle_pegs_thin.
Qed.

(** C2 fails on the code.  For the image of 1 by 1000 pixels the hidden
    canvas is one pixel wide, all the pegs of the rectangle have [x = 0] and
    every pair is too close.  The first planning step finds no candidate and
    throws; [computeNextThreads] does not return, it throws too. *)
Theorem step_without_candidate_throws :
  (forall p q, In p (pegs (this (thinWorld blackImage))) ->
               In q (pegs (this (thinWorld blackImage))) ->
               arePegsTooClose (this (thinWorld blackImage)) p q = true) /\
  computeThread faintStroke zeroRandom (thinWorld blackImage)
  = TypeError (thinWorld blackImage) /\
  computeNextThreads blackImage faintStroke exampleClock zeroRandom
    (rectangleParameters 1) 1 (thinWorld blackImage)
  = TypeError (tick (with_this (set_targetNbSegments 1 (this (thinWorld blackImage)))
                       (tick (thinWorld blackImage)))).
Proof.
  assert (Hclose : forall w,
            pegs (this w) = pegs (this (thinWorld blackImage)) ->
            arePegsTooClose (this w) = arePegsTooClose_rectangle ->
            forall p q, In p (pegs (this w)) -> In q (pegs (this w)) ->
                        arePegsTooClose (this w) p q = true).
  { intros w Hpegs Hrect p q Hp Hq. rewrite Hpegs, thinWorld_pegs in Hp, Hq.
    rewrite Hrect. apply rectangle_close_x.
    destruct Hp as [<-|[<-|[<-|[<-|[]]]]], Hq as [<-|[<-|[<-|[<-|[]]]]]; reflexivity. }
  split; [apply (Hclose _ eq_refl eq_refl)|]. split.
  - apply computeThread_without_starting_thread;
      [reflexivity|apply (Hclose _ eq_refl eq_refl)].
  - rewrite computeNextThreads_unfold.
    change (nbSegments (this (thinWorld blackImage))
            >? Parameters_nbLines (rectangleParameters 1))%Z with false.
    set (v := with_this _ _).
    unfold grow. unfold get at 1. unfold bind at 1 2.
    change (Z.to_nat (targetNbSegments (this v) - nbSegments (this v))) with 1%nat.
    rewrite growLoop_S.
    change (nbSegments (this v) <? targetNbSegments (this v))%Z with true.
    change (exampleClock (clock_reads v)) with 0.
    change (exampleClock (clock_reads (thinWorld blackImage))) with 0.
    replace (Rltb (0 - 0) 1) with true by (symmetry; apply Rltb_true_iff; lra).
    assert (E : computeThread faintStroke zeroRandom (tick v) = TypeError (tick v)).
    { apply computeThread_without_starting_thread; [reflexivity|].
      apply Hclose; reflexivity. }
    now rewrite (bind_TypeError _ _ _ _ E).
Qed.

(** * More properties of the code *)

(** ** The range of the samples *)

Lemma byte_at_range (data : list Z) (i : Z) :
  bytes_ok data -> 0 <= byte_at data i <= 255.
Proof.
  intros H. unfold byte_at.
  assert (Hn : (0 <= nth (Z.to_nat i) data 0 <= 255)%Z).
  { destruct (nth_in_or_default (Z.to_nat i) data 0%Z) as [Hin | ->]; [|lia].
    unfold bytes_ok in H. rewrite Forall_forall in H. now apply H. }
  split; apply IZR_le; lia.
Qed.

Lemma sampleCanvasPixel_range (canvas : ISize) (data : list Z) (pixelX pixelY : Z) :
  bytes_ok data -> 0 <= sampleCanvasPixel canvas data pixelX pixelY <= 255.
Proof.
  intros H. unfold sampleCanvasPixel.
  pose proof (byte_at_range data (4 * (pixelX + pixelY * width canvas)) H).
  pose proof (byte_at_range data (4 * (pixelX + pixelY * width canvas) + 1) H).
  pose proof (byte_at_range data (4 * (pixelX + pixelY * width canvas) + 2) H).
  lra.
Qed.

Lemma mix_same (a t : R) : mix a a t = a.
Proof. unfold mix. ring. Qed.

Lemma mix_between (lo hi a b t : R) :
  0 <= t <= 1 -> lo <= a <= hi -> lo <= b <= hi -> lo <= mix a b t <= hi.
Proof. intros Ht Ha Hb. unfold mix. nra. Qed.

Lemma rem1_nonneg (v : R) : 0 <= v -> 0 <= rem1 v < 1.
Proof.
  intros Hv. unfold rem1, trunc. destruct (Rle_dec 0 v); [|contradiction].
  pose proof (Zfloor_bound v). lra.
Qed.

(** Left of the canvas, or above it, the two clamped cells are the same
    cell. *)
Lemma clamp_negative (v : R) (size : Z) :
  v < 0 -> (1 <= size)%Z ->
  clamp (Math_floor v) 0 (size - 1) = 0%Z /\ clamp (Math_ceil v) 0 (size - 1) = 0%Z.
Proof.
  intros Hv Hs. unfold Math_floor, Math_ceil.
  assert (Hf : (Zfloor v < 0)%Z).
  { apply lt_IZR. pose proof (Zfloor_bound v). lra. }
  assert (Hc : (Zceil v <= 0)%Z).
  { apply le_IZR. pose proof (Zceil_bound v). 
    destruct (Z.le_gt_cases (Zceil v) 0) as [Hle|Hgt]; [now apply IZR_le|].
    assert (1 <= IZR (Zceil v)) by (apply IZR_le; lia). lra. }
  unfold clamp. split.
  - destruct (Z.ltb_spec (Zfloor v) 0); [reflexivity|lia].
  - destruct (Z.ltb_spec (Zceil v) 0); [reflexivity|].
    destruct (Z.gtb_spec (Zceil v) (size - 1)); lia.
Qed.

Lemma mix_clamped (lo hi a b v : R) :
  (v < 0 -> a = b) -> lo <= a <= hi -> lo <= b <= hi ->
  lo <= mix a b (rem1 v) <= hi.
Proof.
  intros Hsame Ha Hb. destruct (Rlt_le_dec v 0) as [Hneg|Hpos].
  - rewrite <- (Hsame Hneg), mix_same. exact Ha.
  - apply mix_between; [|exact Ha|exact Hb]. pose proof (rem1_nonneg v Hpos). lra.
Qed.

Lemma sampleCanvasData_bounds (canvas : ISize) (data : list Z) (coords : IPoint) :
  (1 <= width canvas)%Z -> (1 <= height canvas)%Z -> bytes_ok data ->
  0 <= sampleCanvasData canvas data coords <= 255.
Proof.
  intros HW HH Hdata. unfold sampleCanvasData.
  apply mix_clamped.
  - intros Hy. destruct (clamp_negative _ _ Hy HH) as [-> ->]. reflexivity.
  - apply mix_clamped; try now apply sampleCanvasPixel_range.
    intros Hx. now destruct (clamp_negative _ _ Hx HW) as [-> ->].
  - apply mix_clamped; try now apply sampleCanvasPixel_range.
    intros Hx. now destruct (clamp_negative _ _ Hx HW) as [-> ->].
Qed.



(** ** The range of the scores *)

Lemma Rsum_bounds (lo hi : R) (l : list R) :
  (forall v, In v l -> lo <= v <= hi) ->
  INR (length l) * lo <= Rsum l <= INR (length l) * hi.
Proof.
  induction l as [|a l IH]; intros H.
  - cbn. lra.
  - change (Rsum (a :: l)) with (a + Rsum l). cbn [length]. rewrite S_INR.
    pose proof (H a (or_introl eq_refl)).
    assert (Hl : forall v, In v l -> lo <= v <= hi) by (intros v Hv; apply H; now right).
    specialize (IH Hl). lra.
Qed.

Lemma lowestScore_safe : MIN_SAFE_NUMBER < lowestScore.
Proof. unfold MIN_SAFE_NUMBER, lowestScore, LINE_OPACITY. lra. Qed.

Lemma threadPotential_bounds (canvas : ISize) (data : list Z) (a b : IPeg) :
  (1 <= width canvas)%Z -> (1 <= height canvas)%Z -> bytes_ok data ->
  0 < euclidean_distance a b ->
  exists v, threadPotential canvas data a b = Num v /\ lowestScore <= v <= highestScore.
Proof.
  intros HW HH Hdata Hd. rewrite threadPotential_mean by exact Hd.
  eexists. split; [reflexivity|]. unfold mean_contribution.
  set (N := Z.to_nat (Zceil (euclidean_distance a b))).
  assert (HN : 0 < INR N).
  { apply lt_0_INR. pose proof (ceil_pos _ Hd). unfold N. lia. }
  match goal with |- _ <= Rsum ?l / _ <= _ => pose proof (Rsum_bounds lowestScore highestScore l) as Hs end.
  rewrite length_map, length_seq in Hs.
  assert (Hall : forall v, In v (map (fun i => contribution_spec
                    (sampleCanvasData canvas data (interior_point a b N i))) (seq 0 N)) ->
                 lowestScore <= v <= highestScore).
  { intros v Hv. apply in_map_iff in Hv. destruct Hv as (i & <- & _).
    pose proof (sampleCanvasData_bounds canvas data (interior_point a b N i) HW HH Hdata).
    unfold contribution_spec, lowestScore, highestScore, LINE_OPACITY. lra. }
  specialize (Hs Hall). split.
  - apply Rmult_le_reg_r with (INR N); [exact HN|].
    unfold Rdiv. rewrite Rmult_assoc, Rinv_l by lra. lra.
  - apply Rmult_le_reg_r with (INR N); [exact HN|].
    unfold Rdiv. rewrite Rmult_assoc, Rinv_l by lra. lra.
Qed.

(** X2.  On a canvas of at least one pixel that holds its
    [4 * width * height] bytes, all in [[0, 255]], the score of a thread
    between two points at a positive distance is a number, not [NaN],
    between [-137] and [119]: it is above [MIN_SAFE_NUMBER], the score the
    searches start from. *)
Theorem threadPotential_range (canvas : ISize) (data : list Z) (a b : IPeg) :
  (1 <= width canvas)%Z -> (1 <= height canvas)%Z -> bytes_ok data ->
  Z.of_nat (length data) = (4 * (width canvas * height canvas))%Z ->
  0 < euclidean_distance a b ->
  exists v, threadPotential canvas data a b = Num v /\
            -137 <= v <= 119 /\ MIN_SAFE_NUMBER < v.
Proof.
  intros HW HH Hdata _ Hd.
  destruct (threadPotential_bounds canvas data a b HW HH Hdata Hd) as (v & E & Hv).
  exists v. split; [exact E|].
  pose proof lowestScore_safe as Hsafe.
  unfold lowestScore, highestScore, LINE_OPACITY in *. lra.
Qed.

(** ** [randomItem] *)

Lemma item_at_In {T : Type} (l : list T) (i : Z) (v : T) :
  item_at l i = Some v -> In v l.
Proof.
  unfold item_at. destruct (i <? 0)%Z; [discriminate|]. apply nth_error_In.
Qed.

Lemma floor_index (r : R) (n : nat) :
  0 <= r < 1 -> (0 < n)%nat -> (0 <= Math_floor (r * INR n) < Z.of_nat n)%Z.
Proof.
  intros Hr Hn. unfold Math_floor.
  assert (HnR : 0 < INR n) by now apply lt_0_INR.
  pose proof (Zfloor_bound (r * INR n)) as Hb.
  split.
  - apply Zfloor_lub. cbn. nra.
  - apply lt_IZR. rewrite <- INR_IZR_INZ. nra.
Qed.

Section RandomItem.
Variable Math_random : nat -> R.

Lemma randomItem_In {T : Type} (l : list T) (w w' : World) (v : T) :
  randomItem Math_random l w = Normal (Some v) w' -> In v l.
Proof.
  unfold randomItem. destruct (length l =? 0)%nat; [discriminate|].
  intros H. injection H as H _. now apply item_at_In in H.
Qed.

Lemma randomItem_Some {T : Type} (l : list T) (w : World) :
  l <> [] -> 0 <= Math_random (random_reads w) < 1 ->
  exists v, In v l /\
    randomItem Math_random l w
    = Normal (Some v) {| this := this w; clock_reads := clock_reads w;
                         random_reads := S (random_reads w) |}.
Proof.
  intros Hl Hr. unfold randomItem.
  destruct l as [|a l]; [contradiction|]. cbn [length Nat.eqb].
  pose proof (floor_index _ (S (length l)) Hr (Nat.lt_0_succ _)) as Hi.
  unfold item_at.
  destruct (Z.ltb_spec (Math_floor (Math_random (random_reads w) * INR (S (length l)))) 0);
    [lia|].
  destruct (nth_error (a :: l)
              (Z.to_nat (Math_floor (Math_random (random_reads w) * INR (S (length l))))))
    as [v|] eqn:E.
  - exists v. split; [now apply nth_error_In in E|reflexivity].
  - apply nth_error_None in E. cbn [length] in E. lia.
Qed.

(** X3.  [randomItem] returns [null] on the empty list without reading the
    random generator; on a list that is not empty, with [Math.random()] in
    [[0, 1)], it reads the generator once and returns an item of the list,
    the one of index [floor (random * length)]. *)
Theorem randomItem_picks_an_item {T : Type} (l : list T) (w : World) :
  0 <= Math_random (random_reads w) < 1 ->
  (l = [] -> randomItem Math_random l w = Normal None w) /\
  (l <> [] ->
   exists v,
     In v l /\
     nth_error l (Z.to_nat (Zfloor (Math_random (random_reads w) * INR (length l))))
     = Some v /\
     randomItem Math_random l w
     = Normal (Some v) {| this := this w; clock_reads := clock_reads w;
                          random_reads := S (random_reads w) |}).
Proof.
  intros Hr. split.
  - intros ->. reflexivity.
  - intros Hl. destruct (randomItem_Some l w Hl Hr) as (v & Hv & E).
    exists v. split; [exact Hv|]. split; [|exact E].
    unfold randomItem in E. destruct l as [|a l]; [contradiction|].
    cbn [length Nat.eqb] in E. injection E as E. unfold item_at, Math_floor in E.
    destruct (_ <? 0)%Z; [discriminate|exact E].
Qed.
End RandomItem.


(** ** The searches as folds *)

Lemma upload_keeps (t : ThreadComputer) :
  hiddenCanvas (upload t) = hiddenCanvas t /\
  uploaded (upload t) = uploaded t /\
  arePegsTooClose (upload t) = arePegsTooClose t /\
  pegs (upload t) = pegs t /\
  upload (upload t) = upload t.
Proof.
  unfold upload, uploaded. destruct (hiddenCanvasData t) as [data|] eqn:E.
  - rewrite E. repeat split; reflexivity.
  - cbn. repeat split; reflexivity.
Qed.

Lemma after_scoring_keeps (b : bool) (w : World) :
  hiddenCanvas (this (after_scoring b w)) = hiddenCanvas (this w) /\
  uploaded (this (after_scoring b w)) = uploaded (this w) /\
  arePegsTooClose (this (after_scoring b w)) = arePegsTooClose (this w) /\
  pegs (this (after_scoring b w)) = pegs (this w).
Proof.
  destruct b; cbn [after_scoring with_this this]; [|repeat split; reflexivity].
  destruct (upload_keeps (this w)) as (H1 & H2 & H3 & H4 & _). now rewrite H1, H2, H3, H4.
Qed.

Lemma after_scoring_twice (b1 b2 : bool) (w : World) :
  after_scoring b2 (after_scoring b1 w) = after_scoring (b1 || b2) w.
Proof.
  destruct b1, b2; cbn [after_scoring orb]; try reflexivity.
  unfold with_this. cbn [this clock_reads random_reads].
  destruct (upload_keeps (this w)) as (_ & _ & _ & _ & ->). reflexivity.
Qed.

Lemma forEach_tryCandidate {T : Type} (c : IPeg) (item : IPeg -> T) (l : list IPeg) :
  forall (acc : list T * R) (w : World),
    forEach l (fun peg acc => tryCandidate c peg (item peg) acc) acc w
    = Normal (fold_left (fun acc p => consider (score (this w) c p) (item p) acc)
                (filter (accepted (this w) c) l) acc)
             (after_scoring (negb (is_nil (filter (accepted (this w) c) l))) w).
Proof.
  induction l as [|p l IH]; intros acc w; [reflexivity|].
  cbn [filter]. destruct (accepted (this w) c p) eqn:E; unfold accepted in E.
  - apply negb_true_iff in E.
    rewrite (forEach_cons_Normal (fun peg acc => tryCandidate c peg (item peg) acc)
               p l acc _ w _ (tryCandidate_far c p (item p) acc w E)).
    rewrite IH. cbn [fold_left is_nil negb].
    change (with_this (upload (this w)) w) with (after_scoring true w).
    rewrite after_scoring_twice. cbn [orb]. unfold score, accepted.
    destruct (after_scoring_keeps true w) as (-> & -> & -> & _). reflexivity.
  - apply negb_false_iff in E.
    rewrite (forEach_cons_Normal _ _ _ _ acc w w) by now apply tryCandidate_close.
    apply IH.
Qed.

Lemma filter_map_swap {A B : Type} (g : B -> bool) (h : A -> B) (l : list A) :
  filter g (map h l) = map h (filter (fun a => g (h a)) l).
Proof.
  induction l as [|a l IH]; [reflexivity|]. cbn. destruct (g (h a)); cbn; now rewrite IH.
Qed.

Lemma fold_left_map {A B C : Type} (f : C -> B -> C) (h : A -> B) (l : list A) :
  forall acc, fold_left f (map h l) acc = fold_left (fun acc a => f acc (h a)) l acc.
Proof. induction l as [|a l IH]; intros acc; [reflexivity|]. cbn. apply IH. Qed.

Lemma is_nil_app {A : Type} (l1 l2 : list A) :
  is_nil (l1 ++ l2) = is_nil l1 && is_nil l2.
Proof. now destruct l1. Qed.

Lemma is_nil_map {A B : Type} (h : A -> B) (l : list A) : is_nil (map h l) = is_nil l.
Proof. now destruct l. Qed.

Lemma startingLoop_fold (l : list IPeg) :
  forall (acc : list IThread * R) (w : World),
    startingLoop l acc w
    = Normal (fold_left (fun acc th => consider (score (this w) (peg1 th) (peg2 th)) th acc)
                (filter (fun th => accepted (this w) (peg1 th) (peg2 th)) (pairs l)) acc)
             (after_scoring
                (negb (is_nil (filter (fun th => accepted (this w) (peg1 th) (peg2 th))
                                 (pairs l)))) w).
Proof.
  induction l as [|p rest IH]; intros acc w; [reflexivity|].
  rewrite (startingLoop_cons_Normal _ _ _ _ _ _
             (forEach_tryCandidate p (fun q => {| peg1 := p; peg2 := q |}) rest acc w)).
  rewrite IH. cbn [pairs].
  rewrite filter_app, fold_left_app, filter_map_swap, fold_left_map, is_nil_app, is_nil_map.
  cbn [peg1 peg2]. rewrite after_scoring_twice, negb_andb.
  unfold score, accepted.
  match goal with
  | |- context [this (after_scoring ?b w)] =>
      destruct (after_scoring_keeps b w) as (-> & -> & -> & _)
  end.
  reflexivity.
Qed.


(** ** What a search keeps *)

Section BestSoFar.
Context {T : Type} (f : T -> number).

Lemma best_start : best_so_far f [] ([], MIN_SAFE_NUMBER).
Proof.
  constructor; cbn; try contradiction; try lra.
  intros _. split; [reflexivity|]. intros v c [].
Qed.

Lemma best_weaken (seen : list T) (acc : list T * R) (c : T) :
  In c (fst acc) -> best_so_far f seen acc -> In c seen.
Proof. intros Hc H. now destruct (best_candidates f seen acc H c Hc). Qed.

Lemma best_step (seen : list T) (acc : list T * R) (item : T) :
  best_so_far f seen acc ->
  best_so_far f (seen ++ [item]) (consider (f item) item acc).
Proof.
  intros [Hc Hmax Hmin Hempty]. destruct acc as [candidates best]. cbn [fst snd] in *.
  unfold consider. destruct (f item) as [|s] eqn:Ef.
  - constructor; cbn [fst snd].
    + intros c Hin. destruct (Hc c Hin). split; [apply in_or_app; now left|assumption].
    + intros v c Hin Ev. apply in_app_or in Hin. destruct Hin as [Hin|[<-|[]]];
        [now apply (Hmax v c)|congruence].
    + exact Hmin.
    + intros He. destruct (Hempty He) as [Hb Hall]. split; [exact Hb|].
      intros v c Hin Ev. apply in_app_or in Hin. destruct Hin as [Hin|[<-|[]]];
        [now apply (Hall v c)|congruence].
  - unfold Rltb, Reqb. destruct (Rlt_dec best s) as [Hlt|Hge];
      [|destruct (Req_dec_T s best) as [Heq|Hne]]; constructor; cbn [fst snd].
    + intros c [<-|[]]. split; [apply in_or_app; right; now left|exact Ef].
    + intros v c Hin Ev. apply in_app_or in Hin. destruct Hin as [Hin|[<-|[]]].
      * pose proof (Hmax v c Hin Ev). lra.
      * rewrite Ef in Ev. injection Ev as <-. lra.
    + lra.
    + discriminate.
    + intros c Hin. apply in_app_or in Hin. destruct Hin as [Hin|[<-|[]]].
      * destruct (Hc c Hin). split; [apply in_or_app; now left|assumption].
      * split; [apply in_or_app; right; now left|now rewrite Ef, Heq].
    + intros v c Hin Ev. apply in_app_or in Hin. destruct Hin as [Hin|[<-|[]]].
      * now apply (Hmax v c).
      * rewrite Ef in Ev. injection Ev as <-. lra.
    + exact Hmin.
    + intros He. now apply app_eq_nil in He as [_ He].
    + intros c Hin. destruct (Hc c Hin). split; [apply in_or_app; now left|assumption].
    + intros v c Hin Ev. apply in_app_or in Hin. destruct Hin as [Hin|[<-|[]]].
      * now apply (Hmax v c).
      * rewrite Ef in Ev. injection Ev as <-. lra.
    + exact Hmin.
    + intros He. destruct (Hempty He) as [Hb Hall]. split; [exact Hb|].
      intros v c Hin Ev. apply in_app_or in Hin. destruct Hin as [Hin|[<-|[]]].
      * now apply (Hall v c).
      * rewrite Ef in Ev. injection Ev as <-. lra.
Qed.

Lemma best_fold (items : list T) :
  forall (seen : list T) (acc : list T * R),
    best_so_far f seen acc ->
    best_so_far f (seen ++ items)
      (fold_left (fun acc item => consider (f item) item acc) items acc).
Proof.
  induction items as [|item items IH]; intros seen acc H; cbn [fold_left].
  - now rewrite app_nil_r.
  - replace (seen ++ item :: items) with ((seen ++ [item]) ++ items)
      by (now rewrite <- app_assoc).
    apply IH, best_step, H.
Qed.

Lemma best_of_all (items : list T) :
  best_so_far f items
    (fold_left (fun acc item => consider (f item) item acc) items ([], MIN_SAFE_NUMBER)).
Proof. apply (best_fold items [] _ best_start). Qed.

(** No candidate is left exactly when no score reaches [MIN_SAFE_NUMBER]. *)
Lemma best_none_iff (seen : list T) (acc : list T * R) :
  best_so_far f seen acc ->
  fst acc = [] <-> (forall v c, In c seen -> f c = Num v -> v < MIN_SAFE_NUMBER).
Proof.
  intros H. split.
  - intros He. now destruct (best_empty f seen acc H He).
  - intros Hall. destruct (fst acc) as [|c l] eqn:E; [reflexivity|exfalso].
    destruct (best_candidates f seen acc H c) as [Hin Ec]; [rewrite E; now left|].
    pose proof (Hall _ _ Hin Ec). pose proof (best_above_min f seen acc H). lra.
Qed.
End BestSoFar.

Lemma In_pairs (l : list IPeg) (th : IThread) :
  In th (pairs l) <->
  exists i j, (i < j)%nat /\ nth_error l i = Some (peg1 th) /\ nth_error l j = Some (peg2 th).
Proof.
  induction l as [|p rest IH]; cbn [pairs].
  - split; [intros []|]. intros (i & j & _ & Hi & _). now destruct i.
  - rewrite in_app_iff, in_map_iff, IH. split.
    + intros [(q & <- & Hq)|(i & j & Hij & Hi & Hj)].
      * apply In_nth_error in Hq. destruct Hq as (k & Hk).
        exists 0%nat, (S k). split; [lia|]. split; [reflexivity|exact Hk].
      * exists (S i), (S j). split; [lia|]. split; assumption.
    + intros (i & j & Hij & Hi & Hj). destruct j as [|j]; [lia|].
      destruct i as [|i]; cbn [nth_error] in Hi, Hj.
      * left. exists (peg2 th). split; [|now apply nth_error_In in Hj].
        injection Hi as ->. now destruct th.
      * right. exists i, j. split; [lia|]. split; assumption.
Qed.


(** ** The best next peg and the best starting thread *)

Section Searches.
Variable Math_random : nat -> R.

Lemma computeBestNextPeg_fold (c : IPeg) (w : World) :
  computeBestNextPeg Math_random (Some c) w
  = randomItem Math_random
      (fst (fold_left (fun acc p => consider (score (this w) c p) p acc)
              (filter (accepted (this w) c) (pegs (this w))) ([], MIN_SAFE_NUMBER)))
      (after_scoring (negb (is_nil (filter (accepted (this w) c) (pegs (this w))))) w).
Proof.
  unfold computeBestNextPeg. unfold get at 1. unfold bind at 1.
  erewrite bind_Normal
    by exact (forEach_tryCandidate c (fun p => p) (pegs (this w)) ([], MIN_SAFE_NUMBER) w).
  reflexivity.
Qed.

Lemma computeBestStartingThread_fold (w : World) :
  computeBestStartingThread Math_random w
  = randomItem Math_random
      (fst (fold_left
              (fun acc th => consider (score (this w) (peg1 th) (peg2 th)) th acc)
              (filter (fun th => accepted (this w) (peg1 th) (peg2 th)) (pairs (pegs (this w))))
              ([], MIN_SAFE_NUMBER)))
      (after_scoring
         (negb (is_nil (filter (fun th => accepted (this w) (peg1 th) (peg2 th))
                          (pairs (pegs (this w)))))) w).
Proof.
  unfold computeBestStartingThread. unfold get at 1. unfold bind at 1.
  erewrite bind_Normal by apply startingLoop_fold. reflexivity.
Qed.

Lemma accepted_false (t : ThreadComputer) (p q : IPeg) :
  accepted t p q = true <-> arePegsTooClose t p q = false.
Proof. unfold accepted. apply negb_true_iff. Qed.

(** X4.  The peg [computeBestNextPeg] returns from a peg is a peg of the
    layout that is not too close to it, and no peg of the layout that is not
    too close has a greater score. *)
Theorem computeBestNextPeg_is_best (c p : IPeg) (w w' : World) :
  computeBestNextPeg Math_random (Some c) w = Normal (Some p) w' ->
  In p (pegs (this w)) /\
  arePegsTooClose (this w) c p = false /\
  exists best,
    score (this w) c p = Num best /\
    forall q v, In q (pegs (this w)) -> arePegsTooClose (this w) c q = false ->
                score (this w) c q = Num v -> v <= best.
Proof.
  rewrite computeBestNextPeg_fold. intros H. apply randomItem_In in H.
  pose proof (best_of_all (score (this w) c)
                (filter (accepted (this w) c) (pegs (this w)))) as Hbest.
  destruct (best_candidates _ _ _ Hbest p H) as [Hin Ep].
  apply filter_In in Hin. destruct Hin as [Hin Hacc]. apply accepted_false in Hacc.
  split; [exact Hin|]. split; [exact Hacc|].
  eexists. split; [exact Ep|].
  intros q v Hq Hfar Ev. apply (best_is_max _ _ _ Hbest v q); [|exact Ev].
  apply filter_In. split; [exact Hq|now apply accepted_false].
Qed.

(** X5.  The thread [computeBestStartingThread] returns joins two pegs of the
    layout, the first one before the second one in the layout, that are not
    too close, and no such pair of pegs has a greater score. *)
Theorem computeBestStartingThread_is_best (th : IThread) (w w' : World) :
  computeBestStartingThread Math_random w = Normal (Some th) w' ->
  (exists i j, (i < j)%nat /\ nth_error (pegs (this w)) i = Some (peg1 th) /\
               nth_error (pegs (this w)) j = Some (peg2 th)) /\
  arePegsTooClose (this w) (peg1 th) (peg2 th) = false /\
  exists best,
    score (this w) (peg1 th) (peg2 th) = Num best /\
    forall i j a b v,
      (i < j)%nat -> nth_error (pegs (this w)) i = Some a ->
      nth_error (pegs (this w)) j = Some b ->
      arePegsTooClose (this w) a b = false -> score (this w) a b = Num v -> v <= best.
Proof.
  rewrite computeBestStartingThread_fold. intros H. apply randomItem_In in H.
  pose proof (best_of_all (fun th => score (this w) (peg1 th) (peg2 th))
                (filter (fun th => accepted (this w) (peg1 th) (peg2 th))
                   (pairs (pegs (this w))))) as Hbest.
  destruct (best_candidates _ _ _ Hbest th H) as [Hin Ep].
  apply filter_In in Hin. destruct Hin as [Hin Hacc]. apply accepted_false in Hacc.
  split; [now apply In_pairs|]. split; [exact Hacc|].
  eexists. split; [exact Ep|].
  intros i j a b v Hij Hi Hj Hfar Ev.
  apply (best_is_max _ _ _ Hbest v {| peg1 := a; peg2 := b |}); [|exact Ev].
  apply filter_In. split; [|now apply accepted_false].
  apply In_pairs. exists i, j. split; [exact Hij|]. split; assumption.
Qed.

(** X6.  With [Math.random()] in [[0, 1)], [computeBestNextPeg] returns
    [null] from a peg exactly when every peg of the layout is too close to it
    or has a score that is [NaN] or below [MIN_SAFE_NUMBER]; otherwise it
    returns a peg. *)
Theorem computeBestNextPeg_null_iff (c : IPeg) (w : World) :
  (forall k, 0 <= Math_random k < 1) ->
  (exists r w', computeBestNextPeg Math_random (Some c) w = Normal r w') /\
  ((exists w', computeBestNextPeg Math_random (Some c) w = Normal None w')
   <-> forall q v, In q (pegs (this w)) -> arePegsTooClose (this w) c q = false ->
                   score (this w) c q = Num v -> v < MIN_SAFE_NUMBER).
Proof.
  intros Hrandom. rewrite computeBestNextPeg_fold.
  pose proof (best_of_all (score (this w) c)
                (filter (accepted (this w) c) (pegs (this w)))) as Hbest.
  pose proof (best_none_iff _ _ _ Hbest) as Hnone.
  set (acc := fold_left _ _ _) in *. set (w1 := after_scoring _ w).
  assert (Hiff : fst acc = [] <->
            forall q v, In q (pegs (this w)) -> arePegsTooClose (this w) c q = false ->
                        score (this w) c q = Num v -> v < MIN_SAFE_NUMBER).
  { rewrite Hnone. split.
    - intros Hall q v Hq Hfar Ev. apply (Hall v q); [|exact Ev].
      apply filter_In. split; [exact Hq|now apply accepted_false].
    - intros Hall v q Hq Ev. apply filter_In in Hq. destruct Hq as [Hq Hacc].
      apply accepted_false in Hacc. now apply (Hall q v). }
  destruct (fst acc) as [|a l] eqn:E.
  - split; [now exists None, w1|]. rewrite <- Hiff. split; [reflexivity|].
    intros _. now exists w1.
  - destruct (randomItem_Some Math_random (a :: l) w1) as (v & _ & Ev);
      [discriminate|apply Hrandom|].
    split; [eexists _, _; exact Ev|]. rewrite <- Hiff. split; [|discriminate].
    intros (w' & Ew'). rewrite Ev in Ew'. discriminate.
Qed.
End Searches.


(** ** Layouts, whatever the shape *)

Lemma circle_tooClose_sym (a b : IPeg) :
  arePegsTooClose_circle a b = arePegsTooClose_circle b a.
Proof.
  unfold arePegsTooClose_circle. destruct (angle a), (angle b); try reflexivity.
  unfold Math_abs. now rewrite Rabs_minus_sym.
Qed.

Lemma rectangle_tooClose_sym (a b : IPeg) :
  arePegsTooClose_rectangle a b = arePegsTooClose_rectangle b a.
Proof.
  unfold arePegsTooClose_rectangle. now rewrite (Reqb_sym (x a)), (Reqb_sym (y a)).
Qed.

Lemma layout_tooClose_sym (size : ISize) (shape : EShape) (spacing : R) (a b : IPeg) :
  fst (computePegs size shape spacing) a b = fst (computePegs size shape spacing) b a.
Proof.
  destruct shape; cbn [computePegs fst];
    [apply rectangle_tooClose_sym|apply circle_tooClose_sym].
Qed.

Lemma layout_apart (size : ISize) (shape : EShape) (spacing : R) (a b : IPeg) :
  (1 <= width size)%Z -> (1 <= height size)%Z ->
  In a (snd (computePegs size shape spacing)) ->
  In b (snd (computePegs size shape spacing)) ->
  fst (computePegs size shape spacing) a b = false ->
  0 < euclidean_distance a b.
Proof.
  intros HW HH Ha Hb Hfar. destruct shape; cbn [computePegs fst snd] in *.
  - apply distance_pos.
    destruct (Req_dec_T (x a) (x b)) as [Hx|Hx]; [|now left]. exfalso.
    rewrite (rectangle_close_x a b Hx) in Hfar. discriminate.
  - apply In_circle_pegs in Ha, Hb.
    destruct Ha as (i & _ & ->), Hb as (j & _ & ->).
    now apply circle_pegs_apart.
Qed.

(** ** Valid paths *)

Lemma valid_path_last (tooClose : IPeg -> IPeg -> bool) (layout : list IPeg)
      (l : list (option IPeg)) :
  valid_path tooClose layout l -> l <> [] ->
  exists l' a b, l = l' ++ [Some a; Some b] /\ In a layout /\ In b layout /\
                 tooClose a b = false.
Proof.
  intros H Hne. destruct H as [|a b Ha Hb Hfar|l a b Hl Hb Hfar].
  - contradiction.
  - exists [], a, b. repeat split; assumption.
  - exists l, a, b. rewrite <- app_assoc. cbn [app].
    split; [reflexivity|]. split; [|split; assumption].
    clear Hne Hb Hfar. remember (l ++ [Some a]) as k eqn:Ek.
    destruct Hl as [|a' b' Ha' Hb' _|l' a' b' _ Hb' _].
    + now destruct l.
    + change [Some a'; Some b'] with ([Some a'] ++ [Some b']) in Ek.
      apply app_inj_tail in Ek. destruct Ek as [_ Ek]. injection Ek as <-. exact Hb'.
    + apply app_inj_tail in Ek. destruct Ek as [_ Ek]. injection Ek as <-. exact Hb'.
Qed.

Lemma valid_path_pegs (tooClose : IPeg -> IPeg -> bool) (layout : list IPeg)
      (l : list (option IPeg)) :
  valid_path tooClose layout l ->
  Forall (fun entry => exists p, entry = Some p /\ In p layout) l.
Proof.
  induction 1 as [|a b Ha Hb _|l a b _ IH Hb _].
  - constructor.
  - repeat constructor; eexists; split; try reflexivity; assumption.
  - apply Forall_app. split; [exact IH|]. constructor; [|constructor].
    exists b. split; [reflexivity|exact Hb].
Qed.

Lemma valid_path_threads (tooClose : IPeg -> IPeg -> bool) (layout : list IPeg)
      (l : list (option IPeg)) :
  valid_path tooClose layout l ->
  forall l1 l2 a b, l = l1 ++ Some a :: Some b :: l2 -> tooClose a b = false.
Proof.
  induction 1 as [|a0 b0 _ _ Hfar|l a0 b0 Hl IH _ Hfar]; intros l1 l2 a b E.
  - now destruct l1.
  - destruct l1 as [|e1 [|e2 [|e3 l1]]]; cbn in E; try discriminate.
    now injection E as -> -> _.
  - destruct l2 as [|e l2 _] using rev_ind.
    + replace (l1 ++ [Some a; Some b]) with ((l1 ++ [Some a]) ++ [Some b]) in E
        by now rewrite <- app_assoc.
      apply app_inj_tail in E. destruct E as [E Eb]. injection Eb as <-.
      apply app_inj_tail in E. destruct E as [_ Ea]. now injection Ea as <-.
    + replace (l1 ++ Some a :: Some b :: l2 ++ [e])
        with ((l1 ++ Some a :: Some b :: l2) ++ [e]) in E
        by (rewrite <- app_assoc; reflexivity).
      apply app_inj_tail in E. destruct E as [E _]. exact (IH _ _ _ _ E).
Qed.


(** ** A planner in working order stays so *)

Lemma write_at_bytes (data : list Z) (v : Z) :
  bytes_ok data -> (0 <= v <= 255)%Z -> forall i, bytes_ok (write_at data i v).
Proof.
  unfold bytes_ok. intros H Hv. induction H as [|d data Hd Hdata IH]; intros i;
    destruct i; cbn [write_at]; constructor; auto.
Qed.

Lemma toUint8Clamped_range (v : R) : (0 <= toUint8Clamped v <= 255)%Z.
Proof. unfold toUint8Clamped. apply clamp_range. lia. Qed.

Lemma adjust_pixel_bytes (invertColors : bool) (i : Z) (data : list Z) :
  bytes_ok data -> bytes_ok (adjust_pixel invertColors i data).
Proof.
  intros H. unfold adjust_pixel.
  repeat apply write_at_bytes; try apply toUint8Clamped_range. exact H.
Qed.

Lemma planned_upload (t : ThreadComputer) : planned t -> planned (upload t).
Proof.
  intros H. unfold upload. destruct (hiddenCanvasData t) eqn:E; [exact H|].
  destruct H as [Hi Hs Hl Hb Hc Hp]. constructor; cbn; assumption.
Qed.

Lemma planned_after_scoring (b : bool) (w : World) :
  planned (this w) -> planned (this (after_scoring b w)).
Proof. destruct b; cbn [after_scoring with_this this]; [apply planned_upload|trivial]. Qed.

Lemma planned_set_target (v : Z) (t : ThreadComputer) :
  planned t -> planned (set_targetNbSegments v t).
Proof. intros [Hi Hs Hl Hb Hc Hp]. constructor; cbn; assumption. Qed.

Lemma canvas_not_empty (t : ThreadComputer) :
  planned t -> (1 <= width (hiddenCanvas t))%Z /\ (1 <= height (hiddenCanvas t))%Z.
Proof.
  intros H. rewrite (planned_size t H).
  destruct (planned_image t H). now apply computeBestSize_positive.
Qed.

Lemma planned_tooClose (t : ThreadComputer) :
  planned t ->
  arePegsTooClose t = fst (computePegs (hiddenCanvas t) (pegsShape t) (pegsSpacing t)) /\
  pegs t = snd (computePegs (hiddenCanvas t) (pegsShape t) (pegsSpacing t)).
Proof. intros H. now rewrite <- (planned_layout t H). Qed.

(** In a planner in working order an accepted pair of pegs can be taken in
    either order and has a score above [MIN_SAFE_NUMBER]. *)
Lemma planned_score (t : ThreadComputer) (a b : IPeg) :
  planned t -> In a (pegs t) -> In b (pegs t) -> arePegsTooClose t a b = false ->
  arePegsTooClose t b a = false /\
  exists v, score t a b = Num v /\ MIN_SAFE_NUMBER < v.
Proof.
  intros H Ha Hb Hfar. destruct (planned_tooClose t H) as [Ec Ep].
  destruct (canvas_not_empty t H) as [HW HH].
  split.
  - rewrite Ec in *. now rewrite layout_tooClose_sym.
  - assert (Hd : 0 < euclidean_distance a b).
    { rewrite Ec in Hfar. rewrite Ep in Ha, Hb.
      exact (layout_apart _ _ _ a b HW HH Ha Hb Hfar). }
    destruct (threadPotential_bounds (hiddenCanvas t) (uploaded t) a b HW HH
                (planned_cache t H) Hd) as (v & Ev & Hv).
    exists v. split; [exact Ev|]. pose proof lowestScore_safe. lra.
Qed.

Section Planned.
Variable drawImage : HTMLImageElement -> ISize -> list Z.
Variable strokeLine : HTMLCanvasElement -> R -> IPoint -> IPoint -> list Z.
Variable performance_now : nat -> R.
Variable Math_random : nat -> R.

(** What the browser guarantees: bitmaps hold bytes and [Math.random()] is in
    [[0, 1)]. *)
Hypothesis drawImage_bytes : forall image size, bytes_ok (drawImage image size).
Hypothesis strokeLine_bytes :
  forall canvas alpha a b, bytes_ok (bitmap canvas) -> bytes_ok (strokeLine canvas alpha a b).
Hypothesis Math_random_range : forall k, 0 <= Math_random k < 1.

Lemma freshCanvas_bytes (invertColors : bool) (image : HTMLImageElement) :
  bytes_ok (bitmap (freshCanvas drawImage invertColors image)).
Proof.
  unfold freshCanvas. cbn [bitmap]. unfold for_loop.
  apply for_range_invariant; [intros i a; apply adjust_pixel_bytes|apply drawImage_bytes].
Qed.

Lemma constructor_planned (P : ParametersT) (image : HTMLImageElement)
      (shape : EShape) (spacing : R) :
  (1 <= width image)%Z -> (1 <= height image)%Z ->
  planned (constructor drawImage P image shape spacing).
Proof.
  intros HW HH. constructor; cbn.
  - split; assumption.
  - reflexivity.
  - now destruct (computePegs _ shape spacing).
  - apply freshCanvas_bytes.
  - apply freshCanvas_bytes.
  - constructor.
Qed.

Lemma reset_planned (P : ParametersT) (w : World) :
  planned (this w) ->
  exists w0, reset drawImage P w = Normal tt w0 /\ planned (this w0) /\
             threadPegs (this w0) = [].
Proof.
  intros [Hi Hs Hl Hb Hc Hp]. eexists. split; [reflexivity|]. split; [|reflexivity].
  constructor; cbn.
  - exact Hi.
  - reflexivity.
  - rewrite Hs. now destruct (computePegs _ (Parameters_shape P) (Parameters_pegsSpacing P)).
  - apply freshCanvas_bytes.
  - unfold uploaded in *. cbn. destruct (hiddenCanvasData (this w)); [exact Hc|].
    apply freshCanvas_bytes.
  - constructor.
Qed.

Lemma last_two {A : Type} (l : list A) (a b d : A) : last (l ++ [a; b]) d = b.
Proof.
  replace (l ++ [a; b]) with ((l ++ [a]) ++ [b]) by now rewrite <- app_assoc.
  apply last_last.
Qed.

Lemma computeThread_first_Some (w w2 : World) (th : IThread) :
  threadPegs (this w) = [] ->
  computeBestStartingThread Math_random w = Normal (Some th) w2 ->
  computeThread strokeLine Math_random w
  = Normal tt (with_this
                 (strokeThread strokeLine (peg1 th) (peg2 th)
                    (set_threadPegs ((threadPegs (this w2) ++ [Some (peg1 th)])
                                     ++ [Some (peg2 th)]) (this w2))) w2).
Proof.
  intros Hpath E. unfold computeThread, chooseThread. unfold get at 1. unfold bind at 1 2.
  rewrite Hpath. cbn [length Nat.eqb]. rewrite (bind_Normal _ _ _ _ _ E). reflexivity.
Qed.

Lemma computeThread_first_None (w w2 : World) :
  threadPegs (this w) = [] ->
  computeBestStartingThread Math_random w = Normal None w2 ->
  computeThread strokeLine Math_random w = TypeError w2.
Proof.
  intros Hpath E. unfold computeThread, chooseThread. unfold get at 1. unfold bind at 1 2.
  rewrite Hpath. cbn [length Nat.eqb]. rewrite (bind_Normal _ _ _ _ _ E). reflexivity.
Qed.

Lemma computeThread_later_Some (w w2 : World) (c p : IPeg) :
  threadPegs (this w) <> [] ->
  last (threadPegs (this w)) None = Some c ->
  computeBestNextPeg Math_random (Some c) w = Normal (Some p) w2 ->
  computeThread strokeLine Math_random w
  = Normal tt (with_this
                 (strokeThread strokeLine c p
                    (set_threadPegs (threadPegs (this w2) ++ [Some p]) (this w2))) w2).
Proof.
  intros Hpath Hlast E. unfold computeThread, chooseThread. unfold get at 1.
  unfold bind at 1 2.
  destruct (threadPegs (this w)) as [|q l] eqn:Ep; [contradiction|].
  cbn [length Nat.eqb]. rewrite Hlast. rewrite (bind_Normal _ _ _ _ _ E). reflexivity.
Qed.

Lemma planned_drawn (t : ThreadComputer) (a b : IPeg) (path : list (option IPeg)) :
  planned t -> valid_path (arePegsTooClose t) (pegs t) path ->
  planned (strokeThread strokeLine a b (set_threadPegs path t)).
Proof.
  intros [Hi Hs Hl Hb Hc Hp] Hpath. constructor; cbn; try assumption.
  - now apply strokeLine_bytes.
  - now apply strokeLine_bytes.
Qed.

Lemma after_scoring_path (b : bool) (w : World) :
  threadPegs (this (after_scoring b w)) = threadPegs (this w).
Proof.
  destruct b; cbn [after_scoring with_this this]; [|reflexivity].
  unfold upload. now destruct (hiddenCanvasData (this w)).
Qed.

(** After the first segment a planning step always returns, with one more
    valid thread on the path. *)
Lemma planned_later_step (w : World) :
  planned (this w) -> threadPegs (this w) <> [] ->
  exists w', computeThread strokeLine Math_random w = Normal tt w' /\
             planned (this w') /\ threadPegs (this w') <> [].
Proof.
  intros H Hne.
  destruct (valid_path_last _ _ _ (planned_path _ H) Hne)
    as (l' & a & b & El & Ha & Hb & Hfar).
  assert (Hlast : last (threadPegs (this w)) None = Some b) by (rewrite El; apply last_two).
  destruct (planned_score _ a b H Ha Hb Hfar) as [_ _].
  assert (Hback : arePegsTooClose (this w) b a = false).
  { destruct (planned_score _ a b H Ha Hb Hfar) as [Hsym _]. exact Hsym. }
  destruct (planned_score _ b a H Hb Ha Hback) as [_ (v & Ev & Hv)].
  pose proof (computeBestNextPeg_fold Math_random b w) as Efold.
  pose proof (best_of_all (score (this w) b)
                (filter (accepted (this w) b) (pegs (this w)))) as Hbest.
  set (acc := fold_left _ _ _) in *. set (w1 := after_scoring _ w) in *.
  assert (Hcand : fst acc <> []).
  { intros He. pose proof (proj1 (best_none_iff _ _ _ Hbest) He) as Hall.
    assert (v < MIN_SAFE_NUMBER); [|lra].
    apply (Hall v a); [|exact Ev]. apply filter_In. split; [exact Ha|].
    now apply accepted_false. }
  destruct (randomItem_Some Math_random (fst acc) w1 Hcand (Math_random_range _))
    as (p & Hp & Ep).
  rewrite Ep in Efold.
  destruct (best_candidates _ _ _ Hbest p Hp) as [Hin _].
  apply filter_In in Hin. destruct Hin as [Hin Hacc]. apply accepted_false in Hacc.
  eexists. split; [exact (computeThread_later_Some w _ b p Hne Hlast Efold)|].
  cbn [with_this this]. split;
    [|cbn [strokeThread set_hiddenCanvasData set_hiddenCanvas set_threadPegs threadPegs];
      intros E; apply app_eq_nil in E; destruct E as [_ E]; discriminate E].
  assert (H1 : planned (this w1)) by (apply planned_after_scoring; exact H).
  assert (Ec : arePegsTooClose (this w1) = arePegsTooClose (this w))
    by apply after_scoring_keeps.
  assert (Epegs : pegs (this w1) = pegs (this w)) by apply after_scoring_keeps.
  assert (Epath : threadPegs (this w1) = threadPegs (this w)) by apply after_scoring_path.
  apply planned_drawn; [exact H1|].
  rewrite Epath, El.
  replace (l' ++ [Some a; Some b]) with ((l' ++ [Some a]) ++ [Some b])
    by now rewrite <- app_assoc.
  rewrite Ec, Epegs. apply valid_next; [|exact Hin|exact Hacc].
  replace ((l' ++ [Some a]) ++ [Some b]) with (l' ++ [Some a; Some b])
    by now rewrite <- app_assoc.
  rewrite <- El. exact (planned_path _ H).
Qed.

(** From the empty path a planning step returns with a valid starting thread
    on the path, or, when every pair of pegs is too close, throws and leaves
    the planner as it was. *)
Lemma planned_first_step (w : World) :
  planned (this w) -> threadPegs (this w) = [] ->
  (exists w', computeThread strokeLine Math_random w = Normal tt w' /\
              planned (this w') /\ threadPegs (this w') <> [])
  \/ (computeThread strokeLine Math_random w = TypeError w /\
      forall i j a b, (i < j)%nat -> nth_error (pegs (this w)) i = Some a ->
                      nth_error (pegs (this w)) j = Some b ->
                      arePegsTooClose (this w) a b = true).
Proof.
  intros H Hpath.
  pose proof (computeBestStartingThread_fold Math_random w) as Efold.
  pose proof (best_of_all (fun th => score (this w) (peg1 th) (peg2 th))
                (filter (fun th => accepted (this w) (peg1 th) (peg2 th))
                   (pairs (pegs (this w))))) as Hbest.
  set (valid := filter _ (pairs (pegs (this w)))) in *.
  set (acc := fold_left _ valid _) in *. set (w1 := after_scoring _ w) in *.
  assert (Hvalid : forall th, In th valid ->
            In (peg1 th) (pegs (this w)) /\ In (peg2 th) (pegs (this w)) /\
            arePegsTooClose (this w) (peg1 th) (peg2 th) = false).
  { intros th Hth. apply filter_In in Hth. destruct Hth as [Hin Hacc].
    apply accepted_false in Hacc. apply In_pairs in Hin.
    destruct Hin as (i & j & _ & Hi & Hj).
    split; [now apply nth_error_In in Hi|]. split; [now apply nth_error_In in Hj|exact Hacc]. }
  destruct valid as [|th0 rest] eqn:Evalid.
  - right. cbn in acc, w1. subst acc w1. cbn [fst] in Efold.
    split; [exact (computeThread_first_None w w Hpath Efold)|].
    intros i j a b Hij Hi Hj.
    destruct (arePegsTooClose (this w) a b) eqn:E; [reflexivity|exfalso].
    assert (Hin : In {| peg1 := a; peg2 := b |} []).
    { rewrite <- Evalid. apply filter_In. split; [|now apply accepted_false].
      apply In_pairs. exists i, j. split; [exact Hij|]. split; assumption. }
    exact Hin.
  - left.
    assert (Hcand : fst acc <> []).
    { intros He. pose proof (proj1 (best_none_iff _ _ _ Hbest) He) as Hall.
      destruct (Hvalid th0 (or_introl eq_refl)) as (H1 & H2 & Hfar).
      destruct (planned_score _ _ _ H H1 H2 Hfar) as [_ (v & Ev & Hv)].
      assert (v < MIN_SAFE_NUMBER); [|lra].
      apply (Hall v th0); [now left|exact Ev]. }
    destruct (randomItem_Some Math_random (fst acc) w1 Hcand (Math_random_range _))
      as (th & Hth & Eth).
    rewrite Eth in Efold.
    destruct (best_candidates _ _ _ Hbest th Hth) as [Hin _].
    destruct (Hvalid th Hin) as (H1 & H2 & Hfar).
    eexists. split; [exact (computeThread_first_Some w _ th Hpath Efold)|].
    cbn [with_this this]. split;
    [|cbn [strokeThread set_hiddenCanvasData set_hiddenCanvas set_threadPegs threadPegs];
      intros E; apply app_eq_nil in E; destruct E as [_ E]; discriminate E].
    assert (Hw1 : planned (this w1)) by (apply planned_after_scoring; exact H).
    assert (Ec : arePegsTooClose (this w1) = arePegsTooClose (this w))
      by apply after_scoring_keeps.
    assert (Epegs : pegs (this w1) = pegs (this w)) by apply after_scoring_keeps.
    assert (Epath : threadPegs (this w1) = threadPegs (this w))
      by apply after_scoring_path.
    apply planned_drawn; [exact Hw1|].
    rewrite Epath, Hpath, Ec, Epegs. cbn [app].
    now apply valid_start.
Qed.
End Planned.


(** ** The source image never changes *)

Section SourceImage.
Variable drawImage : HTMLImageElement -> ISize -> list Z.
Variable strokeLine : HTMLCanvasElement -> R -> IPoint -> IPoint -> list Z.
Variable performance_now : nat -> R.
Variable Math_random : nat -> R.

Lemma searched_sourceImage (w w' : World) :
  searched w w' -> sourceImage (this w') = sourceImage (this w).
Proof. unfold searched, same_but_cache. intros H. now rewrite H. Qed.

Lemma computeThread_sourceImage_any (w : World) :
  match computeThread strokeLine Math_random w with
  | Normal _ w' | TypeError w' => sourceImage (this w') = sourceImage (this w)
  end.
Proof.
  unfold computeThread, chooseThread. unfold get at 1. unfold bind at 1 2.
  cbn beta iota.
  destruct (threadPegs (this w)) as [|q l]; cbn [length Nat.eqb].
  - destruct (computeBestStartingThread_returns Math_random w) as (r & w1 & E1 & R1).
    apply searched_sourceImage in R1.
    rewrite (bind_Normal _ _ _ _ _ E1).
    destruct r as [st|]; unfold push, drawThreadOnHiddenCanvas, bind, modify, ret, throw;
      cbn; exact R1.
  - destruct (computeBestNextPeg_ends Math_random (last (q :: l) None) w)
      as (w1 & R1 & [[r E1]|[Hnone E1]]); apply searched_sourceImage in R1.
    + rewrite (bind_Normal _ _ _ _ _ E1).
      unfold push, drawThreadOnHiddenCanvas, bind, modify, ret, throw. cbn beta iota.
      destruct (last (q :: l) None) as [a|]; [destruct r as [b|]|]; cbn; exact R1.
    + rewrite (bind_TypeError _ _ _ _ E1). exact R1.
Qed.

Lemma computeThread_sourceImage (w w' : World) :
  computeThread strokeLine Math_random w = Normal tt w'
  \/ computeThread strokeLine Math_random w = TypeError w' ->
  sourceImage (this w') = sourceImage (this w).
Proof.
  intros H. pose proof (computeThread_sourceImage_any w) as Hany.
  destruct H as [H|H]; rewrite H in Hany; exact Hany.
Qed.

Lemma growLoop_sourceImage (start maxMs : R) (fuel : nat) :
  forall w w',
    growLoop strokeLine performance_now Math_random fuel start maxMs w = Normal tt w'
    \/ growLoop strokeLine performance_now Math_random fuel start maxMs w = TypeError w' ->
    sourceImage (this w') = sourceImage (this w).
Proof.
  induction fuel as [|fuel IH]; intros w w' H.
  - cbn in H. unfold ret in H. destruct H as [H|H]; [|discriminate]. now injection H as <-.
  - rewrite growLoop_S in H.
    destruct (nbSegments (this w) <? targetNbSegments (this w))%Z;
      [destruct (Rltb _ _)|].
    + unfold bind in H.
      destruct (computeThread strokeLine Math_random (tick w)) as [[] w1|w1] eqn:E.
      * rewrite (IH w1 w' H).
        exact (computeThread_sourceImage (tick w) w1 (or_introl E)).
      * destruct H as [H|H]; [discriminate|]. injection H as <-.
        exact (computeThread_sourceImage (tick w) w1 (or_intror E)).
    + destruct H as [H|H]; [|discriminate]. now injection H as <-.
    + destruct H as [H|H]; [|discriminate]. now injection H as <-.
Qed.

Lemma computeNextThreads_sourceImage (P : ParametersT) (maxMs : R) (w w' : World) :
  (exists done, computeNextThreads drawImage strokeLine performance_now Math_random
                  P maxMs w = Normal done w')
  \/ computeNextThreads drawImage strokeLine performance_now Math_random P maxMs w
     = TypeError w' ->
  sourceImage (this w') = sourceImage (this w).
Proof.
  rewrite computeNextThreads_unfold. set (v := with_this _ _). intros H.
  assert (Hv : sourceImage (this v) = sourceImage (this w)).
  { unfold v. cbn [with_this this set_targetNbSegments sourceImage].
    now destruct (nbSegments (this w) >? Parameters_nbLines P)%Z. }
  unfold grow, bind, get, ret in H.
  match type of H with
  | context [growLoop _ _ _ ?f ?s ?m v] =>
      pose proof (growLoop_sourceImage s m f v) as Hloop;
      destruct (growLoop strokeLine performance_now Math_random f s m v) as [[] w1|w1]
  end.
  - destruct H as [[done H]|H]; [|discriminate].
    injection H as _ <-. rewrite <- Hv. apply Hloop. now left.
  - destruct H as [[done H]|H]; [discriminate|].
    injection H as <-. rewrite <- Hv. apply Hloop. now right.
Qed.
End SourceImage.


(** ** The planner stays in working order *)

Section Invariant.
Variable drawImage : HTMLImageElement -> ISize -> list Z.
Variable strokeLine : HTMLCanvasElement -> R -> IPoint -> IPoint -> list Z.
Variable performance_now : nat -> R.
Variable Math_random : nat -> R.
Hypothesis drawImage_bytes : forall image size, bytes_ok (drawImage image size).
Hypothesis strokeLine_bytes :
  forall canvas alpha a b, bytes_ok (bitmap canvas) -> bytes_ok (strokeLine canvas alpha a b).
Hypothesis Math_random_range : forall k, 0 <= Math_random k < 1.

Lemma growLoop_planned (start maxMs : R) (fuel : nat) :
  forall w, planned (this w) ->
    match growLoop strokeLine performance_now Math_random fuel start maxMs w with
    | Normal _ w' => planned (this w')
    | TypeError w' =>
        planned (this w') /\ threadPegs (this w') = [] /\ no_starting_thread (this w')
    end.
Proof.
  induction fuel as [|fuel IH]; intros w H; [exact H|].
  rewrite growLoop_S.
  destruct (nbSegments (this w) <? targetNbSegments (this w))%Z; [|exact H].
  destruct (Rltb _ _); [|exact H].
  assert (Ht : planned (this (tick w))) by exact H.
  unfold bind.
  destruct (threadPegs (this (tick w))) as [|q l] eqn:Epath.
  - destruct (planned_first_step strokeLine Math_random strokeLine_bytes Math_random_range
                (tick w) Ht Epath) as [(w1 & E & H1 & _)|[E Hnone]]; rewrite E.
    + apply IH, H1.
    + split; [exact Ht|]. split; [exact Epath|exact Hnone].
  - destruct (planned_later_step strokeLine Math_random strokeLine_bytes Math_random_range
                (tick w) Ht) as (w1 & E & H1 & _); [now rewrite Epath|].
    rewrite E. apply IH, H1.
Qed.

Lemma computeNextThreads_planned (P : ParametersT) (maxMs : R) (w : World) :
  planned (this w) ->
  match computeNextThreads drawImage strokeLine performance_now Math_random P maxMs w with
  | Normal _ w' => planned (this w')
  | TypeError w' =>
      planned (this w') /\ threadPegs (this w') = [] /\ no_starting_thread (this w')
  end.
Proof.
  intros H. rewrite computeNextThreads_unfold. set (v := with_this _ _).
  assert (Hv : planned (this v)).
  { unfold v. cbn [with_this this]. apply planned_set_target.
    destruct (nbSegments (this w) >? Parameters_nbLines P)%Z; [|exact H].
    destruct (reset_planned drawImage drawImage_bytes P (tick w) H) as (w0 & E & H0 & _).
    now rewrite E. }
  unfold grow, bind, get, ret.
  match goal with
  | |- context [growLoop _ _ _ ?f ?s ?m v] =>
      pose proof (growLoop_planned s m f v Hv) as Hloop;
      destruct (growLoop strokeLine performance_now Math_random f s m v) as [[] w1|w1]
  end; exact Hloop.
Qed.

Lemma reachable_planned (w : World) :
  reachable drawImage strokeLine performance_now Math_random w ->
  image_not_empty (this w) -> planned (this w).
Proof.
  induction 1 as [P image shape spacing clock rnd
                 |P w w' _ IH E|P maxMs w done w' _ IH E|P maxMs w w' _ IH E
                 |v w _ IH|w clock rnd _ IH]; intros Himage.
  - destruct Himage. now apply constructor_planned.
  - assert (Hw : planned (this w)).
    { apply IH. injection E as <-. exact Himage. }
    destruct (reset_planned drawImage drawImage_bytes P w Hw) as (w0 & E0 & H0 & _).
    rewrite E0 in E. now injection E as <-.
  - assert (Hw : planned (this w)).
    { apply IH. unfold image_not_empty in *.
      rewrite <- (computeNextThreads_sourceImage drawImage strokeLine performance_now
                    Math_random P maxMs w w'); [exact Himage|left; now exists done]. }
    pose proof (computeNextThreads_planned P maxMs w Hw) as Hnext.
    now rewrite E in Hnext.
  - assert (Hw : planned (this w)).
    { apply IH. unfold image_not_empty in *.
      rewrite <- (computeNextThreads_sourceImage drawImage strokeLine performance_now
                    Math_random P maxMs w w'); [exact Himage|now right]. }
    pose proof (computeNextThreads_planned P maxMs w Hw) as Hnext.
    rewrite E in Hnext. apply Hnext.
  - apply planned_set_target, IH, Himage.
  - apply IH, Himage.
Qed.

(** X7.  With bitmaps of bytes, [Math.random()] in [[0, 1)] and a source
    image that is not empty, the path of every reachable state of the
    planner is made of pegs of the layout, never [null], and two consecutive
    pegs of the path are never too close. *)
Theorem reachable_path_is_valid (w : World) :
  reachable drawImage strokeLine performance_now Math_random w ->
  image_not_empty (this w) ->
  Forall (fun entry => exists p, entry = Some p /\ In p (pegs (this w)))
         (threadPegs (this w)) /\
  forall l1 l2 a b,
    threadPegs (this w) = l1 ++ Some a :: Some b :: l2 ->
    arePegsTooClose (this w) a b = false.
Proof.
  intros Hreach Himage.
  pose proof (planned_path _ (reachable_planned w Hreach Himage)) as Hpath.
  split; [exact (valid_path_pegs _ _ _ Hpath)|exact (valid_path_threads _ _ _ Hpath)].
Qed.

(** X8.  Under the same conditions [computeNextThreads] can only throw
    before the first segment: when it throws, the path is empty and every
    pair of pegs of the layout is too close. *)
Theorem computeNextThreads_throws_only_without_thread
        (P : ParametersT) (maxMs : R) (w w' : World) :
  reachable drawImage strokeLine performance_now Math_random w ->
  image_not_empty (this w) ->
  computeNextThreads drawImage strokeLine performance_now Math_random P maxMs w
  = TypeError w' ->
  threadPegs (this w') = [] /\
  forall i j a b, (i < j)%nat -> nth_error (pegs (this w')) i = Some a ->
                  nth_error (pegs (this w')) j = Some b ->
                  arePegsTooClose (this w') a b = true.
Proof.
  intros Hreach Himage E.
  pose proof (computeNextThreads_planned P maxMs w (reachable_planned w Hreach Himage))
    as Hnext.
  rewrite E in Hnext. destruct Hnext as (_ & Hpath & Hnone). split; assumption.
Qed.

(** X9.  Under the same conditions, in every reachable state the canvas has
    the size [computeBestSize] gives for the source image, at least one
    pixel each way, the pegs and the proximity predicate are those
    [computePegs] gives for that canvas, the stored shape and the stored
    spacing, and the canvas and its CPU copy hold bytes. *)
Theorem reachable_layout_matches_canvas (w : World) :
  reachable drawImage strokeLine performance_now Math_random w ->
  image_not_empty (this w) ->
  canvas_size (hiddenCanvas (this w))
  = computeBestSize (sourceImage (this w)) HIDDEN_CANVAS_SIZE /\
  (1 <= width (hiddenCanvas (this w)))%Z /\
  (1 <= height (hiddenCanvas (this w)))%Z /\
  (arePegsTooClose (this w), pegs (this w))
  = computePegs (hiddenCanvas (this w)) (pegsShape (this w)) (pegsSpacing (this w)) /\
  bytes_ok (bitmap (hiddenCanvas (this w))) /\
  bytes_ok (uploaded (this w)).
Proof.
  intros Hreach Himage.
  pose proof (reachable_planned w Hreach Himage) as H.
  destruct (canvas_not_empty _ H) as [HW HH].
  destruct H as [_ Hs Hl Hb Hc _]. repeat split; assumption.
Qed.
End Invariant.


(** ** When there is no thread to start from *)

Lemma rectangle_pegs_x0 (H : Z) (s : R) (p : IPeg) :
  In p (rectangle_pegs {| width := 1; height := H |} s) -> x p = 0.
Proof.
  rewrite rectangle_pegs_eq. cbn [width height]. change (1 - 1)%Z with 0%Z.
  rewrite !in_app_iff, !in_flat_map.
  intros [Hc|[(i & _ & Hi)|(j & _ & Hj)]].
  - cbn in Hc. destruct Hc as [<-|[<-|[<-|[<-|[]]]]]; reflexivity.
  - cbn in Hi. destruct Hi as [<-|[<-|[]]]; cbn; lra.
  - cbn in Hj. destruct Hj as [<-|[<-|[]]]; reflexivity.
Qed.

Lemma rectangle_pegs_y0 (W : Z) (s : R) (p : IPeg) :
  In p (rectangle_pegs {| width := W; height := 1 |} s) -> y p = 0.
Proof.
  rewrite rectangle_pegs_eq. cbn [width height]. change (1 - 1)%Z with 0%Z.
  rewrite !in_app_iff, !in_flat_map.
  intros [Hc|[(i & _ & Hi)|(j & _ & Hj)]].
  - cbn in Hc. destruct Hc as [<-|[<-|[<-|[<-|[]]]]]; reflexivity.
  - cbn in Hi. destruct Hi as [<-|[<-|[]]]; reflexivity.
  - cbn in Hj. destruct Hj as [<-|[<-|[]]]; cbn; lra.
Qed.

(** X10.  On a canvas of [W] by [H] pixels, [W, H >= 1], the rectangle
    layout has no thread to start from (every pair of pegs is too close)
    exactly when the canvas is one pixel wide or one pixel high. *)
Theorem rectangle_stalls_iff_thin (W H : Z) (s : R) :
  (1 <= W)%Z -> (1 <= H)%Z ->
  let layout := computePegs {| width := W; height := H |} RECTANGLE s in
  (forall i j a b, (i < j)%nat -> nth_error (snd layout) i = Some a ->
                   nth_error (snd layout) j = Some b -> fst layout a b = true)
  <-> (W = 1 \/ H = 1)%Z.
Proof.
  intros HW HH layout. unfold layout. cbn [computePegs fst snd]. split.
  - intros Hall.
    destruct (Z.eq_dec W 1) as [|HW1]; [now left|].
    destruct (Z.eq_dec H 1) as [|HH1]; [now right|]. exfalso.
    specialize (Hall 0%nat 2%nat (rectangle_peg 0 0)
                  (rectangle_peg (IZR (W - 1)) (IZR (H - 1)))).
    rewrite rectangle_pegs_eq in Hall. cbn [width height app nth_error] in Hall.
    specialize (Hall ltac:(lia) eq_refl eq_refl).
    apply rectangle_tooClose_iff in Hall. cbn in Hall.
    assert (0 < IZR (W - 1)) by (apply IZR_lt; lia).
    assert (0 < IZR (H - 1)) by (apply IZR_lt; lia).
    destruct Hall; lra.
  - intros [-> | ->] i j a b _ Hi Hj; apply nth_error_In in Hi, Hj.
    + apply rectangle_close_x.
      now rewrite (rectangle_pegs_x0 H s a Hi), (rectangle_pegs_x0 H s b Hj).
    + apply rectangle_close_y.
      now rewrite (rectangle_pegs_y0 W s a Hi), (rectangle_pegs_y0 W s b Hj).
Qed.

Lemma half_turn (n : Z) :
  (2 <= n)%Z ->
  PI / 2 <= IZR (n / 2) * (2 * PI / IZR n) <= PI.
Proof.
  intros Hn. pose proof PI_RGT_0 as Hpi.
  assert (Hk : (2 * (n / 2) <= n < 2 * (n / 2) + 2)%Z).
  { pose proof (Z.div_mod n 2 ltac:(lia)). pose proof (Z.mod_pos_bound n 2 ltac:(lia)). lia. }
  set (k := (n / 2)%Z) in *.
  assert (Hn0 : 0 < IZR n) by (apply IZR_lt; lia).
  assert (H2k : 2 * IZR k <= IZR n).
  { rewrite <- mult_IZR. apply IZR_le. lia. }
  assert (H4k : IZR n <= 4 * IZR k).
  { rewrite <- mult_IZR. apply IZR_le. lia. }
  replace (IZR k * (2 * PI / IZR n)) with (2 * PI * (IZR k / IZR n)) by (field; lra).
  assert (Hq : 1 / 4 <= IZR k / IZR n <= 1 / 2).
  { split.
    - apply Rmult_le_reg_r with (IZR n); [exact Hn0|].
      unfold Rdiv at 2. rewrite Rmult_assoc, Rinv_l by lra. lra.
    - apply Rmult_le_reg_r with (IZR n); [exact Hn0|].
      unfold Rdiv at 1. rewrite Rmult_assoc, Rinv_l by lra. lra. }
  nra.
Qed.

(** X11.  The circle layout has no thread to start from (every pair of pegs
    is too close) exactly when it has one peg at most. *)
Theorem circle_stalls_iff_single_peg (size : ISize) (s : R) :
  let layout := computePegs size CIRCLE s in
  (forall i j a b, (i < j)%nat -> nth_error (snd layout) i = Some a ->
                   nth_error (snd layout) j = Some b -> fst layout a b = true)
  <-> (circle_nbPegs size s <= 1)%Z.
Proof.
  cbv zeta. cbn [computePegs fst snd]. rewrite circle_pegs_eq.
  set (n := circle_nbPegs size s). set (d := TWO_PI / IZR n).
  assert (Hnth : forall k : nat, (Z.of_nat k < n)%Z ->
            nth_error (map (fun iPeg => circle_peg size (IZR iPeg * d))
                         (Zseq 0 (Z.to_nat n))) k
            = Some (circle_peg size (IZR (Z.of_nat k) * d))).
  { intros k Hk. rewrite nth_error_map, nth_error_Zseq by lia. reflexivity. }
  split.
  - intros Hall. destruct (Z.le_gt_cases n 1) as [|Hn]; [assumption|exfalso].
    assert (Hk : (1 <= n / 2 < n)%Z).
    { pose proof (Z.div_mod n 2 ltac:(lia)). pose proof (Z.mod_pos_bound n 2 ltac:(lia)).
      lia. }
    assert (H0 : (Z.of_nat 0 < n)%Z) by lia.
    assert (H1 : (Z.of_nat (Z.to_nat (n / 2)) < n)%Z) by lia.
    assert (H01 : (0 < Z.to_nat (n / 2))%nat) by lia.
    specialize (Hall 0%nat (Z.to_nat (n / 2)) _ _ H01 (Hnth _ H0) (Hnth _ H1)).
    rewrite Z2Nat.id in Hall by lia. change (IZR (Z.of_nat 0)) with 0 in Hall.
    apply (circle_tooClose_iff (circle_peg size (0 * d)) (circle_peg size (IZR (n / 2) * d))
             (0 * d) (IZR (n / 2) * d) eq_refl eq_refl) in Hall.
    assert (Hhalf : PI / 2 <= IZR (n / 2) * d <= PI) by (apply half_turn; lia).
    pose proof PI_RGT_0.
    replace (0 * d - IZR (n / 2) * d) with (- (IZR (n / 2) * d)) in Hall by ring.
    rewrite Rabs_Ropp, Rabs_pos_eq in Hall by lra.
    unfold Rmin in Hall. destruct (Rle_dec _ _); lra.
  - intros Hn i j a b Hij Hi Hj. exfalso.
    assert (Hlen : (j < length (map (fun iPeg => circle_peg size (IZR iPeg * d))
                                 (Zseq 0 (Z.to_nat n))))%nat)
      by (apply nth_error_Some; congruence).
    rewrite length_map, length_Zseq in Hlen. lia.
Qed.


(** ** The size of the hidden canvas *)

(** X12.  For a source image of at least one pixel each way, the hidden
    canvas [computeBestSize] asks for has its larger side equal to
    [HIDDEN_CANVAS_SIZE] = 256 and its other side between 1 and 256. *)
Theorem computeBestSize_fits (image : ISize) :
  (1 <= width image)%Z -> (1 <= height image)%Z ->
  let canvas := computeBestSize image HIDDEN_CANVAS_SIZE in
  (1 <= width canvas <= 256)%Z /\ (1 <= height canvas <= 256)%Z /\
  Z.max (width canvas) (height canvas) = 256%Z /\
  ((height image <= width image)%Z -> width canvas = 256%Z) /\
  ((width image <= height image)%Z -> height canvas = 256%Z).
Proof.
  intros HW HH canvas.
  destruct (computeBestSize_positive image HW HH) as [HW1 HH1]. fold canvas in HW1, HH1.
  unfold canvas, computeBestSize, HIDDEN_CANVAS_SIZE, Math_ceil in *. cbn [width height] in *.
  set (m := Z.max (width image) (height image)) in *.
  assert (Hm : 0 < IZR m) by (apply IZR_lt; lia).
  assert (Hside : forall side : Z, (1 <= side <= m)%Z ->
            (Zceil (IZR side * (256 / IZR m)) <= 256)%Z /\
            (side = m -> Zceil (IZR side * (256 / IZR m)) = 256%Z)).
  { intros side Hs. split.
    - apply le_IZR. 
      assert (Hle : IZR side * (256 / IZR m) <= 256).
      { assert (IZR side <= IZR m) by (apply IZR_le; lia).
        apply Rmult_le_reg_r with (IZR m); [exact Hm|].
        unfold Rdiv. rewrite <- Rmult_assoc, Rmult_assoc, Rinv_l by lra.
        assert (0 < IZR side) by (apply IZR_lt; lia). nra. }
      apply Zceil_le in Hle. rewrite (Zceil_eq 256 256) in Hle by lra.
      now apply IZR_le.
    - intros ->. apply Zceil_eq. replace (IZR m * (256 / IZR m)) with 256 by (field; lra).
      lra. }
  destruct (Hside (width image) ltac:(lia)) as [Hw Hw'].
  destruct (Hside (height image) ltac:(lia)) as [Hh Hh'].
  split; [lia|]. split; [lia|]. split; [|split].
  - destruct (Z.le_ge_cases (width image) (height image)).
    + rewrite Hh' by lia. lia.
    + rewrite Hw' by lia. lia.
  - intros Hle. apply Hw'. lia.
  - intros Hle. apply Hh'. lia.
Qed.

(** ** How far a call grows the path *)

Section Growth.
Variable drawImage : HTMLImageElement -> ISize -> list Z.
Variable strokeLine : HTMLCanvasElement -> R -> IPoint -> IPoint -> list Z.
Variable performance_now : nat -> R.
Variable Math_random : nat -> R.

Lemma growLoop_segments (start maxMs : R) (fuel : nat) :
  forall w w',
    growLoop strokeLine performance_now Math_random fuel start maxMs w = Normal tt w' ->
    targetNbSegments (this w') = targetNbSegments (this w) /\
    (nbSegments (this w) <= nbSegments (this w'))%Z /\
    (nbSegments (this w') <= Z.max (nbSegments (this w)) (targetNbSegments (this w)))%Z.
Proof.
  induction fuel as [|fuel IH]; intros w w' H.
  - cbn in H. unfold ret in H. injection H as <-. lia.
  - rewrite growLoop_S in H.
    destruct (Z.ltb_spec (nbSegments (this w)) (targetNbSegments (this w)));
      [destruct (Rltb _ _)|].
    + unfold bind in H.
      destruct (computeThread strokeLine Math_random (tick w)) as [[] w1|w1] eqn:E;
        [|discriminate].
      destruct (computeThread_nbSegments _ _ _ _ E) as [Hn _].
      destruct (computeThread_Normal _ _ _ _ E) as (Ht & _).
      destruct (IH w1 w' H) as (Ht' & Hlo & Hhi).
      cbn [tick this] in *. lia.
    + injection H as <-. cbn [tick this]. lia.
    + injection H as <-. lia.
Qed.

Lemma growLoop_reaches (start maxMs : R) (fuel : nat) :
  (forall k, performance_now k - start < maxMs) ->
  forall w w',
    (targetNbSegments (this w) - nbSegments (this w) <= Z.of_nat fuel)%Z ->
    growLoop strokeLine performance_now Math_random fuel start maxMs w = Normal tt w' ->
    (targetNbSegments (this w) <= nbSegments (this w'))%Z.
Proof.
  intros Htime. induction fuel as [|fuel IH]; intros w w' Hfuel H.
  - cbn in H. unfold ret in H. injection H as <-. lia.
  - rewrite growLoop_S in H.
    destruct (Z.ltb_spec (nbSegments (this w)) (targetNbSegments (this w))).
    + replace (Rltb (performance_now (clock_reads w) - start) maxMs) with true in H
        by (symmetry; apply Rltb_true_iff, Htime).
      unfold bind in H.
      destruct (computeThread strokeLine Math_random (tick w)) as [[] w1|w1] eqn:E;
        [|discriminate].
      destruct (computeThread_nbSegments _ _ _ _ E) as [Hn _].
      destruct (computeThread_Normal _ _ _ _ E) as (Ht & _).
      cbn [tick this] in *. rewrite <- Ht. apply (IH w1 w'); [lia|exact H].
    + injection H as <-. lia.
Qed.

(** The world [computeNextThreads] enters its loop in: the segments are
    within the configured target. *)
Lemma computeNextThreads_ends (P : ParametersT) (maxMs : R) (w w' : World) (done : bool) :
  computeNextThreads drawImage strokeLine performance_now Math_random P maxMs w
  = Normal done w' ->
  exists v,
    targetNbSegments (this v) = Parameters_nbLines P /\
    (0 <= nbSegments (this v) <= Z.max 0 (Parameters_nbLines P))%Z /\
    growLoop strokeLine performance_now Math_random
      (Z.to_nat (targetNbSegments (this v) - nbSegments (this v)))
      (performance_now (clock_reads w)) maxMs v = Normal tt w' /\
    done = (nbSegments (this w') >=? targetNbSegments (this w'))%Z.
Proof.
  rewrite computeNextThreads_unfold. set (v := with_this _ _). intros H.
  exists v.
  assert (Hv : targetNbSegments (this v) = Parameters_nbLines P) by reflexivity.
  assert (Hn : (0 <= nbSegments (this v) <= Z.max 0 (Parameters_nbLines P))%Z).
  { unfold v. cbn [with_this this].
    change (nbSegments (set_targetNbSegments (Parameters_nbLines P) ?t))
      with (nbSegments t).
    destruct (Z.gtb_spec (nbSegments (this w)) (Parameters_nbLines P)) as [Hgt|Hle].
    - destruct (reset_Normal drawImage P (tick w)) as (w0 & E & _ & Hn0 & _).
      rewrite E, Hn0. lia.
    - cbn [tick this]. rewrite nbSegments_length in *. lia. }
  split; [exact Hv|]. split; [exact Hn|].
  unfold grow, bind, get, ret in H.
  match type of H with
  | context [growLoop _ _ _ ?f ?s ?m v] =>
      destruct (growLoop strokeLine performance_now Math_random f s m v) as [[] w1|w1];
      [|discriminate]
  end.
  injection H as <- <-. split; reflexivity.
Qed.

(** X13.  A call of [computeNextThreads] that returns leaves
    [targetNbSegments] equal to the configured number of lines and never
    more segments than that number (none when it is negative); it answers
    [true] exactly when the path has that many segments. *)
Theorem computeNextThreads_never_overshoots
        (P : ParametersT) (maxMs : R) (w w' : World) (done : bool) :
  computeNextThreads drawImage strokeLine performance_now Math_random P maxMs w
  = Normal done w' ->
  targetNbSegments (this w') = Parameters_nbLines P /\
  (0 <= nbSegments (this w') <= Z.max 0 (Parameters_nbLines P))%Z /\
  (done = true <-> nbSegments (this w') = Z.max 0 (Parameters_nbLines P)).
Proof.
  intros H. destruct (computeNextThreads_ends P maxMs w w' done H)
    as (v & Hv & Hn & Eloop & ->).
  destruct (growLoop_segments _ _ _ _ _ Eloop) as (Ht & Hlo & Hhi).
  rewrite Ht, Hv in *. split; [reflexivity|]. split; [lia|].
  rewrite Z.geb_le. lia.
Qed.

(** X14.  When the clock never reaches the budget, a call of
    [computeNextThreads] that returns answers [true] and leaves exactly the
    configured number of lines as segments (none when it is negative). *)
Theorem computeNextThreads_completes_in_time
        (P : ParametersT) (maxMs : R) (w w' : World) (done : bool) :
  (forall k, performance_now k - performance_now (clock_reads w) < maxMs) ->
  computeNextThreads drawImage strokeLine performance_now Math_random P maxMs w
  = Normal done w' ->
  done = true /\ nbSegments (this w') = Z.max 0 (Parameters_nbLines P).
Proof.
  intros Htime H. destruct (computeNextThreads_ends P maxMs w w' done H)
    as (v & Hv & Hn & Eloop & ->).
  destruct (growLoop_segments _ _ _ _ _ Eloop) as (Ht & Hlo & Hhi).
  assert (Hfuel : (targetNbSegments (this v) - nbSegments (this v)
                   <= Z.of_nat (Z.to_nat (targetNbSegments (this v) - nbSegments (this v))))%Z)
    by lia.
  pose proof (growLoop_reaches _ _ _ Htime v w' Hfuel Eloop) as Hreach.
  rewrite Ht, Hv in *. split; [apply Z.geb_le; lia|lia].
Qed.
End Growth.


(** ** The CPU copy does not outlive a call *)

Section CpuCopy.
Variable drawImage : HTMLImageElement -> ISize -> list Z.
Variable strokeLine : HTMLCanvasElement -> R -> IPoint -> IPoint -> list Z.
Variable performance_now : nat -> R.
Variable Math_random : nat -> R.
Hypothesis drawImage_bytes : forall image size, bytes_ok (drawImage image size).
Hypothesis strokeLine_bytes :
  forall canvas alpha a b, bytes_ok (bitmap canvas) -> bytes_ok (strokeLine canvas alpha a b).
Hypothesis Math_random_range : forall k, 0 <= Math_random k < 1.

Lemma growLoop_quiet (start maxMs : R) (fuel : nat) :
  forall w, planned (this w) -> hiddenCanvasData (this w) = None ->
    match growLoop strokeLine performance_now Math_random fuel start maxMs w with
    | Normal _ w' | TypeError w' => hiddenCanvasData (this w') = None
    end.
Proof.
  induction fuel as [|fuel IH]; intros w H Hnone; [exact Hnone|].
  rewrite growLoop_S.
  destruct (nbSegments (this w) <? targetNbSegments (this w))%Z; [|exact Hnone].
  destruct (Rltb _ _); [|exact Hnone].
  assert (Ht : planned (this (tick w))) by exact H.
  unfold bind.
  destruct (threadPegs (this (tick w))) as [|q l] eqn:Epath.
  - destruct (planned_first_step strokeLine Math_random strokeLine_bytes Math_random_range
                (tick w) Ht Epath) as [(w1 & E & H1 & _)|[E _]]; rewrite E.
    + apply IH; [exact H1|]. now destruct (computeThread_Normal _ _ _ _ E) as (_ & _ & ? & _).
    + exact Hnone.
  - destruct (planned_later_step strokeLine Math_random strokeLine_bytes Math_random_range
                (tick w) Ht) as (w1 & E & H1 & _); [now rewrite Epath|].
    rewrite E. apply IH; [exact H1|].
    now destruct (computeThread_Normal _ _ _ _ E) as (_ & _ & ? & _).
Qed.

Lemma computeNextThreads_quiet (P : ParametersT) (maxMs : R) (w : World) :
  planned (this w) -> hiddenCanvasData (this w) = None ->
  match computeNextThreads drawImage strokeLine performance_now Math_random P maxMs w with
  | Normal _ w' | TypeError w' => hiddenCanvasData (this w') = None
  end.
Proof.
  intros H Hnone. rewrite computeNextThreads_unfold. set (v := with_this _ _).
  assert (Hv : planned (this v) /\ hiddenCanvasData (this v) = None).
  { unfold v. cbn [with_this this].
    destruct (nbSegments (this w) >? Parameters_nbLines P)%Z.
    - destruct (reset_planned drawImage drawImage_bytes P (tick w) H) as (w0 & E & H0 & _).
      split; [apply planned_set_target; now rewrite E|]. exact Hnone.
    - split; [now apply planned_set_target|exact Hnone]. }
  destruct Hv as [Hv Hq]. unfold grow, bind, get, ret.
  match goal with
  | |- context [growLoop _ _ _ ?f ?s ?m v] =>
      pose proof (growLoop_quiet s m f v Hv Hq) as Hloop;
      destruct (growLoop strokeLine performance_now Math_random f s m v) as [[] w1|w1]
  end; exact Hloop.
Qed.

(** X15.  With bitmaps of bytes, [Math.random()] in [[0, 1)] and a source
    image that is not empty, the CPU copy of the canvas is absent in every
    reachable state: a copy uploaded by a search is discarded by the stroke
    that ends the step, so the next search uploads the canvas as it is and
    every score is computed on the current bitmap. *)
Theorem reachable_has_no_cpu_copy (w : World) :
  reachable drawImage strokeLine performance_now Math_random w ->
  image_not_empty (this w) ->
  hiddenCanvasData (this w) = None /\
  uploaded (this w) = bitmap (hiddenCanvas (this w)) /\
  forall p q, score (this w) p q
              = threadPotential (hiddenCanvas (this w)) (bitmap (hiddenCanvas (this w))) p q.
Proof.
  intros Hreach Himage.
  assert (Hnone : hiddenCanvasData (this w) = None).
  { induction Hreach as [P image shape spacing clock rnd
                        |P w w' Hw IH E|P maxMs w done w' Hw IH E|P maxMs w w' Hw IH E
                        |v w _ IH|w clock rnd _ IH].
    - reflexivity.
    - injection E as <-. apply IH. exact Himage.
    - assert (Himage' : image_not_empty (this w)).
      { unfold image_not_empty in *.
        rewrite <- (computeNextThreads_sourceImage drawImage strokeLine performance_now
                      Math_random P maxMs w w'); [exact Himage|left; now exists done]. }
      pose proof (computeNextThreads_quiet P maxMs w
                    (reachable_planned drawImage strokeLine performance_now Math_random
                       drawImage_bytes strokeLine_bytes Math_random_range w Hw Himage')
                    (IH Himage')) as Hq.
      now rewrite E in Hq.
    - assert (Himage' : image_not_empty (this w)).
      { unfold image_not_empty in *.
        rewrite <- (computeNextThreads_sourceImage drawImage strokeLine performance_now
                      Math_random P maxMs w w'); [exact Himage|now right]. }
      pose proof (computeNextThreads_quiet P maxMs w
                    (reachable_planned drawImage strokeLine performance_now Math_random
                       drawImage_bytes strokeLine_bytes Math_random_range w Hw Himage')
                    (IH Himage')) as Hq.
      now rewrite E in Hq.
    - apply IH, Himage.
    - apply IH, Himage. }
  split; [exact Hnone|]. unfold score, uploaded. rewrite Hnone. split; reflexivity.
Qed.
End CpuCopy.


(** ** The grey levels of the fresh canvas *)

Lemma write_at_length (data : list Z) (v : Z) :
  forall i, length (write_at data i v) = length data.
Proof.
  induction data as [|d data IH]; intros [|i]; cbn [write_at length]; auto.
Qed.

Lemma nth_write_at (data : list Z) (v : Z) :
  forall i j,
    nth j (write_at data i v) 0%Z
    = if (Nat.eqb j i && Nat.ltb i (length data))%bool then v else nth j data 0%Z.
Proof.
  induction data as [|d data IH]; intros i j.
  - destruct i, j; cbn [write_at nth length]; rewrite ?andb_false_r; reflexivity.
  - destruct i as [|i], j as [|j]; cbn [write_at nth length]; try reflexivity.
    rewrite IH. reflexivity.
Qed.

Lemma adjust_pixel_length (invertColors : bool) (i : Z) (data : list Z) :
  length (adjust_pixel invertColors i data) = length data.
Proof. unfold adjust_pixel. now rewrite !write_at_length. Qed.

Lemma adjust_pixel_channel (invertColors : bool) (i : Z) (data : list Z) (k c : Z) :
  (0 <= i)%Z -> (4 * i + 3 < Z.of_nat (length data))%Z ->
  (0 <= k)%Z -> (0 <= c < 4)%Z ->
  channel (adjust_pixel invertColors i data) k c
  = if ((k =? i) && (c <? 3))%Z%bool then adjustedLevel invertColors data i
    else channel data k c.
Proof.
  intros Hi Hlen Hk Hc. unfold channel, adjust_pixel. fold (adjustedLevel invertColors data i).
  rewrite !nth_write_at, !write_at_length.
  repeat match goal with
         | |- context [Nat.eqb ?a ?b] => destruct (Nat.eqb_spec a b)
         | |- context [Nat.ltb ?a ?b] => destruct (Nat.ltb_spec a b)
         | |- context [Z.eqb ?a ?b] => destruct (Z.eqb_spec a b)
         | |- context [Z.ltb ?a ?b] => destruct (Z.ltb_spec a b)
         end; cbn [andb]; try reflexivity; lia.
Qed.

Lemma adjustedLevel_ext (invertColors : bool) (data data' : list Z) (k : Z) :
  (forall c, (0 <= c < 3)%Z -> channel data' k c = channel data k c) ->
  adjustedLevel invertColors data' k = adjustedLevel invertColors data k.
Proof.
  intros H. unfold adjustedLevel, byte_at.
  pose proof (H 0%Z ltac:(lia)) as H0. pose proof (H 1%Z ltac:(lia)) as H1.
  pose proof (H 2%Z ltac:(lia)) as H2. unfold channel in H0, H1, H2.
  now rewrite H0, H1, H2.
Qed.

Lemma for_range_adjust (invertColors : bool) :
  forall (n : nat) (lo : Z) (data : list Z),
    (0 <= lo)%Z -> (4 * (lo + Z.of_nat n) <= Z.of_nat (length data))%Z ->
    length (for_range lo n (adjust_pixel invertColors) data) = length data /\
    forall k c, (0 <= k)%Z -> (0 <= c < 4)%Z ->
      channel (for_range lo n (adjust_pixel invertColors) data) k c
      = if ((lo <=? k) && (k <? lo + Z.of_nat n) && (c <? 3))%Z%bool
        then adjustedLevel invertColors data k
        else channel data k c.
Proof.
  induction n as [|n IH]; intros lo data Hlo Hlen.
  - cbn [for_range]. split; [reflexivity|]. intros k c _ _.
    destruct (Z.leb_spec lo k), (Z.ltb_spec k (lo + Z.of_nat 0)); cbn [andb];
      try reflexivity; lia.
  - cbn [for_range].
    destruct (IH (lo + 1)%Z (adjust_pixel invertColors lo data)) as [IHlen IHch];
      [lia|rewrite adjust_pixel_length; lia|].
    split; [now rewrite IHlen, adjust_pixel_length|].
    intros k c Hk Hc. rewrite (IHch k c Hk Hc).
    assert (Hpix : forall k' c', (0 <= k')%Z -> (0 <= c' < 4)%Z ->
              channel (adjust_pixel invertColors lo data) k' c'
              = if ((k' =? lo) && (c' <? 3))%Z%bool then adjustedLevel invertColors data lo
                else channel data k' c').
    { intros k' c' Hk' Hc'. apply adjust_pixel_channel; lia. }
    destruct (Z.leb_spec (lo + 1) k), (Z.ltb_spec k (lo + 1 + Z.of_nat n)),
      (Z.leb_spec lo k), (Z.ltb_spec k (lo + Z.of_nat (S n))), (Z.ltb_spec c 3);
      cbn [andb]; try lia;
      try (rewrite Hpix by lia;
           destruct (Z.eqb_spec k lo), (Z.ltb_spec c 3); cbn [andb]; try lia;
           subst; reflexivity);
      apply adjustedLevel_ext; intros c' Hc'; rewrite Hpix by lia;
      destruct (Z.eqb_spec k lo); [lia|reflexivity].
Qed.

(** Rounding to a byte keeps a level that is between two integers of
    [[0, 255]] between them. *)
Lemma toUint8Clamped_between (v : R) (lo hi : Z) :
  (0 <= lo)%Z -> (hi <= 255)%Z -> IZR lo <= v <= IZR hi ->
  (lo <= toUint8Clamped v <= hi)%Z.
Proof.
  intros Hlo Hhi [Hl Hh]. unfold toUint8Clamped.
  pose proof (Zfloor_bound v) as [Hf1 Hf2].
  assert (Hfl : (lo <= Zfloor v)%Z).
  { apply Z.lt_succ_r, lt_IZR. rewrite succ_IZR. lra. }
  assert (Hfh : (Zfloor v <= hi)%Z).
  { apply le_IZR. lra. }
  set (f := Zfloor v) in *.
  assert (Hr : forall z, (z = f \/ z = (f + 1)%Z /\ 0.5 <= v - IZR f) ->
                         (lo <= clamp z 0 255 <= hi)%Z).
  { intros z Hz. assert (lo <= z <= hi)%Z.
    { destruct Hz as [->|[-> Hhalf]]; [lia|]. split; [lia|].
      apply le_IZR. rewrite plus_IZR.
      assert (Hlt : (f < hi)%Z) by (apply lt_IZR; lra).
      apply IZR_le in Hfh. assert (IZR (f + 1) <= IZR hi) by (apply IZR_le; lia).
      rewrite plus_IZR in *. lra. }
    unfold clamp. destruct (Z.ltb_spec z 0); [lia|]. destruct (Z.gtb_spec z 255); lia. }
  destruct (Rlt_dec (v - IZR f) 0.5); [apply Hr; now left|].
  destruct (Rlt_dec 0.5 (v - IZR f)); [apply Hr; right; split; [reflexivity|lra]|].
  destruct (Z.even f); apply Hr; [now left|right; split; [reflexivity|lra]].
Qed.

Lemma toUint8Clamped_integer (z : Z) : (0 <= z <= 255)%Z -> toUint8Clamped (IZR z) = z.
Proof.
  intros H. unfold toUint8Clamped. rewrite ZfloorZ.
  destruct (Rlt_dec (IZR z - IZR z) 0.5) as [_|Hn]; [|exfalso; apply Hn; lra].
  unfold clamp. destruct (Z.ltb_spec z 0); [lia|]. destruct (Z.gtb_spec z 255); lia.
Qed.

(** A tie goes to the even neighbour: [127.5] is stored as [128] and [0.5]
    as [0]. *)
Lemma toUint8Clamped_tie (z : Z) :
  (0 <= z < 255)%Z ->
  toUint8Clamped (IZR z + 0.5) = if Z.even z then z else (z + 1)%Z.
Proof.
  intros H. unfold toUint8Clamped.
  assert (Hf : Zfloor (IZR z + 0.5) = z).
  { apply Zfloor_eq. lra. }
  rewrite Hf.
  destruct (Rlt_dec (IZR z + 0.5 - IZR z) 0.5) as [Hl|_]; [lra|].
  destruct (Rlt_dec 0.5 (IZR z + 0.5 - IZR z)) as [Hl|_]; [lra|].
  unfold clamp. destruct (Z.even z).
  - destruct (Z.ltb_spec z 0); [lia|]. destruct (Z.gtb_spec z 255); lia.
  - destruct (Z.ltb_spec (z + 1) 0); [lia|]. destruct (Z.gtb_spec (z + 1) 255); lia.
Qed.

Lemma adjustedLevel_range (invertColors : bool) (data : list Z) (i : Z) :
  bytes_ok data -> (0 <= adjustedLevel invertColors data i <= 128)%Z.
Proof.
  intros H. unfold adjustedLevel. apply toUint8Clamped_between; try lia.
  pose proof (byte_at_range data (4 * i + 0) H).
  pose proof (byte_at_range data (4 * i + 1) H).
  pose proof (byte_at_range data (4 * i + 2) H).
  unfold computeAdjustedValue. destruct invertColors; lra.
Qed.

Section FreshCanvas.
Variable drawImage : HTMLImageElement -> ISize -> list Z.

(** X16.  [resetHiddenCanvas] on a drawn image of [4 * width * height]
    bytes: the canvas keeps that many bytes, and at every pixel the three
    colour channels hold one grey level, the rounded half mean of the drawn
    channels (taken from 128 when the colours are inverted), which is in
    [[0, 128]], while the alpha channel is the drawn one.  A drawn white pixel
    becomes 128, medium grey (0 when inverted: [0.5] is a tie and goes to the
    even byte), a drawn black pixel 0 (128 when inverted). *)
Theorem resetHiddenCanvas_greys (invertColors : bool) (image : HTMLImageElement) (i : Z) :
  let wantedSize := computeBestSize image HIDDEN_CANVAS_SIZE in
  let drawn := drawImage image wantedSize in
  let canvas := freshCanvas drawImage invertColors image in
  let level := adjustedLevel invertColors drawn i in
  Z.of_nat (length drawn) = (4 * (width wantedSize * height wantedSize))%Z ->
  bytes_ok drawn ->
  (0 <= i < width wantedSize * height wantedSize)%Z ->
  length (bitmap canvas) = length drawn /\
  channel (bitmap canvas) i 0 = level /\
  channel (bitmap canvas) i 1 = level /\
  channel (bitmap canvas) i 2 = level /\
  channel (bitmap canvas) i 3 = channel drawn i 3 /\
  (0 <= level <= 128)%Z /\
  (channel drawn i 0 = 255%Z -> channel drawn i 1 = 255%Z -> channel drawn i 2 = 255%Z ->
   level = if invertColors then 0%Z else 128%Z) /\
  (channel drawn i 0 = 0%Z -> channel drawn i 1 = 0%Z -> channel drawn i 2 = 0%Z ->
   level = if invertColors then 128%Z else 0%Z).
Proof.
  intros wantedSize drawn canvas level Hlen Hbytes Hi.
  assert (Hloop := for_range_adjust invertColors
                     (Z.to_nat (width wantedSize * height wantedSize - 0)) 0 drawn).
  destruct Hloop as [Hl Hch]; [lia|lia|].
  assert (Hbitmap : bitmap canvas
                    = for_range 0 (Z.to_nat (width wantedSize * height wantedSize - 0))
                        (adjust_pixel invertColors) drawn) by reflexivity.
  rewrite Hbitmap.
  assert (Hin : forall c, (0 <= c < 3)%Z ->
            channel (for_range 0 (Z.to_nat (width wantedSize * height wantedSize - 0))
                       (adjust_pixel invertColors) drawn) i c = level).
  { intros c Hc. rewrite Hch by lia.
    destruct (Z.leb_spec 0 i), (Z.ltb_spec i (0 + Z.of_nat (Z.to_nat
                (width wantedSize * height wantedSize - 0)))), (Z.ltb_spec c 3);
      cbn [andb]; first [reflexivity|lia]. }
  split; [exact Hl|].
  split; [apply Hin; lia|]. split; [apply Hin; lia|]. split; [apply Hin; lia|].
  split.
  { rewrite Hch by lia. destruct (Z.ltb_spec 3 3); [lia|]. now rewrite andb_false_r. }
  split; [now apply adjustedLevel_range|].
  unfold level, adjustedLevel, byte_at, channel, computeAdjustedValue.
  split; intros -> -> ->.
  - destruct invertColors.
    + replace (128 - (255 + 255 + 255) / 3 / 2) with (IZR 0 + 0.5) by lra.
      now rewrite toUint8Clamped_tie by lia.
    + replace ((255 + 255 + 255) / 3 / 2) with (IZR 127 + 0.5) by lra.
      now rewrite toUint8Clamped_tie by lia.
  - destruct invertColors.
    + replace (128 - (0 + 0 + 0) / 3 / 2) with (IZR 128) by lra.
      now rewrite toUint8Clamped_integer by lia.
    + replace ((0 + 0 + 0) / 3 / 2) with (IZR 0) by lra.
      now rewrite toUint8Clamped_integer by lia.
Qed.
End FreshCanvas.


(** * Properties of [plotter/compositing.ts] *)

Section CompositingProperties.
Import String Compositing.
Variable implemented : String.string -> bool.

Lemma computeRawColor_channels (color : EColor) :
  (r (computeRawColor color) = 0 \/ r (computeRawColor color) = 1)%Z /\
  (g (computeRawColor color) = 0 \/ g (computeRawColor color) = 1)%Z /\
  (b (computeRawColor color) = 0 \/ b (computeRawColor color) = 1)%Z.
Proof. destruct color; cbn; auto. Qed.

Lemma ceil_byte (opacity : R) :
  0 <= opacity <= 1 -> (0 <= Math_ceil (255 * opacity) <= 255)%Z.
Proof.
  intros H. unfold Math_ceil. destruct (Zceil_bound (255 * opacity)) as [Hl Hu].
  split; [apply le_IZR; lra|]. apply Z.lt_succ_r, lt_IZR. rewrite succ_IZR. lra.
Qed.

Lemma basicCompositing_operation (context : CanvasRenderingContext2D) (color : EColor)
      (opacity : R) (operation : ECompositingOperation) :
  implemented "source-over"%string = true ->
  globalCompositeOperation (basicCompositing implemented context color opacity operation)
  = "source-over"%string.
Proof.
  intros H. unfold basicCompositing, resetCanvasCompositing, set_globalCompositeOperation.
  now rewrite H.
Qed.

Lemma set_globalCompositeOperation_reads (operation : String.string)
      (context : CanvasRenderingContext2D) :
  implemented (globalCompositeOperation context) = true ->
  String.eqb (globalCompositeOperation
                (set_globalCompositeOperation implemented operation context)) operation
  = implemented operation.
Proof.
  intros H. unfold set_globalCompositeOperation.
  destruct (implemented operation) eqn:E; cbn [globalCompositeOperation].
  - apply String.eqb_refl.
  - apply String.eqb_neq. intros Heq. rewrite Heq in H. congruence.
Qed.

(** X17.  [applyCanvasCompositing] on a context whose operation is one the
    browser implements, in a browser that implements [source-over]: the
    context still holds an implemented operation afterwards; when the page
    flag is on and the browser implements the target operation, the context
    has that operation, an opaque [rgb] stroke whose channels are 0 or
    [ceil(255 * opacity)] (in [[0, 255]] for an opacity in [[0, 1]]), and the
    page is unchanged; otherwise the context is back on [source-over] with
    an [rgba] stroke of that opacity whose channels are 0 or 255, the flag is
    off, and the error is reported exactly when the flag was on before. *)
Theorem applyCanvasCompositing_outcome
        (context : CanvasRenderingContext2D) (color : EColor) (opacity : R)
        (operation : ECompositingOperation) (page : Globals) :
  implemented "source-over"%string = true ->
  implemented (globalCompositeOperation context) = true ->
  let (context', page') :=
    applyCanvasCompositing implemented context color opacity operation page in
  let raw := computeRawColor color in
  implemented (globalCompositeOperation context') = true /\
  if (supportsAdvancedCompositing page && implemented (targetOperation operation))%bool
  then
    let value := Math_ceil (255 * opacity) in
    page' = page /\
    globalCompositeOperation context' = targetOperation operation /\
    strokeStyle context' = rgb (r raw * value) (g raw * value) (b raw * value) /\
    (0 <= opacity <= 1 ->
     (0 <= r raw * value <= 255)%Z /\ (0 <= g raw * value <= 255)%Z /\
     (0 <= b raw * value <= 255)%Z)
  else
    let value := match operation with LIGHTEN => 255%Z | DARKEN => 0%Z end in
    supportsAdvancedCompositing page' = false /\
    errorMessages page'
    = errorMessages page
      ++ (if supportsAdvancedCompositing page
          then ["advanced-compositing-not-supported"%string] else []) /\
    globalCompositeOperation context' = "source-over"%string /\
    strokeStyle context' = rgba (r raw * value) (g raw * value) (b raw * value) opacity.
Proof.
  intros Hbasic Hcontext. unfold applyCanvasCompositing.
  fold (targetOperation operation).
  destruct (supportsAdvancedCompositing page) eqn:Eflag; cbn [andb].
  - rewrite (set_globalCompositeOperation_reads _ _ Hcontext).
    destruct (implemented (targetOperation operation)) eqn:Etarget.
    + unfold set_globalCompositeOperation. rewrite Etarget.
      cbn [set_strokeStyle globalCompositeOperation strokeStyle].
      split; [exact Etarget|]. do 3 (split; [reflexivity|]).
      intros Hopacity. destruct (computeRawColor_channels color) as (Hr & Hg & Hb).
      pose proof (ceil_byte opacity Hopacity). nia.
    + rewrite basicCompositing_operation by exact Hbasic.
      split; [exact Hbasic|].       repeat split; reflexivity.
  - rewrite basicCompositing_operation by exact Hbasic.
    split; [exact Hbasic|]. rewrite app_nil_r. repeat split; try exact Eflag; reflexivity.
Qed.
End CompositingProperties.


Section CompositingCalls.
Import String Compositing.
Variable implemented : String.string -> bool.

Lemma applyCanvasCompositing_page
      (context : CanvasRenderingContext2D) (color : EColor) (opacity : R)
      (operation : ECompositingOperation) (page : Globals) :
  let page' := snd (applyCanvasCompositing implemented context color opacity operation page) in
  page' = page \/
  supportsAdvancedCompositing page = true /\
  supportsAdvancedCompositing page' = false /\
  errorMessages page'
  = errorMessages page ++ ["advanced-compositing-not-supported"%string].
Proof.
  unfold applyCanvasCompositing.
  destruct (supportsAdvancedCompositing page) eqn:Eflag; [|now left].
  destruct (String.eqb _ _); [now left|right]. cbn. auto.
Qed.

(** X18.  Over any sequence of calls of [applyCanvasCompositing], in any
    browser and on any context: the page flag never comes back on (a page
    whose flag is on at the end is unchanged, a page whose flag is off at the
    start is unchanged), and the error is reported at most once, by the call
    that turns the flag off. *)
Theorem advanced_compositing_error_is_reported_once
        (calls : list (EColor * R * ECompositingOperation))
        (context : CanvasRenderingContext2D) (page : Globals) :
  let (context', page') := applyCalls implemented calls context page in
  (supportsAdvancedCompositing page' = true -> page' = page) /\
  (supportsAdvancedCompositing page = false -> page' = page) /\
  (page' = page \/
   supportsAdvancedCompositing page = true /\
   supportsAdvancedCompositing page' = false /\
   errorMessages page'
   = errorMessages page ++ ["advanced-compositing-not-supported"%string]).
Proof.
  revert context page. induction calls as [|[[color opacity] operation] rest IH];
    intros context page; cbn [applyCalls]; [now auto|].
  pose proof (applyCanvasCompositing_page context color opacity operation page) as Hstep.
  destruct (applyCanvasCompositing implemented context color opacity operation page)
    as [context1 page1]. cbn [snd] in Hstep.
  specialize (IH context1 page1).
  destruct (applyCalls implemented rest context1 page1) as [context' page'].
  destruct IH as (Hon & Hoff & Hlog).
  destruct Hstep as [->|(Hflag & Hflag1 & Hmsg)]; [now auto|].
  rewrite (Hoff Hflag1) in *. repeat split.
  - congruence.
  - congruence.
  - right. auto.
Qed.
End CompositingCalls.


(** * The properties on the examples *)

Lemma blackImage_bytes (image : HTMLImageElement) (size : ISize) :
  bytes_ok (blackImage image size).
Proof.
  unfold bytes_ok, blackImage. apply Forall_forall. intros v Hv.
  apply repeat_spec in Hv. lia.
Qed.

Lemma faintStroke_bytes (canvas : HTMLCanvasElement) (alpha : R) (a b : IPoint) :
  bytes_ok (bitmap canvas) -> bytes_ok (faintStroke canvas alpha a b).
Proof. intros H. exact H. Qed.

Lemma zeroRandom_range (k : nat) : 0 <= zeroRandom k < 1.
Proof. unfold zeroRandom. lra. Qed.

Lemma squareWorld1_image : image_not_empty (this squareWorld1).
Proof.
  unfold image_not_empty.
  rewrite (computeNextThreads_sourceImage blackImage faintStroke exampleClock zeroRandom
             (rectangleParameters 5) 1 squareWorld squareWorld1)
    by (left; exists false; apply square_timed_out).
  cbn. lia.
Qed.

(** From the corner [(0,0)] of the square example the opposite corner is the
    only peg that is not too close. *)
Lemma square_next_peg :
  computeBestNextPeg zeroRandom (Some corner00) squareWorld
  = Normal (Some corner11)
           {| this := upload (this squareWorld);
              clock_reads := clock_reads squareWorld;
              random_reads := S (random_reads squareWorld) |}.
Proof.
  rewrite computeBestNextPeg_fold. rewrite squareWorld_pegs.
  destruct squareWorld_black as [Hrect Hzero].
  assert (Hfilter : filter (accepted (this squareWorld) corner00)
                      [corner00; corner10; corner11; corner01] = [corner11]).
  { unfold accepted. rewrite Hrect. cbn [filter].
    rewrite (rectangle_close_x corner00 corner00) by corner_cmp.
    rewrite (rectangle_close_y corner00 corner10) by corner_cmp.
    rewrite (rectangle_far corner00 corner11) by corner_cmp.
    rewrite (rectangle_close_x corner00 corner01) by corner_cmp.
    reflexivity. }
  rewrite Hfilter. cbn [fold_left is_nil negb after_scoring].
  unfold score. rewrite (threadPotential_black _ _ corner00 corner11 Hzero)
    by (apply distance_pos; left; corner_cmp).
  rewrite consider_better by apply blackScore_safe.
  unfold randomItem. cbn [fst length Nat.eqb with_this random_reads clock_reads this].
  unfold zeroRandom. rewrite Rmult_0_l. unfold Math_floor. rewrite (ZfloorZ 0).
  reflexivity.
Qed.

(** The image of 1 by 1000 pixels: the first call throws. *)
Lemma thin_image_throws :
  computeNextThreads blackImage faintStroke exampleClock zeroRandom
    (rectangleParameters 1) 1 (thinWorld blackImage)
  = TypeError (tick (with_this (set_targetNbSegments 1 (this (thinWorld blackImage)))
                       (tick (thinWorld blackImage)))).
Proof.
  rewrite computeNextThreads_unfold.
  change (nbSegments (this (thinWorld blackImage))
          >? Parameters_nbLines (rectangleParameters 1))%Z with false.
  set (v := with_this _ _).
  unfold grow. unfold get at 1. unfold bind at 1 2.
  change (Z.to_nat (targetNbSegments (this v) - nbSegments (this v))) with 1%nat.
  rewrite growLoop_S.
  change (nbSegments (this v) <? targetNbSegments (this v))%Z with true.
  change (exampleClock (clock_reads v)) with 0.
  change (exampleClock (clock_reads (thinWorld blackImage))) with 0.
  replace (Rltb (0 - 0) 1) with true by (symmetry; apply Rltb_true_iff; lra).
  assert (E : computeThread faintStroke zeroRandom (tick v) = TypeError (tick v)).
  { apply computeThread_without_starting_thread; [reflexivity|].
    intros p q Hp Hq.
    change (pegs (this (tick v))) with (pegs (this (thinWorld blackImage))) in Hp, Hq.
    rewrite thinWorld_pegs in Hp, Hq.
    change (arePegsTooClose (this (tick v))) with arePegsTooClose_rectangle.
    apply rectangle_close_x.
    destruct Hp as [<-|[<-|[<-|[<-|[]]]]], Hq as [<-|[<-|[<-|[<-|[]]]]]; reflexivity. }
  now rewrite (bind_TypeError _ _ _ _ E).
Qed.


Lemma threadPotential_range_witness :
  exists v,
    threadPotential {| width := 2; height := 2 |} (repeat 0%Z 16)
      (rectangle_peg 0 0) (rectangle_peg 1 1)
    = Num v /\ -137 <= v <= 119 /\ MIN_SAFE_NUMBER < v.
Proof.
  apply (threadPotential_range {| width := 2; height := 2 |} (repeat 0%Z 16)
           (rectangle_peg 0 0) (rectangle_peg 1 1)).
  - cbn. lia.
  - cbn. lia.
  - apply Forall_forall. intros v Hv. apply repeat_spec in Hv. lia.
  - reflexivity.
  - apply distance_pos. left. cbn. lra.
Defined.

Lemma randomItem_picks_an_item_witness :
  exists v,
    In v [corner00; corner11] /\
    randomItem zeroRandom [corner00; corner11] squareWorld
    = Normal (Some v) {| this := this squareWorld;
                         clock_reads := clock_reads squareWorld;
                         random_reads := S (random_reads squareWorld) |}.
Proof.
  destruct (randomItem_picks_an_item zeroRandom [corner00; corner11] squareWorld
              (zeroRandom_range _)) as [_ H].
  destruct H as (v & Hin & _ & E); [discriminate|].
  exists v. split; [exact Hin|exact E].
Defined.

Lemma computeBestNextPeg_is_best_witness :
  In corner11 (pegs (this squareWorld)) /\
  arePegsTooClose (this squareWorld) corner00 corner11 = false.
Proof.
  destruct (computeBestNextPeg_is_best zeroRandom corner00 corner11 squareWorld _
              square_next_peg) as (Hin & Hfar & _).
  split; [exact Hin|exact Hfar].
Defined.

Lemma computeBestStartingThread_is_best_witness :
  arePegsTooClose (this squareWorld) corner00 corner11 = false /\
  exists best,
    score (this squareWorld) corner00 corner11 = Num best /\
    forall i j a b v,
      (i < j)%nat -> nth_error (pegs (this squareWorld)) i = Some a ->
      nth_error (pegs (this squareWorld)) j = Some b ->
      arePegsTooClose (this squareWorld) a b = false ->
      score (this squareWorld) a b = Num v -> v <= best.
Proof.
  destruct (computeBestStartingThread_is_best zeroRandom
              {| peg1 := corner00; peg2 := corner11 |} squareWorld _
              (square_search squareWorld squareWorld_black squareWorld_pegs))
    as (_ & Hfar & Hbest).
  split; [exact Hfar|exact Hbest].
Defined.

Lemma computeBestNextPeg_null_iff_witness :
  exists r w', computeBestNextPeg zeroRandom (Some corner00) squareWorld = Normal r w'.
Proof.
  exact (proj1 (computeBestNextPeg_null_iff zeroRandom corner00 squareWorld
                  zeroRandom_range)).
Defined.

Lemma reachable_path_is_valid_witness :
  Forall (fun entry => exists p, entry = Some p /\ In p (pegs (this squareWorld1)))
         (threadPegs (this squareWorld1)).
Proof.
  exact (proj1 (reachable_path_is_valid blackImage faintStroke exampleClock zeroRandom
                  blackImage_bytes faintStroke_bytes zeroRandom_range squareWorld1
                  squareWorld1_reachable squareWorld1_image)).
Defined.

Lemma computeNextThreads_throws_only_without_thread_witness :
  threadPegs (this (tick (with_this (set_targetNbSegments 1 (this (thinWorld blackImage)))
                            (tick (thinWorld blackImage))))) = [].
Proof.
  refine (proj1 (computeNextThreads_throws_only_without_thread
                   blackImage faintStroke exampleClock zeroRandom
                   blackImage_bytes faintStroke_bytes zeroRandom_range
                   (rectangleParameters 1) 1 (thinWorld blackImage) _ _ _ thin_image_throws)).
  - apply reachable_new.
  - unfold image_not_empty. cbn. lia.
Defined.

Lemma reachable_layout_matches_canvas_witness :
  canvas_size (hiddenCanvas (this squareWorld1))
  = computeBestSize (sourceImage (this squareWorld1)) HIDDEN_CANVAS_SIZE /\
  (1 <= width (hiddenCanvas (this squareWorld1)))%Z /\
  (1 <= height (hiddenCanvas (this squareWorld1)))%Z.
Proof.
  destruct (reachable_layout_matches_canvas blackImage faintStroke exampleClock zeroRandom
              blackImage_bytes faintStroke_bytes zeroRandom_range squareWorld1
              squareWorld1_reachable squareWorld1_image) as (H1 & H2 & H3 & _).
  split; [exact H1|]. split; [exact H2|exact H3].
Defined.

Lemma rectangle_stalls_iff_thin_witness :
  (forall i j a b, (i < j)%nat ->
     nth_error (snd (computePegs {| width := 1; height := 256 |} RECTANGLE 256)) i = Some a ->
     nth_error (snd (computePegs {| width := 1; height := 256 |} RECTANGLE 256)) j = Some b ->
     fst (computePegs {| width := 1; height := 256 |} RECTANGLE 256) a b = true)
  <-> (1 = 1 \/ 256 = 1)%Z.
Proof.
  apply (rectangle_stalls_iff_thin 1 256 256); lia.
Defined.

Lemma computeBestSize_fits_witness :
  Z.max (width (computeBestSize thinImage HIDDEN_CANVAS_SIZE))
        (height (computeBestSize thinImage HIDDEN_CANVAS_SIZE)) = 256%Z.
Proof.
  destruct (computeBestSize_fits thinImage) as (_ & _ & H & _).
  - cbn. lia.
  - cbn. lia.
  - exact H.
Defined.

Lemma computeNextThreads_never_overshoots_witness :
  targetNbSegments (this squareWorld1) = 5%Z /\
  (0 <= nbSegments (this squareWorld1) <= 5)%Z.
Proof.
  destruct (computeNextThreads_never_overshoots blackImage faintStroke exampleClock
              zeroRandom (rectangleParameters 5) 1 squareWorld squareWorld1 false
              square_timed_out) as (Ht & Hn & _).
  split; [exact Ht|exact Hn].
Defined.

(** The square example with one line asked for and a budget of 3 ms, which
    the clock of the example never reaches: the call takes the first step,
    then the target is met. *)
Lemma square_one_line :
  computeNextThreads blackImage faintStroke exampleClock zeroRandom
    (rectangleParameters 1) 3 squareWorld
  = Normal true
      (after_first_step
         (tick (with_this (set_targetNbSegments 1 (this squareWorld)) (tick squareWorld)))).
Proof.
  rewrite computeNextThreads_unfold.
  change (nbSegments (this squareWorld) >? Parameters_nbLines (rectangleParameters 1))%Z
    with false.
  set (v := with_this _ _).
  assert (Hv : black_rectangle (this (tick v))) by apply squareWorld_black.
  assert (Hpegs : pegs (this (tick v)) = [corner00; corner10; corner11; corner01])
    by apply squareWorld_pegs.
  pose proof (square_first_step (tick v) Hv Hpegs eq_refl) as Estep.
  unfold grow. unfold get at 1. unfold bind at 1 2.
  change (Z.to_nat (targetNbSegments (this v) - nbSegments (this v))) with 1%nat.
  rewrite growLoop_S.
  change (nbSegments (this v) <? targetNbSegments (this v))%Z with true.
  change (exampleClock (clock_reads v)) with 0.
  change (exampleClock (clock_reads squareWorld)) with 0.
  replace (Rltb (0 - 0) 3) with true by (symmetry; apply Rltb_true_iff; lra).
  rewrite (bind_Normal _ _ _ _ _ Estep).
  reflexivity.
Qed.

Lemma computeNextThreads_completes_in_time_witness :
  nbSegments (this squareWorld) = 0%Z /\
  computeNextThreads blackImage faintStroke exampleClock zeroRandom
    (rectangleParameters 1) 3 squareWorld
  = Normal true
      (after_first_step
         (tick (with_this (set_targetNbSegments 1 (this squareWorld)) (tick squareWorld)))) /\
  nbSegments
    (this (after_first_step
             (tick (with_this (set_targetNbSegments 1 (this squareWorld))
                      (tick squareWorld))))) = 1%Z.
Proof.
  split; [reflexivity|]. split; [apply square_one_line|].
  refine (proj2 (computeNextThreads_completes_in_time blackImage faintStroke exampleClock
                   zeroRandom (rectangleParameters 1) 3 squareWorld _ true _
                   square_one_line)).
  intros k. unfold exampleClock.
  destruct (k <=? 1)%nat, (clock_reads squareWorld <=? 1)%nat; lra.
Defined.

Lemma reachable_has_no_cpu_copy_witness :
  hiddenCanvasData (this squareWorld1) = None.
Proof.
  exact (proj1 (reachable_has_no_cpu_copy blackImage faintStroke exampleClock zeroRandom
                  blackImage_bytes faintStroke_bytes zeroRandom_range squareWorld1
                  squareWorld1_reachable squareWorld1_image)).
Defined.

Lemma resetHiddenCanvas_greys_witness :
  channel (bitmap (freshCanvas blackImage true squareImage)) 0 0 = 128%Z.
Proof.
  pose proof (resetHiddenCanvas_greys blackImage true squareImage 0) as H.
  cbv zeta in H. rewrite computeBestSize_square in H. cbn [width height] in H.
  destruct H as (_ & E & _ & _ & _ & _ & _ & Hblack).
  - unfold blackImage. rewrite repeat_length. cbn [width height]. lia.
  - apply blackImage_bytes.
  - lia.
  - rewrite E. apply Hblack; reflexivity.
Defined.

Lemma applyCanvasCompositing_outcome_witness :
  Compositing.globalCompositeOperation
    (fst (Compositing.applyCanvasCompositing Compositing.basicBrowser
            Compositing.newContext Compositing.RED 0.5 Compositing.LIGHTEN
            Compositing.newPage))
  = Compositing.globalCompositeOperation Compositing.newContext /\
  Compositing.supportsAdvancedCompositing
    (snd (Compositing.applyCanvasCompositing Compositing.basicBrowser
            Compositing.newContext Compositing.RED 0.5 Compositing.LIGHTEN
            Compositing.newPage))
  = false.
Proof.
  pose proof (applyCanvasCompositing_outcome Compositing.basicBrowser
                Compositing.newContext Compositing.RED 0.5 Compositing.LIGHTEN
                Compositing.newPage eq_refl eq_refl) as H.
  destruct (Compositing.applyCanvasCompositing _ _ _ _ _ _) as [context' page'].
  cbn in H. destruct H as (_ & Hflag & _ & Hop & _).
  split; [exact Hop|exact Hflag].
Defined.


(** ** The stored angles are doubles *)

Lemma double_circle_angles (domainSize : ISize) (pegsSpacing : PrimFloat.float) (i : nat) :
  (Z.of_nat i < Double.to_Z (Double.circle_nbPegs domainSize pegsSpacing))%Z ->
  nth_error (Double.circle_angles domainSize pegsSpacing) i
  = Some (PrimFloat.mul (Double.of_Z (Z.of_nat i))
            (PrimFloat.div Double.TWO_PI (Double.circle_nbPegs domainSize pegsSpacing))).
Proof.
  intros Hi. unfold Double.circle_angles, for_loop.
  set (f := fun iPeg : Z =>
              PrimFloat.mul (Double.of_Z iPeg)
                (PrimFloat.div Double.TWO_PI (Double.circle_nbPegs domainSize pegsSpacing))).
  rewrite (for_range_push (fun iPeg => [f iPeg])).
  cbn [app]. rewrite Z.sub_0_r.
  assert (Hmap : forall l, flat_map (fun iPeg => [f iPeg]) l = map f l).
  { induction l as [|a l IH]; cbn [flat_map map app]; [reflexivity|now rewrite IH]. }
  rewrite Hmap, nth_error_map, nth_error_Zseq by lia. reflexivity.
Qed.



(** With a spacing of 51 the same canvas has 16 pegs and [baseDeltaAngle] is
    the threshold [TWO_PI / 16] of the predicate itself.  The angles stored
    for the pegs 11 and 12 are further apart than that, and the predicate
    accepts the thread between these two neighbours. *)
Lemma neighbours_accepted_at_sixteen_pegs :
  Double.circle_nbPegs {| width := 256; height := 256 |} (Double.of_Z 51) = (Double.of_Z 16) /\
  exists angle11 angle12 : PrimFloat.float,
    nth_error (Double.circle_angles {| width := 256; height := 256 |} (Double.of_Z 51)) 11
    = Some angle11 /\
    nth_error (Double.circle_angles {| width := 256; height := 256 |} (Double.of_Z 51)) 12
    = Some angle12 /\
    PrimFloat.ltb (PrimFloat.div Double.TWO_PI (Double.of_Z 16)) (PrimFloat.sub angle12 angle11)
    = true /\
    Double.arePegsTooClose_circle angle11 angle12 = false /\
    Double.arePegsTooClose_circle angle12 angle11 = false.
Proof.
  split; [vm_compute; reflexivity|].
  eexists _, _. split; [vm_compute; reflexivity|]. split; [vm_compute; reflexivity|].
  repeat split; vm_compute; reflexivity.
Qed.
